(** * Resizer: gate resizing and van Ginneken rebuffering

    A shallow embedding of [Resizer.cc] and the properties of its
    natural-language specification.

    Conventions of the embedding.
    - [float], [Slew], [Required] and [ArcDelay] values are held as exact
      rationals ([Q]) and compared with the decidable comparisons of [Q].
      Where the result of the code depends on the rounding, in the folded
      ratio of the resize pass and in the search for the target load, the
      arithmetic is IEEE 754 single and double precision as the source has it
      ([SpecFloat]); a value held in [Q] enters it through [float_of_Q], which
      is the value itself when that is a float.
    - [int] counters and indices are integers ([Z]) without a bound: an
      [int] of the source behaves so until it overflows.
    - Objects the source handles through pointers (pins, nets, instances,
      cells) are identified by their names.
    - The collaborators of the resizer that are not part of [Resizer.cc]
      (network queries, SDC, timing graph, delay calculator, Steiner tree
      builder) are the fields of the record [Sta]; every function takes the
      record as its first argument. *)

From Stdlib Require Import QArith Qabs Qminmax Lqa ZArith Lia Ascii String List.
From Stdlib Require Import SpecFloat.
From stdpp Require Import base option list sorting strings pretty gmap.

Open Scope Q_scope.

(** ** Numbers *)

Definition Qgt_bool (a b : Q) : bool := negb (Qle_bool a b).
Definition Qlt_bool (a b : Q) : bool := negb (Qle_bool b a).

(** [INT_MAX] of a 32 bit [int]. *)
Definition INT_MAX : Z := 2147483647.

(** *** Single and double precision

    [float] and [double] are IEEE 754 binary32 and binary64: the numbers
    and operations of [SpecFloat] at precision 24 with [emax] 128 and at
    precision 53 with [emax] 1024, every result rounded to nearest, ties
    to even. *)
Definition float : Type := spec_float.
Definition double : Type := spec_float.

(** The number of the format nearest to the rational [q]: numerator and
    denominator are divided as integers and the quotient is rounded
    once. *)
Definition round_Q (prec emax : Z) (q : Q) : spec_float :=
  match Qnum q with
  | Z0 => S754_zero false
  | Zpos n =>
      SFdiv prec emax (S754_finite false n 0) (S754_finite false (Qden q) 0)
  | Zneg n =>
      SFdiv prec emax (S754_finite true n 0) (S754_finite false (Qden q) 0)
  end.

Definition float_of_Q : Q -> float := round_Q 24 128.
(** A literal such as [1.0e-12] is a [double]. *)
Definition double_of_Q : Q -> double := round_Q 53 1024.

(** [(float) d] rounds; [(double) f] is exact. *)
Definition float_of_double (d : double) : float :=
  match d with
  | S754_finite s m e => binary_round 24 128 s m e
  | _ => d
  end.

Definition double_of_float (f : float) : double :=
  match f with
  | S754_finite s m e => binary_round 53 1024 s m e
  | _ => f
  end.

(** [(float) n] for an [int]. *)
Definition float_of_int (n : Z) : float := binary_normalize 24 128 n 0 false.

(** The value of a finite number; 0 stands in for an infinity or a NaN,
    which have none. *)
Definition Q_of_float (f : float) : Q :=
  match f with
  | S754_finite s m e =>
      let n := inject_Z (cond_Zopp s (Zpos m)) in
      match e with
      | Z0 => n
      | Zpos p => n * inject_Z (Z.pow_pos 2 p)
      | Zneg p => n / inject_Z (Z.pow_pos 2 p)
      end
  | _ => 0
  end.

Definition fadd : float -> float -> float := SFadd 24 128.
Definition fsub : float -> float -> float := SFsub 24 128.
Definition fdiv : float -> float -> float := SFdiv 24 128.
Definition dmul : double -> double -> double := SFmul 53 1024.
Definition ddiv : double -> double -> double := SFdiv 53 1024.

(** [a > b], false when one of them is a NaN. *)
Definition fgt (a b : spec_float) : bool := SFltb b a.

Definition fzero : float := S754_zero false.

(** [INF] of the timing library: a large finite float. *)
Definition INF : Q := 1000000000000000000000000000000. (* 1E+30 *)

(** The fuzzy comparator of the timing library ([Fuzzy.hh], not part of the
    sources).  Modelled from the spec: two values are equal within an epsilon
    proportional to their magnitudes (an absolute epsilon next to zero);
    [fuzzyGreater] and [fuzzyLess] are strict outside the epsilon. *)
Definition float_equal_tolerance : Q := 0.000000000000001. (* 1E-15 *)

Definition fuzzyEqual (v1 v2 : Q) : bool :=
  if Qeq_bool v1 v2 then true
  else if Qeq_bool v1 0 then Qlt_bool (Qabs v2) float_equal_tolerance
  else if Qeq_bool v2 0 then Qlt_bool (Qabs v1) float_equal_tolerance
  else Qlt_bool (Qabs (v1 - v2)) (0.000001 * Qmax (Qabs v1) (Qabs v2)).

Definition fuzzyLess (v1 v2 : Q) : bool :=
  Qlt_bool v1 v2 && negb (fuzzyEqual v1 v2).

Definition fuzzyGreater (v1 v2 : Q) : bool :=
  Qgt_bool v1 v2 && negb (fuzzyEqual v1 v2).

Definition fuzzyInf (value : Q) : bool := fuzzyEqual (Qabs value) INF.

(** The distance that keeps [b < a] apart under [fuzzyEqual]. *)
Definition apart (a b : Q) : Prop :=
  (a == 0 -> float_equal_tolerance <= Qabs b)
  /\ (~ a == 0 -> b == 0 -> float_equal_tolerance <= Qabs a)
  /\ (~ a == 0 -> ~ b == 0 -> 0.000001 * Qmax (Qabs a) (Qabs b) <= Qabs (a - b)).

(** ** The timing library's enumerations *)

Inductive TransRiseFall := rise | fall.

(** [TransRiseFallIterator] visits rise, then fall. *)
Definition TransRiseFall_range : list TransRiseFall := [rise; fall].

Inductive MinMax := MinMax_min | MinMax_max.

Definition MinMax_eqb (a b : MinMax) : bool :=
  match a, b with
  | MinMax_min, MinMax_min | MinMax_max, MinMax_max => true
  | _, _ => false
  end.

Definition opposite (min_max : MinMax) : MinMax :=
  match min_max with MinMax_min => MinMax_max | MinMax_max => MinMax_min end.

Definition initValue (min_max : MinMax) : Q :=
  match min_max with MinMax_min => INF | MinMax_max => - INF end.

(** [min_max->compare(a, b)]: [a > b] for max, [a < b] for min. *)
Definition compare (min_max : MinMax) (value1 value2 : Q) : bool :=
  match min_max with
  | MinMax_max => Qgt_bool value1 value2
  | MinMax_min => Qlt_bool value1 value2
  end.

Definition fuzzyGreater_mm (v1 v2 : Q) (min_max : MinMax) : bool :=
  match min_max with
  | MinMax_max => fuzzyGreater v1 v2
  | MinMax_min => fuzzyLess v1 v2
  end.

(** ** Library data *)

(** A gate timing model: [gateDelay in_slew load_cap = (arc_delay, arc_slew)]. *)
Definition GateTimingModel : Type := Q -> Q -> Q * Q.

Record TimingArc := {
  fromTrans : TransRiseFall;
  toTrans : TransRiseFall;
  (** [dynamic_cast<GateTimingModel*>(arc->model())], null when the arc has
      no gate model. *)
  model : option GateTimingModel
}.

Record TimingArcSet := {
  arc_set_from : string;
  arc_set_to : string;
  arcs : list TimingArc
}.

(** A float returned through a reference together with its [exists] flag. *)
Definition Limit : Type := Q * bool.

Record LibertyCell := {
  cell_name : string;
  timingArcSets : list TimingArcSet
}.

Record LibertyPort := {
  port_name : string;
  libertyCell : LibertyCell;
  capacitance : TransRiseFall -> MinMax -> Q;
  capacitanceLimit : MinMax -> Limit;
  port_slewLimit : MinMax -> Limit
}.

(** ** Design data *)

Definition Instance : Type := string.
Definition Port : Type := string.
Definition Net : Type := string.
(** A pin is a port of an instance. *)
Definition Pin : Type := (Instance * Port)%type.
Definition DefPt : Type := (Z * Z)%type.

Record Vertex := {
  vertex_pin : Pin;
  level : Z
}.

Record Path := {
  path_minMax : MinMax;
  path_required : Q
}.

(** Steiner trees.  [SteinerTree.hh] is not part of the sources; a point
    with its [pin], its [location] and its [left] and [right] descendants
    is a node of a binary tree, [null_pt] the absent descendant. *)
Inductive SteinerPt :=
| null_pt
| steiner_pt (pin : option Pin) (location : DefPt) (left right : SteinerPt).

Definition tree_pin (k : SteinerPt) : option Pin :=
  match k with null_pt => None | steiner_pt p _ _ _ => p end.

Definition tree_left (k : SteinerPt) : SteinerPt :=
  match k with null_pt => null_pt | steiner_pt _ _ l _ => l end.

Definition tree_right (k : SteinerPt) : SteinerPt :=
  match k with null_pt => null_pt | steiner_pt _ _ _ r => r end.

(** The collaborators of the resizer and its settings: what the network,
    the SDC, the timing graph and the delay calculators answer. *)
Record Sta := {
  (* network_ *)
  libertyPort : Pin -> option LibertyPort;
  isTopLevelPort : Pin -> bool;
  isLoad : Pin -> bool;
  isDriver : Pin -> bool;
  pathName : Pin -> string;
  (* pins of an instance, in the order of [pinIterator] *)
  instance_pins : Instance -> list Pin;
  isOutput : Pin -> bool;
  (* [network_->libertyCell(inst)], by the name of the cell of [inst] *)
  findLibertyCell : string -> option LibertyCell;
  equivCells : LibertyCell -> option (list LibertyCell);
  (* LefDefNetwork *)
  isLefCell : string -> bool;
  lefCell : LibertyCell -> option string;
  (* [buffer_cell->bufferPorts(input, output)] *)
  bufferPorts : LibertyCell -> LibertyPort * LibertyPort;
  dbuToMeters : Z -> Q;
  (* sdc_ *)
  sdc_slewLimit_cell : MinMax -> Limit;
  sdc_slewLimit_port : Port -> MinMax -> Limit;
  sdc_slewLimit_pin : Pin -> MinMax -> Limit;
  (* graph_, search_ *)
  graph_vertices : list Vertex;
  pinDrvrVertex : Pin -> Vertex;
  pinLoadVertex : Pin -> Vertex;
  graph_slew : Vertex -> TransRiseFall -> Q;
  vertex_paths : Vertex -> list Path;
  isClock : Vertex -> bool;
  (* graph_delay_calc_, arc_delay_calc_ *)
  loadCap : Pin -> Q;
  arc_delay_calc_gateDelay : LibertyCell -> TimingArc -> Q -> Q -> Q * Q;
  (* Steiner tree builder: the root is the driver point *)
  makeSteinerTree : Net -> SteinerPt;
  (* settings of the resizer, fixed before the passes run *)
  wire_res_ : Q;
  wire_cap_ : Q;
  target_load_map_ : gmap string Q;
  tgt_slews_ : TransRiseFall -> Q
}.

(** [initCorner] sets [min_max_] to [MinMax::max()] before any pass runs. *)
Definition min_max_ : MinMax := MinMax_max.

(** ** Violation detector *)

Definition hasMaxCapViolation (sta : Sta) (drvr_pin : Pin) : bool :=
  match libertyPort sta drvr_pin with
  | Some port =>
      let load_cap := loadCap sta drvr_pin in
      let '(cap_limit, exists_) := capacitanceLimit port MinMax_max in
      exists_ && Qgt_bool load_cap cap_limit
  | None => false
  end.

(** One "use the tightest limit" step of [slewLimit]. *)
Definition tighten (min_max : MinMax) (acc new_limit : Limit) : Limit :=
  let '(limit, exists_) := acc in
  let '(new_value, new_exists) := new_limit in
  if new_exists && (negb exists_ || compare min_max limit new_value)
  then (new_value, true)
  else (limit, exists_).

Definition slewLimit (sta : Sta) (pin : Pin) (tr : TransRiseFall)
    (min_max : MinMax) : Limit :=
  let '(top_limit, top_limit_exists) := sdc_slewLimit_cell sta min_max in
  (* Default to top ("design") limit. *)
  let acc := (top_limit, top_limit_exists) in
  if isTopLevelPort sta pin then
    let port := snd pin in
    tighten min_max acc (sdc_slewLimit_port sta port min_max)
  else
    let acc := tighten min_max acc (sdc_slewLimit_pin sta pin min_max) in
    match libertyPort sta pin with
    | Some port => tighten min_max acc (port_slewLimit port min_max)
    | None => acc
    end.

(** The limits [slewLimit] consults for [pin], in the order of the code. *)
Definition consultedLimits (sta : Sta) (pin : Pin) (min_max : MinMax)
    : list Limit :=
  if isTopLevelPort sta pin then
    [sdc_slewLimit_cell sta min_max; sdc_slewLimit_port sta (snd pin) min_max]
  else
    [sdc_slewLimit_cell sta min_max; sdc_slewLimit_pin sta pin min_max]
    ++ match libertyPort sta pin with
       | Some port => [port_slewLimit port min_max]
       | None => []
       end.

Fixpoint hasMaxSlewViolation_loop (sta : Sta) (drvr_pin : Pin)
    (vertex : Vertex) (trs : list TransRiseFall) : bool :=
  match trs with
  | [] => false
  | tr :: trs' =>
      let slew := graph_slew sta vertex tr in
      let '(limit, exists_) := slewLimit sta drvr_pin tr MinMax_max in
      if Qgt_bool slew limit then true
      else hasMaxSlewViolation_loop sta drvr_pin vertex trs'
  end.

Definition hasMaxSlewViolation (sta : Sta) (drvr_pin : Pin) : bool :=
  let vertex := pinDrvrVertex sta drvr_pin in
  hasMaxSlewViolation_loop sta drvr_pin vertex TransRiseFall_range.

(** ** Capacitances, required times and gate delays *)

Definition portCapacitance (port : LibertyPort) : Q :=
  let cap1 := capacitance port rise min_max_ in
  let cap2 := capacitance port fall min_max_ in
  Qmax cap1 cap2.

Definition pinCapacitance (sta : Sta) (pin : Pin) : Q :=
  match libertyPort sta pin with
  | Some port => portCapacitance port
  | None => 0
  end.

Definition bufferInputCapacitance (sta : Sta) (buffer_cell : LibertyCell) : Q :=
  let '(input, output) := bufferPorts sta buffer_cell in
  portCapacitance input.

Definition vertexRequired (sta : Sta) (vertex : Vertex) (min_max : MinMax) : Q :=
  let req_min_max := opposite min_max in
  fold_left
    (fun required path =>
       if MinMax_eqb (path_minMax path) min_max
          && fuzzyGreater_mm (path_required path) required req_min_max
       then path_required path
       else required)
    (vertex_paths sta vertex)
    (initValue req_min_max).

Definition pinRequired (sta : Sta) (pin : Pin) : Q :=
  let vertex := pinLoadVertex sta pin in
  vertexRequired sta vertex min_max_.

Definition gateDelay (sta : Sta) (out_port : LibertyPort) (load_cap : Q) : Q :=
  let cell := libertyCell out_port in
  fold_left
    (fun max_delay arc_set =>
       if String.eqb (arc_set_to arc_set) (port_name out_port) then
         fold_left
           (fun max_delay arc =>
              let in_tr := fromTrans arc in
              let in_slew := tgt_slews_ sta in_tr in
              let '(gate_delay, drvr_slew) :=
                arc_delay_calc_gateDelay sta cell arc in_slew load_cap in
              Qmax max_delay gate_delay)
           (arcs arc_set) max_delay
       else max_delay)
    (timingArcSets cell)
    (- INF).

Definition bufferDelay (sta : Sta) (buffer_cell : LibertyCell) (load_cap : Q) : Q :=
  let '(input, output) := bufferPorts sta buffer_cell in
  gateDelay sta output load_cap.

(** ** Rebuffer options *)

Inductive RebufferOptionType := sink | junction | wire | buffer.

Unset Elimination Schemes.
Inductive RebufferOption := mkRebufferOption {
  type : RebufferOptionType;
  cap : Q;
  required : Q;
  loadPin : option Pin;
  location : DefPt;
  ref : option RebufferOption;
  ref2 : option RebufferOption
}.
Set Elimination Schemes.

Definition bufferRequired (sta : Sta) (buffer_cell : LibertyCell)
    (o : RebufferOption) : Q :=
  required o - bufferDelay sta buffer_cell (cap o).

(** The sink options that [o] leads to along [ref] and [ref2]. *)
Fixpoint sinkOptions (o : RebufferOption) : list RebufferOption :=
  match o with
  | mkRebufferOption sink _ _ _ _ _ _ => [o]
  | mkRebufferOption _ _ _ _ _ o1 o2 =>
      match o1 with Some o1 => sinkOptions o1 | None => [] end
      ++ match o2 with Some o2 => sinkOptions o2 | None => [] end
  end.

(** ** Bottom-up pass *)

(** Wire between the points at [k_loc] and [prev_loc]: Manhattan length in
    database units, capacitance and lumped delay. *)
Definition wire_length_dbu (k_loc prev_loc : DefPt) : Z :=
  (Z.abs (fst k_loc - fst prev_loc) + Z.abs (snd k_loc - snd prev_loc))%Z.

Definition wire_cap (sta : Sta) (k_loc prev_loc : DefPt) : Q :=
  let wire_length := dbuToMeters sta (wire_length_dbu k_loc prev_loc) in
  wire_length * wire_cap_ sta.

Definition wire_res (sta : Sta) (k_loc prev_loc : DefPt) : Q :=
  let wire_length := dbuToMeters sta (wire_length_dbu k_loc prev_loc) in
  wire_length * wire_res_ sta.

Definition wire_delay (sta : Sta) (k_loc prev_loc : DefPt) : Q :=
  wire_res sta k_loc prev_loc * wire_cap sta k_loc prev_loc.

(** The wire option made from [p]. *)
Definition wireOption (sta : Sta) (k_loc prev_loc : DefPt)
    (p : RebufferOption) : RebufferOption :=
  mkRebufferOption wire
    (* account for wire load *)
    (cap p + wire_cap sta k_loc prev_loc)
    (* account for wire delay *)
    (required p - wire_delay sta k_loc prev_loc)
    None prev_loc (Some p) None.

(** Required time at [prev] when a buffer there drives the wire to [p]:
    [z->bufferRequired(buffer_cell, this)] of the wire option [z] of [p]. *)
Definition wireBufferRequired (sta : Sta) (buffer_cell : LibertyCell)
    (k_loc prev_loc : DefPt) (p : RebufferOption) : Q :=
  bufferRequired sta buffer_cell (wireOption sta k_loc prev_loc p).

(** The buffer option in front of [best_ref]. *)
Definition bufferOption (sta : Sta) (buffer_cell : LibertyCell)
    (prev_loc : DefPt) (best : Q) (best_ref : RebufferOption) : RebufferOption :=
  mkRebufferOption buffer
    (bufferInputCapacitance sta buffer_cell)
    best
    None
    (* Locate buffer at opposite end of wire. *)
    prev_loc
    (Some best_ref) None.

(** The loop of [addWireAndBuffer] over [Z]: the wire options made so far,
    the best buffered required time and the option it belongs to. *)
Fixpoint addWireAndBuffer_loop (sta : Sta) (buffer_cell : LibertyCell)
    (k_loc prev_loc : DefPt) (Z : list RebufferOption)
    (Z1 : list RebufferOption) (best : Q) (best_ref : option RebufferOption)
    : list RebufferOption * Q * option RebufferOption :=
  match Z with
  | [] => (Z1, best, best_ref)
  | p :: Z' =>
      let z := wireOption sta k_loc prev_loc p in
      let Z1 := Z1 ++ [z] in
      let rt := bufferRequired sta buffer_cell z in
      if fuzzyGreater rt best
      then addWireAndBuffer_loop sta buffer_cell k_loc prev_loc Z' Z1 rt (Some p)
      else addWireAndBuffer_loop sta buffer_cell k_loc prev_loc Z' Z1 best best_ref
  end.

(** [k_loc] and [prev_loc] are [tree->location(k)] and
    [tree->location(prev)]; the points enter in no other way. *)
Definition addWireAndBuffer (sta : Sta) (Z : list RebufferOption)
    (k_loc prev_loc : DefPt) (buffer_cell : LibertyCell)
    : list RebufferOption :=
  let '(Z1, best, best_ref) :=
    addWireAndBuffer_loop sta buffer_cell k_loc prev_loc Z [] (- INF) None in
  match best_ref with
  | Some best_ref => Z1 ++ [bufferOption sta buffer_cell prev_loc best best_ref]
  | None => Z1
  end.

(** Combine the options from both branches. *)
Definition junctions (k_loc : DefPt) (Zl Zr : list RebufferOption)
    : list RebufferOption :=
  p ← Zl; q ← Zr;
  [mkRebufferOption junction
     (cap p + cap q)
     (Qmin (required p) (required q))
     None k_loc (Some p) (Some q)].

(** The inner loop of the pruning: [q] runs over the vector, [qi] counts
    the non-null entries met so far, and the entry at index [qi] is
    cleared when [q] is strictly worse than [p]. *)
Fixpoint prune_inner (sta : Sta) (buffer_cell : LibertyCell) (Tp Lp : Q)
    (js : list nat) (Z2 : list (option RebufferOption)) (qi : nat)
    : list (option RebufferOption) :=
  match js with
  | [] => Z2
  | j :: js' =>
      match Z2 !! j with
      | Some (Some q) =>
          let Tq := bufferRequired sta buffer_cell q in
          let Lq := cap q in
          let Z2 :=
            if fuzzyLess Tq Tp && fuzzyGreater Lq Lp
            then <[qi := None]> Z2
            else Z2 in
          prune_inner sta buffer_cell Tp Lp js' Z2 (S qi)
      | _ => prune_inner sta buffer_cell Tp Lp js' Z2 qi
      end
  end.

Fixpoint prune_outer (sta : Sta) (buffer_cell : LibertyCell)
    (pis : list nat) (Z2 : list (option RebufferOption))
    : list (option RebufferOption) :=
  match pis with
  | [] => Z2
  | i :: pis' =>
      match Z2 !! i with
      | Some (Some p) =>
          let Tp := bufferRequired sta buffer_cell p in
          let Lp := cap p in
          prune_outer sta buffer_cell pis'
            (prune_inner sta buffer_cell Tp Lp (seq 0 (length Z2)) Z2 0)
      | _ => prune_outer sta buffer_cell pis' Z2
      end
  end.

(** Prune the options, then save the survivors. *)
Definition prune (sta : Sta) (buffer_cell : LibertyCell)
    (Z2 : list RebufferOption) : list RebufferOption :=
  let Z2 := Some <$> Z2 in
  omap id (prune_outer sta buffer_cell (seq 0 (length Z2)) Z2).

(** [q] dominates [p]: strictly larger required time with a buffer in
    front, strictly smaller capacitance, both under the fuzzy comparator. *)
Definition dominates (sta : Sta) (buffer_cell : LibertyCell)
    (q p : RebufferOption) : bool :=
  fuzzyGreater (bufferRequired sta buffer_cell q) (bufferRequired sta buffer_cell p)
  && fuzzyLess (cap q) (cap p).

(** The sink option of a load pin. *)
Definition sinkOption (sta : Sta) (pin : Pin) (k_loc : DefPt) : RebufferOption :=
  mkRebufferOption sink (pinCapacitance sta pin) (pinRequired sta pin)
    (Some pin) k_loc None None.

Fixpoint rebufferBottomUp (sta : Sta) (k : SteinerPt) (prev_loc : DefPt)
    (buffer_cell : LibertyCell) : list RebufferOption :=
  match k with
  | null_pt => []
  | steiner_pt pin k_loc k_left k_right =>
      match pin with
      | Some pin =>
          if isLoad sta pin then
            (* Load capacitance and required time. *)
            let z := sinkOption sta pin k_loc in
            addWireAndBuffer sta [z] k_loc prev_loc buffer_cell
          else []
      | None =>
          (* Steiner pt. *)
          let Zl := rebufferBottomUp sta k_left k_loc buffer_cell in
          let Zr := rebufferBottomUp sta k_right k_loc buffer_cell in
          let Z2 := junctions k_loc Zl Zr in
          let Z := prune sta buffer_cell Z2 in
          addWireAndBuffer sta Z k_loc prev_loc buffer_cell
      end
  end.

(** The options kept at a Steiner junction: what [rebufferBottomUp] hands
    to [addWireAndBuffer] there. *)
Definition junctionSurvivors (sta : Sta) (k : SteinerPt)
    (buffer_cell : LibertyCell) : list RebufferOption :=
  match k with
  | steiner_pt None k_loc k_left k_right =>
      prune sta buffer_cell
        (junctions k_loc (rebufferBottomUp sta k_left k_loc buffer_cell)
                         (rebufferBottomUp sta k_right k_loc buffer_cell))
  | _ => []
  end.

(** ** The netlist and the counters of the resizer *)

Record InstanceData := {
  inst_cell : string;
  inst_location : option DefPt
}.

(** The part of the resizer and of its network that the passes change. *)
Record Resizer := {
  (** nets of the top instance *)
  nets : gset Net;
  instances : gmap Instance InstanceData;
  (** [network_->net(pin)] *)
  connections : gmap Pin Net;
  (** nets whose parasitic network was rebuilt, latest first *)
  parasitic_networks : list Net;
  level_drvr_verticies_ : list Vertex;
  level_drvr_verticies_valid_ : bool;
  resize_count_ : Z;
  inserted_buffer_count_ : Z;
  rebuffer_net_count_ : Z;
  unique_net_index_ : Z;
  unique_buffer_index_ : Z
}.

Definition set_nets (v : gset Net) (st : Resizer) : Resizer :=
  {| nets := v; instances := instances st; connections := connections st;
     parasitic_networks := parasitic_networks st;
     level_drvr_verticies_ := level_drvr_verticies_ st;
     level_drvr_verticies_valid_ := level_drvr_verticies_valid_ st;
     resize_count_ := resize_count_ st;
     inserted_buffer_count_ := inserted_buffer_count_ st;
     rebuffer_net_count_ := rebuffer_net_count_ st;
     unique_net_index_ := unique_net_index_ st;
     unique_buffer_index_ := unique_buffer_index_ st |}.

Definition set_instances (v : gmap Instance InstanceData) (st : Resizer) : Resizer :=
  {| nets := nets st; instances := v; connections := connections st;
     parasitic_networks := parasitic_networks st;
     level_drvr_verticies_ := level_drvr_verticies_ st;
     level_drvr_verticies_valid_ := level_drvr_verticies_valid_ st;
     resize_count_ := resize_count_ st;
     inserted_buffer_count_ := inserted_buffer_count_ st;
     rebuffer_net_count_ := rebuffer_net_count_ st;
     unique_net_index_ := unique_net_index_ st;
     unique_buffer_index_ := unique_buffer_index_ st |}.

Definition set_connections (v : gmap Pin Net) (st : Resizer) : Resizer :=
  {| nets := nets st; instances := instances st; connections := v;
     parasitic_networks := parasitic_networks st;
     level_drvr_verticies_ := level_drvr_verticies_ st;
     level_drvr_verticies_valid_ := level_drvr_verticies_valid_ st;
     resize_count_ := resize_count_ st;
     inserted_buffer_count_ := inserted_buffer_count_ st;
     rebuffer_net_count_ := rebuffer_net_count_ st;
     unique_net_index_ := unique_net_index_ st;
     unique_buffer_index_ := unique_buffer_index_ st |}.

Definition set_parasitic_networks (v : list Net) (st : Resizer) : Resizer :=
  {| nets := nets st; instances := instances st;
     connections := connections st; parasitic_networks := v;
     level_drvr_verticies_ := level_drvr_verticies_ st;
     level_drvr_verticies_valid_ := level_drvr_verticies_valid_ st;
     resize_count_ := resize_count_ st;
     inserted_buffer_count_ := inserted_buffer_count_ st;
     rebuffer_net_count_ := rebuffer_net_count_ st;
     unique_net_index_ := unique_net_index_ st;
     unique_buffer_index_ := unique_buffer_index_ st |}.

Definition set_level_drvr_verticies (v : list Vertex) (st : Resizer) : Resizer :=
  {| nets := nets st; instances := instances st;
     connections := connections st;
     parasitic_networks := parasitic_networks st; level_drvr_verticies_ := v;
     level_drvr_verticies_valid_ := level_drvr_verticies_valid_ st;
     resize_count_ := resize_count_ st;
     inserted_buffer_count_ := inserted_buffer_count_ st;
     rebuffer_net_count_ := rebuffer_net_count_ st;
     unique_net_index_ := unique_net_index_ st;
     unique_buffer_index_ := unique_buffer_index_ st |}.

Definition set_level_drvr_verticies_valid (v : bool) (st : Resizer) : Resizer :=
  {| nets := nets st; instances := instances st;
     connections := connections st;
     parasitic_networks := parasitic_networks st;
     level_drvr_verticies_ := level_drvr_verticies_ st;
     level_drvr_verticies_valid_ := v; resize_count_ := resize_count_ st;
     inserted_buffer_count_ := inserted_buffer_count_ st;
     rebuffer_net_count_ := rebuffer_net_count_ st;
     unique_net_index_ := unique_net_index_ st;
     unique_buffer_index_ := unique_buffer_index_ st |}.

Definition set_resize_count (v : Z) (st : Resizer) : Resizer :=
  {| nets := nets st; instances := instances st;
     connections := connections st;
     parasitic_networks := parasitic_networks st;
     level_drvr_verticies_ := level_drvr_verticies_ st;
     level_drvr_verticies_valid_ := level_drvr_verticies_valid_ st;
     resize_count_ := v; inserted_buffer_count_ := inserted_buffer_count_ st;
     rebuffer_net_count_ := rebuffer_net_count_ st;
     unique_net_index_ := unique_net_index_ st;
     unique_buffer_index_ := unique_buffer_index_ st |}.

Definition set_inserted_buffer_count (v : Z) (st : Resizer) : Resizer :=
  {| nets := nets st; instances := instances st;
     connections := connections st;
     parasitic_networks := parasitic_networks st;
     level_drvr_verticies_ := level_drvr_verticies_ st;
     level_drvr_verticies_valid_ := level_drvr_verticies_valid_ st;
     resize_count_ := resize_count_ st; inserted_buffer_count_ := v;
     rebuffer_net_count_ := rebuffer_net_count_ st;
     unique_net_index_ := unique_net_index_ st;
     unique_buffer_index_ := unique_buffer_index_ st |}.

Definition set_rebuffer_net_count (v : Z) (st : Resizer) : Resizer :=
  {| nets := nets st; instances := instances st;
     connections := connections st;
     parasitic_networks := parasitic_networks st;
     level_drvr_verticies_ := level_drvr_verticies_ st;
     level_drvr_verticies_valid_ := level_drvr_verticies_valid_ st;
     resize_count_ := resize_count_ st;
     inserted_buffer_count_ := inserted_buffer_count_ st;
     rebuffer_net_count_ := v; unique_net_index_ := unique_net_index_ st;
     unique_buffer_index_ := unique_buffer_index_ st |}.

Definition set_unique_net_index (v : Z) (st : Resizer) : Resizer :=
  {| nets := nets st; instances := instances st;
     connections := connections st;
     parasitic_networks := parasitic_networks st;
     level_drvr_verticies_ := level_drvr_verticies_ st;
     level_drvr_verticies_valid_ := level_drvr_verticies_valid_ st;
     resize_count_ := resize_count_ st;
     inserted_buffer_count_ := inserted_buffer_count_ st;
     rebuffer_net_count_ := rebuffer_net_count_ st; unique_net_index_ := v;
     unique_buffer_index_ := unique_buffer_index_ st |}.

Definition set_unique_buffer_index (v : Z) (st : Resizer) : Resizer :=
  {| nets := nets st; instances := instances st;
     connections := connections st;
     parasitic_networks := parasitic_networks st;
     level_drvr_verticies_ := level_drvr_verticies_ st;
     level_drvr_verticies_valid_ := level_drvr_verticies_valid_ st;
     resize_count_ := resize_count_ st;
     inserted_buffer_count_ := inserted_buffer_count_ st;
     rebuffer_net_count_ := rebuffer_net_count_ st;
     unique_net_index_ := unique_net_index_ st; unique_buffer_index_ := v |}.

(** Computations on the resizer: [None] is a crash (a null pointer is
    dereferenced) or a loop that was cut off. *)
Definition M (A : Type) : Type := Resizer -> option (A * Resizer).

Definition ret {A} (a : A) : M A := fun st => Some (a, st).
Definition fail {A} : M A := fun _ => None.
Definition bind {A B} (m : M A) (k : A -> M B) : M B :=
  fun st => match m st with
            | Some (a, st') => k a st'
            | None => None
            end.
Definition gets {A} (f : Resizer -> A) : M A := fun st => Some (f st, st).
Definition modify (f : Resizer -> Resizer) : M unit := fun st => Some (tt, f st).

Notation "x <- m ;; k" := (bind m (fun x => k))
  (at level 100, m at next level, right associativity).
Notation "m ;; k" := (bind m (fun _ => k))
  (at level 100, right associativity).

(** *** Netlist mutator ([Network] and [Sta] edits, not part of the sources).
    Modelled from the spec: make a net or an instance under the top instance,
    connect or disconnect a pin, set a location. *)

Definition findNet (name : string) : M bool :=
  gets (fun st => bool_decide (name ∈ nets st)).

Definition findInstance (name : string) : M bool :=
  gets (fun st => bool_decide (is_Some (instances st !! name))).

Definition makeNet (name : string) : M Net :=
  modify (fun st => set_nets ({[name]} ∪ nets st) st);;
  ret name.

Definition makeInstance (cell : LibertyCell) (name : string) : M Instance :=
  modify (fun st =>
    set_instances
      (<[name := {| inst_cell := cell_name cell; inst_location := None |}]>
         (instances st)) st);;
  ret name.

Definition connectPin (inst : Instance) (port : Port) (net : Net) : M unit :=
  modify (fun st => set_connections (<[(inst, port) := net]> (connections st)) st).

Definition disconnectPin (pin : Pin) : M unit :=
  modify (fun st => set_connections (delete pin (connections st)) st).

Definition setLocation (inst : Instance) (loc : DefPt) : M unit :=
  modify (fun st =>
    set_instances
      (alter (fun d => {| inst_cell := inst_cell d; inst_location := Some loc |})
         inst (instances st)) st).

(** [makeNetParasitics(net)] rebuilds the parasitic network of [net] from
    its Steiner tree; the store is kept as the list of rebuilt nets. *)
Definition makeNetParasitics (net : Net) : M unit :=
  modify (fun st => set_parasitic_networks (net :: parasitic_networks st) st).

(** ** Unique names *)

(** [stringPrint(name, "net%d", unique_net_index_++)] until the name is
    free.  [fuel] bounds the number of tries.  The index is an [int] in the
    source; as long as it stays below [INT_MAX] the increment is the one
    of [Z]. *)
Fixpoint makeUniqueNetName_loop (fuel : nat) : M string :=
  match fuel with
  | O => fail
  | S fuel' =>
      index <- gets unique_net_index_;;
      modify (set_unique_net_index (index + 1)%Z);;
      let node_name := ("net" +:+ pretty index)%string in
      found <- findNet node_name;;
      if found then makeUniqueNetName_loop fuel' else ret node_name
  end.

(** One more try than there are nets finds a free name
    ([makeUniqueNetName_fresh]). *)
Definition makeUniqueNetName : M string :=
  n <- gets (fun st => size (nets st));;
  makeUniqueNetName_loop (S n).

Fixpoint makeUniqueBufferName_loop (fuel : nat) : M string :=
  match fuel with
  | O => fail
  | S fuel' =>
      index <- gets unique_buffer_index_;;
      modify (set_unique_buffer_index (index + 1)%Z);;
      let buffer_name := ("buffer" +:+ pretty index)%string in
      found <- findInstance buffer_name;;
      if found then makeUniqueBufferName_loop fuel' else ret buffer_name
  end.

Definition makeUniqueBufferName : M string :=
  n <- gets (fun st => size (instances st));;
  makeUniqueBufferName_loop (S n).

(** ** Top-down pass *)

(** Return inserted buffer count. *)
Fixpoint rebufferTopDown (sta : Sta) (choice : RebufferOption) (net : Net)
    (buffer_cell : LibertyCell) : M Z :=
  match type choice with
  | buffer =>
      net2_name <- makeUniqueNetName;;
      buffer_name <- makeUniqueBufferName;;
      net2 <- makeNet net2_name;;
      buffer <- makeInstance buffer_cell buffer_name;;
      modify (set_level_drvr_verticies_valid false);;
      let '(input, output) := bufferPorts sta buffer_cell in
      connectPin buffer (port_name input) net;;
      connectPin buffer (port_name output) net2;;
      setLocation buffer (location choice);;
      match ref choice with
      | Some choice_ref =>
          rebufferTopDown sta choice_ref net2 buffer_cell;;
          makeNetParasitics net;;
          makeNetParasitics net2;;
          ret 1%Z
      | None => fail
      end
  | wire =>
      match ref choice with
      | Some choice_ref => rebufferTopDown sta choice_ref net buffer_cell
      | None => fail
      end
  | junction =>
      match ref choice, ref2 choice with
      | Some choice_ref, Some choice_ref2 =>
          insert_count1 <- rebufferTopDown sta choice_ref net buffer_cell;;
          insert_count2 <- rebufferTopDown sta choice_ref2 net buffer_cell;;
          ret (insert_count1 + insert_count2)%Z
      | _, _ => fail
      end
  | sink =>
      match loadPin choice with
      | Some load_pin =>
          load_net <- gets (fun st => connections st !! load_pin);;
          (if bool_decide (load_net = Some net) then ret tt
           else
             let load_inst := fst load_pin in
             let load_port := snd load_pin in
             disconnectPin load_pin;;
             connectPin load_inst load_port net);;
          ret 0%Z
      | None => fail
      end
  end.

(** ** Rebuffering one driver *)

Fixpoint rebuffer_best (sta : Sta) (drvr_port : LibertyPort)
    (Z : list RebufferOption) (Tbest : Q) (best : option RebufferOption)
    : option RebufferOption :=
  match Z with
  | [] => best
  | p :: Z' =>
      let Tb := required p - gateDelay sta drvr_port (cap p) in
      if fuzzyGreater Tb Tbest
      then rebuffer_best sta drvr_port Z' Tb (Some p)
      else rebuffer_best sta drvr_port Z' Tbest best
  end.

(** [rebuffer(const Pin *drvr_pin, LibertyCell *buffer_cell)].  The net of
    a top level port is the net of its term; both are [connections]. *)
Definition rebuffer (sta : Sta) (drvr_pin : Pin) (buffer_cell : LibertyCell)
    : M unit :=
  net <- gets (fun st => connections st !! drvr_pin);;
  let drvr_port :=
    if isTopLevelPort sta drvr_pin
    then (* Should use sdc external driver here. *)
         Some (snd (bufferPorts sta buffer_cell))
    else libertyPort sta drvr_pin in
  match net with
  | None => fail
  | Some net =>
      match makeSteinerTree sta net with
      | null_pt => fail
      | steiner_pt _ drvr_loc drvr_left _ =>
          let drvr_req := pinRequired sta drvr_pin in
          (* Make sure the driver is constrained. *)
          if negb (fuzzyInf drvr_req) then
            let Z := rebufferBottomUp sta drvr_left drvr_loc buffer_cell in
            match Z, drvr_port with
            | [], _ => ret tt
            | _ :: _, None => fail
            | _ :: _, Some drvr_port =>
                match rebuffer_best sta drvr_port Z (- INF) None with
                | Some best =>
                    insert_count <- rebufferTopDown sta best net buffer_cell;;
                    if (0 <? insert_count)%Z then
                      modify (fun st =>
                        set_inserted_buffer_count
                          (inserted_buffer_count_ st + insert_count)%Z st);;
                      modify (fun st =>
                        set_rebuffer_net_count (rebuffer_net_count_ st + 1)%Z st)
                    else ret tt
                | None => ret tt
                end
            end
          else ret tt
      end
  end.

(** ** Levelized vertices *)

(** [stringLess] is [strcmp(a, b) < 0]. *)
Definition stringLess (a b : string) : bool := String.ltb a b.

Definition VertexLevelLess (sta : Sta) (vertex1 vertex2 : Vertex) : bool :=
  let level1 := level vertex1 in
  let level2 := level vertex2 in
  (level1 <? level2)%Z
  || ((level1 =? level2)%Z
      (* Break ties for stable results. *)
      && stringLess (pathName sta (vertex_pin vertex1))
                    (pathName sta (vertex_pin vertex2))).

(** [sort(seq, less)] of the timing library is [std::sort]; a merge sort
    stands for it. *)
Definition sort (less : Vertex -> Vertex -> bool) (l : list Vertex) : list Vertex :=
  @merge_sort Vertex (fun v1 v2 => less v1 v2 = true)
    (fun v1 v2 => decide (less v1 v2 = true)) l.

Definition ensureLevelDrvrVerticies (sta : Sta) : M unit :=
  valid <- gets level_drvr_verticies_valid_;;
  if negb valid then
    let vertices :=
      fold_left (fun acc vertex => acc ++ [vertex]) (graph_vertices sta) [] in
    modify (set_level_drvr_verticies (sort (VertexLevelLess sta) vertices));;
    modify (set_level_drvr_verticies_valid true)
  else ret tt.

(** ** Resizing to the target slew *)

Fixpoint singleOutputPin_loop (sta : Sta) (pins : list Pin)
    (output : option Pin) : option Pin :=
  match pins with
  | [] => output
  | pin :: pins' =>
      if isOutput sta pin then
        match output with
        | Some _ => (* Already found one. *) None
        | None => singleOutputPin_loop sta pins' (Some pin)
        end
      else singleOutputPin_loop sta pins' output
  end.

Definition singleOutputPin (sta : Sta) (inst : Instance) : option Pin :=
  singleOutputPin_loop sta (instance_pins sta inst) None.

(** The entry of [target_cell] in [target_load_map_]; [operator[]] reads a
    missing key as 0. *)
Definition target_load (sta : Sta) (target_cell : LibertyCell) : Q :=
  default 0 (target_load_map_ sta !! cell_name target_cell).

(** The ratio of target load and load as the code computes it, folded:
    above 1 it is inverted.  [target_load / load_cap] is a division of
    floats; [ratio > 1.0] and [1.0 / ratio] are taken in double, the
    literals being doubles, and the quotient is rounded back to float. *)
Definition foldedRatio (target_load load_cap : Q) : float :=
  let ratio := fdiv (float_of_Q target_load) (float_of_Q load_cap) in
  if fgt (double_of_float ratio) (double_of_Q 1)
  then float_of_double (ddiv (double_of_Q 1) (double_of_float ratio))
  else ratio.

(** The distance of the same ratio from 1. *)
Definition ratioDeviation (target_load load_cap : Q) : Q :=
  Qabs (target_load / load_cap - 1).

(** The loop of [resizeToTargetSlew1] over the equivalent cells. *)
Fixpoint bestEquivCell (sta : Sta) (load_cap : Q)
    (equiv_cells : list LibertyCell) (best_ratio : float)
    (best_cell : option LibertyCell) : float * option LibertyCell :=
  match equiv_cells with
  | [] => (best_ratio, best_cell)
  | target_cell :: equiv_cells' =>
      let ratio := foldedRatio (target_load sta target_cell) load_cap in
      if fgt ratio best_ratio
      then bestEquivCell sta load_cap equiv_cells' ratio (Some target_cell)
      else bestEquivCell sta load_cap equiv_cells' best_ratio best_cell
  end.

Definition replaceCell (inst : Instance) (cell : string) : M unit :=
  modify (fun st =>
    set_instances
      (alter (fun d => {| inst_cell := cell; inst_location := inst_location d |})
         inst (instances st)) st).

Definition incr_resize_count : M unit :=
  modify (fun st => set_resize_count (resize_count_ st + 1)%Z st).

Definition resizeToTargetSlew1 (sta : Sta) (inst : Instance) : M unit :=
  data <- gets (fun st => instances st !! inst);;
  match data with
  | None => fail
  | Some data =>
      match findLibertyCell sta (inst_cell data) with
      | Some cell =>
          match singleOutputPin sta inst with
          (* Only resize single output gates for now. *)
          | Some output =>
              (* Includes net parasitic capacitance. *)
              let load_cap := loadCap sta output in
              match equivCells sta cell with
              | Some equiv_cells =>
                  match snd (bestEquivCell sta load_cap equiv_cells fzero None) with
                  | Some best_cell =>
                      if negb (String.eqb (cell_name best_cell) (cell_name cell))
                      then
                        if isLefCell sta (inst_cell data) then
                          (* Replace LEF with LEF so ports stay aligned. *)
                          match lefCell sta best_cell with
                          | Some best_lef =>
                              replaceCell inst best_lef;;
                              incr_resize_count
                          | None => ret tt
                          end
                        else
                          replaceCell inst (cell_name best_cell);;
                          incr_resize_count
                      else ret tt
                  | None => ret tt
                  end
              | None => ret tt
              end
          | None => ret tt
          end
      | None => ret tt
      end
  end.

(** ** Target loads *)

(** [cap_init] and [cap_tol] of [findTargetLoad]: the double literal
    [1.0e-12] stored in a float, and the double product [cap_init * .001]
    stored in a float. *)
Definition cap_init : float := float_of_double (double_of_Q 0.000000000001).
Definition cap_tol : float :=
  float_of_double (dmul (double_of_float cap_init) (double_of_Q 0.001)).

(** [cap_step /= 2.0] *)
Definition halve (cap_step : float) : float :=
  float_of_double (ddiv (double_of_float cap_step) (double_of_Q 2)).

(** The loop of [findTargetLoad]; [fuel] bounds the number of rounds,
    [None] when it runs out.  The gate model is consulted at input slew 0
    and the load [load_cap]; the slew it answers is a float. *)
Fixpoint findTargetLoad_loop (fuel : nat) (gate_model : GateTimingModel)
    (in_slew cap_tol load_cap cap_step : float) : option float :=
  match fuel with
  | O => None
  | S fuel' =>
      if fgt cap_step cap_tol then
        let '(arc_delay, arc_slew) := gate_model 0 (Q_of_float load_cap) in
        if fgt (float_of_Q arc_slew) in_slew then
          let load_cap := fsub load_cap cap_step in
          let cap_step := halve cap_step in
          findTargetLoad_loop fuel' gate_model in_slew cap_tol
            (fadd load_cap cap_step) cap_step
        else
          findTargetLoad_loop fuel' gate_model in_slew cap_tol
            (fadd load_cap cap_step) cap_step
      else Some load_cap
  end.

(** Find the load capacitance that will cause the output slew
    to be equal to in_slew. *)
Definition findTargetLoad (fuel : nat) (cell : LibertyCell) (arc : TimingArc)
    (in_slew : Q) : option float :=
  match model arc with
  | Some gate_model =>
      let load_cap := cap_init in
      let cap_step := cap_init in
      findTargetLoad_loop fuel gate_model (float_of_Q in_slew) cap_tol
        load_cap cap_step
  | None => Some fzero
  end.

(** ** A small design

    The inverter [u0] drives the loads [uA/A] and [uB/A] through the net
    [n1]; the Steiner tree of [n1] has one junction.  Numbers are plain
    rationals, chosen small. *)

Open Scope string_scope.

(** A gate model whose delay and slew grow linearly with the load. *)
Definition linear_model (k : Q) : GateTimingModel :=
  fun in_slew load_cap => (k * load_cap, k * load_cap).



Definition ex_arc (tr : TransRiseFall) (m : GateTimingModel) : TimingArc :=
  {| fromTrans := tr; toTrans := tr; model := Some m |}.

Definition ex_cell (name : string) (k : Q) : LibertyCell :=
  {| cell_name := name;
     timingArcSets :=
       [ {| arc_set_from := "A"; arc_set_to := "Z";
            arcs := [ex_arc rise (linear_model k); ex_arc fall (linear_model k)] |} ] |}.

Definition BUF : LibertyCell := ex_cell "BUF" 1.
Definition INV1 : LibertyCell := ex_cell "INV1" 4.
Definition INV2 : LibertyCell := ex_cell "INV2" 2.
Definition LOAD : LibertyCell := {| cell_name := "LOAD"; timingArcSets := [] |}.

Definition no_limit : MinMax -> Limit := fun _ => (0, false).

Definition ex_port (cell : LibertyCell) (name : string) (c : Q) : LibertyPort :=
  {| port_name := name; libertyCell := cell;
     capacitance := fun _ _ => c;
     capacitanceLimit := no_limit;
     port_slewLimit := no_limit |}.

Definition drvr : Pin := ("u0", "Z").
Definition loadA : Pin := ("uA", "A").
Definition loadB : Pin := ("uB", "A").

Definition pin_eqb (a b : Pin) : bool := bool_decide (a = b).

Definition ex_vertex (p : Pin) (l : Z) : Vertex := {| vertex_pin := p; level := l |}.

Definition ex_path (r : Q) : Path := {| path_minMax := MinMax_max; path_required := r |}.

(** The Steiner tree of [n1]: the driver point, one junction below it and
    the two loads below the junction, all at the origin, so that the wires
    of the tree have length 0. *)
Definition ex_sinkA : SteinerPt := steiner_pt (Some loadA) (0, 0)%Z null_pt null_pt.
Definition ex_sinkB : SteinerPt := steiner_pt (Some loadB) (0, 0)%Z null_pt null_pt.
Definition ex_junction : SteinerPt := steiner_pt None (0, 0)%Z ex_sinkA ex_sinkB.
Definition ex_tree : SteinerPt := steiner_pt (Some drvr) (0, 0)%Z ex_junction null_pt.

(** The design, with the slew seen at every vertex and the timing paths
    through the driver left open. *)
Definition ex_sta (slew : Q) (drvr_paths : list Path) : Sta := {|
  libertyPort := fun p =>
    if pin_eqb p drvr then Some (ex_port INV1 "Z" 0)
    else if pin_eqb p loadA then Some (ex_port LOAD "A" 1)
    else if pin_eqb p loadB then Some (ex_port LOAD "A" 10)
    else None;
  isTopLevelPort := fun _ => false;
  isLoad := fun p => pin_eqb p loadA || pin_eqb p loadB;
  isDriver := fun p => pin_eqb p drvr;
  pathName := fun p => fst p +:+ "/" +:+ snd p;
  instance_pins := fun inst => if String.eqb inst "u0" then [("u0", "A"); drvr] else [];
  isOutput := fun p => pin_eqb p drvr;
  findLibertyCell := fun name =>
    if String.eqb name "INV1" then Some INV1
    else if String.eqb name "INV2" then Some INV2
    else None;
  equivCells := fun cell =>
    if String.eqb (cell_name cell) "INV1" || String.eqb (cell_name cell) "INV2"
    then Some [INV1; INV2] else None;
  isLefCell := fun _ => false;
  lefCell := fun _ => None;
  bufferPorts := fun cell => (ex_port cell "A" 2, ex_port cell "Z" 0);
  dbuToMeters := fun dbu => inject_Z dbu;
  sdc_slewLimit_cell := no_limit;
  sdc_slewLimit_port := fun _ => no_limit;
  sdc_slewLimit_pin := fun _ => no_limit;
  graph_vertices := [ex_vertex loadB 1; ex_vertex drvr 0; ex_vertex loadA 1];
  pinDrvrVertex := fun p => ex_vertex p 0;
  pinLoadVertex := fun p => ex_vertex p (if pin_eqb p drvr then 0 else 1);
  graph_slew := fun _ _ => slew;
  vertex_paths := fun v =>
    if pin_eqb (vertex_pin v) loadA then [ex_path 100]
    else if pin_eqb (vertex_pin v) loadB then [ex_path 1000]
    else drvr_paths;
  isClock := fun _ => false;
  loadCap := fun _ => 10;
  arc_delay_calc_gateDelay := fun cell arc in_slew load_cap =>
    match model arc with
    | Some m => m in_slew load_cap
    | None => (0, 0)
    end;
  makeSteinerTree := fun _ => ex_tree;
  wire_res_ := 1;
  wire_cap_ := 1;
  target_load_map_ := {[ "INV1" := 6; "INV2" := 15 ]};
  tgt_slews_ := fun _ => 0
|}.

Definition ex_design : Sta := ex_sta 1 [ex_path 50].

(** The same design with no timing path through the driver. *)
Definition ex_unconstrained : Sta := ex_sta 1 [].

Definition ex_inst (cell : string) : InstanceData :=
  {| inst_cell := cell; inst_location := Some (0, 0)%Z |}.

Definition ex_resizer : Resizer := {|
  nets := {[ "n1" ]};
  instances := {[ "u0" := ex_inst "INV1"; "uA" := ex_inst "LOAD"; "uB" := ex_inst "LOAD" ]};
  connections := {[ drvr := "n1"; loadA := "n1"; loadB := "n1" ]};
  parasitic_networks := [];
  level_drvr_verticies_ := [];
  level_drvr_verticies_valid_ := false;
  resize_count_ := 0;
  inserted_buffer_count_ := 0;
  rebuffer_net_count_ := 0;
  unique_net_index_ := 1;
  unique_buffer_index_ := 1
|}.

(** The resizer after [u0] was resized from [INV1] to [INV2]. *)
Definition ex_resized : Resizer :=
  set_resize_count 1
    (set_instances (<[ "u0" := ex_inst "INV2" ]> (instances ex_resizer)) ex_resizer).

(** The sink option of [uA/A] seen from a point one unit away. *)
Definition ex_sink_option : RebufferOption := sinkOption ex_design loadA (1, 0)%Z.

Close Scope string_scope.

(** ** Walking an option top-down *)

(** The buffer options on the way [rebufferTopDown] takes through
    [choice]: one for a buffer option and those below its [ref], those of
    both branches of a junction. *)
Fixpoint insertedBuffers (choice : RebufferOption) : nat :=
  match choice with
  | mkRebufferOption buffer _ _ _ _ o1 _ =>
      S (match o1 with Some o1 => insertedBuffers o1 | None => 0 end)
  | mkRebufferOption wire _ _ _ _ o1 _ =>
      match o1 with Some o1 => insertedBuffers o1 | None => 0 end
  | mkRebufferOption junction _ _ _ _ o1 o2 =>
      match o1 with Some o1 => insertedBuffers o1 | None => 0 end
      + match o2 with Some o2 => insertedBuffers o2 | None => 0 end
  | mkRebufferOption sink _ _ _ _ _ _ => 0
  end.

(** The pointers [rebufferTopDown] follows from [choice] are not null:
    the load pin of a sink, [ref] of a wire or a buffer, [ref] and [ref2]
    of a junction. *)
Fixpoint wellFormed (choice : RebufferOption) : bool :=
  match choice with
  | mkRebufferOption sink _ _ load_pin _ _ _ => bool_decide (is_Some load_pin)
  | mkRebufferOption junction _ _ _ _ o1 o2 =>
      match o1 with Some o1 => wellFormed o1 | None => false end
      && match o2 with Some o2 => wellFormed o2 | None => false end
  | mkRebufferOption _ _ _ _ _ o1 _ =>
      match o1 with Some o1 => wellFormed o1 | None => false end
  end.

(** What a walk of [rebufferTopDown] through [choice] that returns the
    count [n] makes of the resizer [st]: as many nets and instances more
    as there are buffer options on the way, what was there is kept, and the
    counters of the passes and the levelized list are not touched. *)
Definition topDownKeeps (choice : RebufferOption) (n : Z) (st st' : Resizer)
    : Prop :=
  size (nets st') = (size (nets st) + insertedBuffers choice)%nat
  /\ size (instances st') = (size (instances st) + insertedBuffers choice)%nat
  /\ nets st ⊆ nets st'
  /\ (forall i d, instances st !! i = Some d -> instances st' !! i = Some d)
  /\ dom (connections st) ⊆ dom (connections st')
  /\ (0 <= n <= Z.of_nat (insertedBuffers choice))%Z
  /\ (n = 0%Z <-> insertedBuffers choice = 0%nat)
  /\ resize_count_ st' = resize_count_ st
  /\ inserted_buffer_count_ st' = inserted_buffer_count_ st
  /\ rebuffer_net_count_ st' = rebuffer_net_count_ st
  /\ level_drvr_verticies_ st' = level_drvr_verticies_ st
  /\ (unique_net_index_ st <= unique_net_index_ st')%Z
  /\ (unique_buffer_index_ st <= unique_buffer_index_ st')%Z.

(** ** The passes

    The passes ask the network, the timing graph and the delay calculators
    again after every change; [sta_of st] is what they answer when the
    resizer is in the state [st]. *)

Definition init (sta_of : Resizer -> Sta) : M unit :=
  sta <- gets sta_of;;
  ensureLevelDrvrVerticies sta;;
  modify (set_resize_count 0%Z);;
  modify (set_inserted_buffer_count 0%Z);;
  modify (set_rebuffer_net_count 0%Z).

(** The loop of [resizeToTargetSlew()] over the vertices, last first. *)
Fixpoint resizeToTargetSlew_loop (sta_of : Resizer -> Sta)
    (vertices : list Vertex) : M unit :=
  match vertices with
  | [] => ret tt
  | vertex :: vertices' =>
      let drvr_pin := vertex_pin vertex in
      let inst := fst drvr_pin in
      sta <- gets sta_of;;
      resizeToTargetSlew1 sta inst;;
      resizeToTargetSlew_loop sta_of vertices'
  end.

(** Resize in reverse level order. *)
Definition resizeToTargetSlew (sta_of : Resizer -> Sta) : M unit :=
  vertices <- gets level_drvr_verticies_;;
  resizeToTargetSlew_loop sta_of (rev vertices).

(** The loop of [rebuffer(repair_max_cap, repair_max_slew, buffer_cell)]
    over the vertices, last first. *)
Fixpoint rebuffer_loop (sta_of : Resizer -> Sta)
    (repair_max_cap repair_max_slew : bool) (buffer_cell : LibertyCell)
    (vertices : list Vertex) : M unit :=
  match vertices with
  | [] => ret tt
  | vertex :: vertices' =>
      sta <- gets sta_of;;
      (* Hands off the clock tree. *)
      (if negb (isClock sta vertex) then
         let drvr_pin := vertex_pin vertex in
         if (repair_max_cap && hasMaxCapViolation sta drvr_pin)
            || (repair_max_slew && hasMaxSlewViolation sta drvr_pin)
         then rebuffer sta drvr_pin buffer_cell
         else ret tt
       else ret tt);;
      rebuffer_loop sta_of repair_max_cap repair_max_slew buffer_cell vertices'
  end.

(** Rebuffer in reverse level order. *)
Definition rebuffer_pass (sta_of : Resizer -> Sta)
    (repair_max_cap repair_max_slew : bool) (buffer_cell : LibertyCell) : M unit :=
  vertices <- gets level_drvr_verticies_;;
  rebuffer_loop sta_of repair_max_cap repair_max_slew buffer_cell (rev vertices).

(** The line feed that ends a line of the report. *)
Definition newline : string := String (Ascii.ascii_of_nat 10) EmptyString.

(** [resize(resize, repair_max_cap, repair_max_slew, buffer_cell)]; the
    result is what is printed on the report. *)
Definition resize (sta_of : Resizer -> Sta)
    (resize_ repair_max_cap repair_max_slew : bool) (buffer_cell : LibertyCell)
    : M (list string) :=
  init sta_of;;
  report1 <-
    (if resize_ then
       resizeToTargetSlew sta_of;;
       count <- gets resize_count_;;
       ret ["Resized " +:+ pretty count +:+ " instances." +:+ newline]%string
     else ret []);;
  report2 <-
    (if repair_max_cap || repair_max_slew then
       rebuffer_pass sta_of repair_max_cap repair_max_slew buffer_cell;;
       buffers <- gets inserted_buffer_count_;;
       nets_ <- gets rebuffer_net_count_;;
       ret ["Inserted " +:+ pretty buffers +:+ " buffers in "
            +:+ pretty nets_ +:+ " nets." +:+ newline]%string
     else ret []);;
  ret (report1 ++ report2).

(** What rebuffering makes of the resizer [st]: [made] buffer instances
    and as many nets more, nothing removed, the inserted buffer count grown
    by at most [made] and the rebuffered net count by at most as much as
    the inserted buffer count. *)
Definition rebufferKeeps (st st' : Resizer) : Prop :=
  exists made : nat,
    size (instances st') = (size (instances st) + made)%nat
    /\ size (nets st') = (size (nets st) + made)%nat
    /\ (inserted_buffer_count_ st <= inserted_buffer_count_ st'
        <= inserted_buffer_count_ st + Z.of_nat made)%Z
    /\ (0 <= rebuffer_net_count_ st' - rebuffer_net_count_ st
        <= inserted_buffer_count_ st' - inserted_buffer_count_ st)%Z
    /\ resize_count_ st' = resize_count_ st
    /\ level_drvr_verticies_ st' = level_drvr_verticies_ st
    /\ nets st ⊆ nets st'
    /\ (forall i d, instances st !! i = Some d -> instances st' !! i = Some d)
    /\ dom (connections st) ⊆ dom (connections st').

(** What the resize pass makes of the resizer [st]: at most [n] instances
    have another cell, and nothing else of the network changes. *)
Definition resizeKeeps (n : nat) (st st' : Resizer) : Prop :=
  nets st' = nets st
  /\ connections st' = connections st
  /\ dom (instances st') = dom (instances st)
  /\ (forall i, (inst_location <$> instances st' !! i)
               = (inst_location <$> instances st !! i))
  /\ (resize_count_ st <= resize_count_ st' <= resize_count_ st + Z.of_nat n)%Z
  /\ inserted_buffer_count_ st' = inserted_buffer_count_ st
  /\ rebuffer_net_count_ st' = rebuffer_net_count_ st
  /\ level_drvr_verticies_ st' = level_drvr_verticies_ st.

(** ** Command line and start-up *)

(** [arg[0] == '-'] *)
Definition is_flag (arg : string) : bool :=
  match arg with
  | String c _ => Ascii.eqb c "-"%char
  | EmptyString => false
  end.

(** The loop of [findCmdLineArg] from [argv[1]] on; [a] counts the
    arguments met that are no flags. *)
Fixpoint findCmdLineArg_loop (args : list string) (arg_index a : Z)
    : option string :=
  match args with
  | [] => None
  | arg :: args' =>
      if negb (is_flag arg) then
        if (a =? arg_index)%Z then Some arg
        else findCmdLineArg_loop args' arg_index (a + 1)%Z
      else findCmdLineArg_loop args' arg_index a
  end.

Definition findCmdLineArg (argv : list string) (arg_index : Z) : option string :=
  findCmdLineArg_loop (tail argv) arg_index 0%Z.

(** [s.find_last_of(c)]: the position of the last [c] in [s]. *)
Fixpoint find_last_of (s : string) (c : Ascii.ascii) : option nat :=
  match s with
  | EmptyString => None
  | String a s' =>
      match find_last_of s' c with
      | Some pos => Some (S pos)
      | None => if Ascii.eqb a c then Some O else None
      end
  end.

(** [s.erase(pos)]: what is in front of position [pos]. *)
Definition erase (s : string) (pos : nat) : string := String.substring 0 pos s.

(** [initFlute]: the directory whose tables [readFluteInits] could read,
    [None] when the resizer gives up ([exit(EXIT_FAILURE)]). *)
Definition initFlute (readFluteInits : string -> bool) (resizer_path : string)
    : option string :=
  let resizer_dir := resizer_path in
  (* try ../etc *)
  let parent := if readFluteInits ".."%string then Some ".."%string else None in
  (* One directory level up from /bin or /build to find /etc. *)
  match find_last_of resizer_dir "/"%char with
  | Some last_slash =>
      let resizer_dir := erase resizer_dir last_slash in
      match find_last_of resizer_dir "/"%char with
      | Some last_slash =>
          let resizer_dir := erase resizer_dir last_slash in
          if readFluteInits resizer_dir then Some resizer_dir else parent
      | None =>
          (* try ./etc2 *)
          let resizer_dir := "."%string in
          if readFluteInits resizer_dir then Some resizer_dir else parent
      end
  | None => parent
  end.

(** ** More of the small design *)

(** [ex_design] with a max slew limit of 1/2 on every pin and of 3/4 on
    the design. *)
Definition ex_limited : Sta := {|
  libertyPort := libertyPort ex_design;
  isTopLevelPort := isTopLevelPort ex_design;
  isLoad := isLoad ex_design;
  isDriver := isDriver ex_design;
  pathName := pathName ex_design;
  instance_pins := instance_pins ex_design;
  isOutput := isOutput ex_design;
  findLibertyCell := findLibertyCell ex_design;
  equivCells := equivCells ex_design;
  isLefCell := isLefCell ex_design;
  lefCell := lefCell ex_design;
  bufferPorts := bufferPorts ex_design;
  dbuToMeters := dbuToMeters ex_design;
  sdc_slewLimit_cell := fun _ => (3 # 4, true);
  sdc_slewLimit_port := sdc_slewLimit_port ex_design;
  sdc_slewLimit_pin := fun _ _ => (1 # 2, true);
  graph_vertices := graph_vertices ex_design;
  pinDrvrVertex := pinDrvrVertex ex_design;
  pinLoadVertex := pinLoadVertex ex_design;
  graph_slew := graph_slew ex_design;
  vertex_paths := vertex_paths ex_design;
  isClock := isClock ex_design;
  loadCap := loadCap ex_design;
  arc_delay_calc_gateDelay := arc_delay_calc_gateDelay ex_design;
  makeSteinerTree := makeSteinerTree ex_design;
  wire_res_ := wire_res_ ex_design;
  wire_cap_ := wire_cap_ ex_design;
  target_load_map_ := target_load_map_ ex_design;
  tgt_slews_ := tgt_slews_ ex_design
|}.

(** ** Target loads of a library *)

(** The loop of [findTargetLoads(library)] over the arcs of an arc set. *)
Fixpoint findTargetLoads_arcs (sta : Sta) (fuel : nat) (cell : LibertyCell)
    (arcs : list TimingArc) (target_load_sum : float) (arc_count : Z)
    : option (float * Z) :=
  match arcs with
  | [] => Some (target_load_sum, arc_count)
  | arc :: arcs' =>
      let in_tr := fromTrans arc in
      match findTargetLoad fuel cell arc (tgt_slews_ sta in_tr) with
      | Some arc_target_load =>
          findTargetLoads_arcs sta fuel cell arcs'
            (fadd target_load_sum arc_target_load) (arc_count + 1)%Z
      | None => None
      end
  end.

(** The loop over the arc sets of a cell.  [skipped arc_set] is what the
    role of the arc set answers: it is a timing check, tristate disable or
    tristate enable. *)
Fixpoint findTargetLoads_sets (sta : Sta) (fuel : nat)
    (skipped : TimingArcSet -> bool) (cell : LibertyCell)
    (arc_sets : list TimingArcSet) (target_load_sum : float) (arc_count : Z)
    : option (float * Z) :=
  match arc_sets with
  | [] => Some (target_load_sum, arc_count)
  | arc_set :: arc_sets' =>
      if negb (skipped arc_set) then
        match findTargetLoads_arcs sta fuel cell (arcs arc_set)
                target_load_sum arc_count with
        | Some (target_load_sum, arc_count) =>
            findTargetLoads_sets sta fuel skipped cell arc_sets'
              target_load_sum arc_count
        | None => None
        end
      else
        findTargetLoads_sets sta fuel skipped cell arc_sets'
          target_load_sum arc_count
  end.

(** The target load of one cell: the mean of the target loads of its
    arcs, the float sum divided by the count. *)
Definition findTargetLoads_cell (sta : Sta) (fuel : nat)
    (skipped : TimingArcSet -> bool) (cell : LibertyCell) : option float :=
  match findTargetLoads_sets sta fuel skipped cell (timingArcSets cell)
          fzero 0%Z with
  | Some (target_load_sum, arc_count) =>
      Some (if (0 <? arc_count)%Z
            then fdiv target_load_sum (float_of_int arc_count)
            else fzero)
  | None => None
  end.

(** [findTargetLoads(library)]: the cells of the library enter the map in
    the order of the iterator, each under its name. *)
Fixpoint findTargetLoads (sta : Sta) (fuel : nat)
    (skipped : TimingArcSet -> bool) (library : list LibertyCell)
    (target_load_map : gmap string float) : option (gmap string float) :=
  match library with
  | [] => Some target_load_map
  | cell :: library' =>
      match findTargetLoads_cell sta fuel skipped cell with
      | Some target_load =>
          findTargetLoads sta fuel skipped library'
            (<[cell_name cell := target_load]> target_load_map)
      | None => None
      end
  end.

(** ** Notions the properties are stated with *)

(** An argument of the command line that is no flag. *)
Definition is_arg (arg : string) : bool := negb (is_flag arg).

Definition no_slash (s : string) : Prop :=
  ~ In "/"%char (list_ascii_of_string s).

(** The delays of the timing arcs into [out_port] that [gateDelay] looks
    at, in the order of the iterators. *)
Definition arcDelays (sta : Sta) (out_port : LibertyPort) (load_cap : Q) : list Q :=
  let cell := libertyCell out_port in
  arc_set ← timingArcSets cell;
  if String.eqb (arc_set_to arc_set) (port_name out_port) then
    arc ← arcs arc_set;
    [fst (arc_delay_calc_gateDelay sta cell arc
            (tgt_slews_ sta (fromTrans arc)) load_cap)]
  else [].

(** [Tb] of [rebuffer]: the required time at the driver when it drives the
    option [p]. *)
Definition driverRequired (sta : Sta) (drvr_port : LibertyPort)
    (p : RebufferOption) : Q :=
  required p - gateDelay sta drvr_port (cap p).

(** The entries of the vector of [prune] that are not cleared. *)
Definition live (Z2 : list (option RebufferOption)) : list RebufferOption :=
  omap id Z2.

(** The test of the inner loop of [prune]: [q] is worse than the option
    with required time [Tp] and capacitance [Lp]. *)
Definition worse (sta : Sta) (buffer_cell : LibertyCell) (Tp Lp : Q)
    (q : RebufferOption) : bool :=
  fuzzyLess (bufferRequired sta buffer_cell q) Tp && fuzzyGreater (cap q) Lp.

(** Every branch below [k] ends in a load pin: no descendant is the null
    point and every pin is a load. *)
Fixpoint reachesLoads (sta : Sta) (k : SteinerPt) : bool :=
  match k with
  | null_pt => false
  | steiner_pt (Some pin) _ _ _ => isLoad sta pin
  | steiner_pt None _ k_left k_right =>
      reachesLoads sta k_left && reachesLoads sta k_right
  end.

(** [vertex1] may stand in front of [vertex2]: its level is lower, or the
    levels are equal and its path name is not the greater one. *)
Definition levelOrdered (sta : Sta) (vertex1 vertex2 : Vertex) : Prop :=
  (level vertex1 < level vertex2)%Z
  \/ (level vertex1 = level vertex2
      /\ String.leb (pathName sta (vertex_pin vertex1))
           (pathName sta (vertex_pin vertex2)) = true).

(** The arcs of [cell] that [findTargetLoads] counts. *)
Definition countedArcs (skipped : TimingArcSet -> bool) (cell : LibertyCell)
    : list TimingArc :=
  arc_set ← timingArcSets cell;
  if skipped arc_set then [] else arcs arc_set.

(** Capacitances, wire parasitics and buffer delays are not negative. *)
Definition physical (sta : Sta) (buffer_cell : LibertyCell) : Prop :=
  (forall pin, 0 <= pinCapacitance sta pin)
  /\ 0 <= bufferInputCapacitance sta buffer_cell
  /\ 0 <= wire_cap_ sta
  /\ 0 <= wire_res_ sta
  /\ (forall dbu, (0 <= dbu)%Z -> 0 <= dbuToMeters sta dbu)
  /\ (forall load_cap, 0 <= load_cap -> 0 <= bufferDelay sta buffer_cell load_cap).

(** * Properties *)

(** ** Comparisons of rationals *)

Lemma Qgt_bool_iff a b : Qgt_bool a b = true <-> b < a.
Proof.
  unfold Qgt_bool. rewrite negb_true_iff.
  destruct (Qle_bool a b) eqn:E.
  - apply Qle_bool_iff in E. split; [discriminate | intros H; lra].
  - split; [intros _ | reflexivity].
    destruct (Qlt_le_dec b a) as [H | H]; [exact H |].
    apply Qle_bool_iff in H. congruence.
Qed.

Lemma Qlt_bool_iff a b : Qlt_bool a b = true <-> a < b.
Proof. unfold Qlt_bool. apply (Qgt_bool_iff b a). Qed.

Lemma Qgt_bool_false_iff a b : Qgt_bool a b = false <-> a <= b.
Proof.
  unfold Qgt_bool. rewrite negb_false_iff. apply Qle_bool_iff.
Qed.

Lemma Qlt_bool_false_iff a b : Qlt_bool a b = false <-> b <= a.
Proof. unfold Qlt_bool. apply (Qgt_bool_false_iff b a). Qed.

(** ** The fuzzy comparator *)

Lemma fuzzyGreater_gt a b : fuzzyGreater a b = true -> b < a.
Proof.
  unfold fuzzyGreater. rewrite andb_true_iff, Qgt_bool_iff. tauto.
Qed.

Lemma fuzzyGreater_irrefl a : fuzzyGreater a a = false.
Proof.
  destruct (fuzzyGreater a a) eqn:E; [| reflexivity].
  apply fuzzyGreater_gt in E. lra.
Qed.

Lemma fuzzyGreater_asym a b : fuzzyGreater a b = true -> fuzzyGreater b a = false.
Proof.
  intros H. destruct (fuzzyGreater b a) eqn:E; [| reflexivity].
  apply fuzzyGreater_gt in H, E. lra.
Qed.

Lemma fuzzyGreater_apart a b :
  fuzzyGreater a b = true <-> b < a /\ apart a b.
Proof.
  unfold fuzzyGreater, fuzzyEqual, apart.
  rewrite andb_true_iff, Qgt_bool_iff, negb_true_iff.
  destruct (Qeq_bool a b) eqn:Eab.
  { apply Qeq_bool_iff in Eab. split; [intros [_ H]; discriminate | intros [H _]; lra]. }
  destruct (Qeq_bool a 0) eqn:Ea.
  { apply Qeq_bool_iff in Ea. rewrite Qlt_bool_false_iff.
    split; [intros [H1 H2] | intros [H1 (H2 & _)]]; repeat split; auto; tauto. }
  assert (Ha : ~ a == 0) by (intros H; apply Qeq_bool_iff in H; congruence).
  destruct (Qeq_bool b 0) eqn:Eb.
  { apply Qeq_bool_iff in Eb. rewrite Qlt_bool_false_iff.
    split; [intros [H1 H2] | intros [H1 (_ & H2 & _)]]; repeat split; auto; tauto. }
  assert (Hb : ~ b == 0) by (intros H; apply Qeq_bool_iff in H; congruence).
  rewrite Qlt_bool_false_iff.
  split; [intros [H1 H2] | intros [H1 (_ & _ & H2)]]; repeat split; auto; tauto.
Qed.

Lemma Qmax_le_sum x y : 0 <= x -> 0 <= y -> Qmax x y <= x + y.
Proof.
  intros Hx Hy. destruct (Q.max_spec x y) as [[_ ->] | [_ ->]]; lra.
Qed.

Lemma fuzzyGreater_trans a b c :
  fuzzyGreater a b = true -> fuzzyGreater b c = true -> fuzzyGreater a c = true.
Proof.
  rewrite !fuzzyGreater_apart. unfold apart, float_equal_tolerance.
  intros [Hab (A1 & A2 & A3)] [Hbc (B1 & B2 & B3)].
  split; [lra |].
  pose proof (Qabs_nonneg a) as Na. pose proof (Qabs_nonneg b) as Nb.
  pose proof (Qabs_nonneg c) as Nc.
  assert (Eab : Qabs (a - b) == a - b) by (apply Qabs_pos; lra).
  assert (Ebc : Qabs (b - c) == b - c) by (apply Qabs_pos; lra).
  assert (Eac : Qabs (a - c) == a - c) by (apply Qabs_pos; lra).
  pose proof (Qmax_le_sum _ _ Na Nc) as Mac.
  pose proof (Q.le_max_l (Qabs a) (Qabs b)) as Mab.
  pose proof (Q.le_max_r (Qabs b) (Qabs c)) as Mbc.
  pose proof (Q.le_max_l (Qabs a) (Qabs c)) as Mac'.
  split; [| split].
  - intros Za. specialize (A1 Za).
    assert (Eb : Qabs b == - b) by (apply Qabs_neg; lra).
    assert (Ec : Qabs c == - c) by (apply Qabs_neg; lra).
    lra.
  - intros Za Zc.
    assert (Zb : ~ b == 0) by lra.
    specialize (B2 Zb Zc).
    assert (Eb : Qabs b == b) by (apply Qabs_pos; lra).
    assert (Ea : Qabs a == a) by (apply Qabs_pos; lra).
    lra.
  - intros Za Zc. destruct (Qeq_dec b 0) as [Zb | Zb].
    + assert (Ea : Qabs a == a) by (apply Qabs_pos; lra).
      assert (Ec : Qabs c == - c) by (apply Qabs_neg; lra).
      lra.
    + specialize (A3 Za Zb). specialize (B3 Zb Zc). lra.
Qed.

(** ** Violation detector *)

(** C8.  [hasMaxCapViolation] reports a violation exactly when the pin has a
    liberty port, the port declares a max capacitance limit, and the load
    capacitance at the pin exceeds the limit.  A pin without liberty port
    or without declared limit never reports one. *)
Theorem hasMaxCapViolation_iff (sta : Sta) (drvr_pin : Pin) :
  hasMaxCapViolation sta drvr_pin = true <->
  exists port cap_limit,
    libertyPort sta drvr_pin = Some port
    /\ capacitanceLimit port MinMax_max = (cap_limit, true)
    /\ cap_limit < loadCap sta drvr_pin.
Proof.
  unfold hasMaxCapViolation.
  destruct (libertyPort sta drvr_pin) as [port |].
  - destruct (capacitanceLimit port MinMax_max) as [cap_limit exists_] eqn:E.
    rewrite andb_true_iff, Qgt_bool_iff. split.
    + intros [-> Hgt]. exists port, cap_limit. auto.
    + intros (port' & limit' & Hport & Hlimit & Hgt).
      injection Hport as <-. rewrite E in Hlimit.
      injection Hlimit as <- ->. auto.
  - split; [discriminate |].
    intros (port & _ & Hport & _). discriminate.
Qed.

Lemma hasMaxCapViolation_no_port (sta : Sta) (drvr_pin : Pin) :
  libertyPort sta drvr_pin = None -> hasMaxCapViolation sta drvr_pin = false.
Proof. unfold hasMaxCapViolation. intros ->. reflexivity. Qed.

Lemma hasMaxCapViolation_no_limit (sta : Sta) (drvr_pin : Pin) port :
  libertyPort sta drvr_pin = Some port ->
  snd (capacitanceLimit port MinMax_max) = false ->
  hasMaxCapViolation sta drvr_pin = false.
Proof.
  unfold hasMaxCapViolation. intros ->.
  destruct (capacitanceLimit port MinMax_max) as [cap_limit exists_].
  simpl. intros ->. reflexivity.
Qed.

(** What [hasMaxSlewViolation] computes: the slew of the rise or of the
    fall transition exceeds the value [slewLimit] hands back, whether or
    not a limit exists. *)
Lemma hasMaxSlewViolation_spec (sta : Sta) (drvr_pin : Pin) :
  hasMaxSlewViolation sta drvr_pin = true <->
  exists tr,
    fst (slewLimit sta drvr_pin tr MinMax_max)
    < graph_slew sta (pinDrvrVertex sta drvr_pin) tr.
Proof.
  unfold hasMaxSlewViolation, TransRiseFall_range. simpl.
  destruct (slewLimit sta drvr_pin rise MinMax_max) as [l1 e1] eqn:E1.
  destruct (slewLimit sta drvr_pin fall MinMax_max) as [l2 e2] eqn:E2.
  destruct (Qgt_bool (graph_slew sta (pinDrvrVertex sta drvr_pin) rise) l1) eqn:G1.
  - split; [intros _ | reflexivity].
    exists rise. rewrite E1. simpl. now apply Qgt_bool_iff.
  - destruct (Qgt_bool (graph_slew sta (pinDrvrVertex sta drvr_pin) fall) l2) eqn:G2.
    + split; [intros _ | reflexivity].
      exists fall. rewrite E2. simpl. now apply Qgt_bool_iff.
    + split; [discriminate |].
      apply Qgt_bool_false_iff in G1, G2.
      intros [[] H]; [rewrite E1 in H | rewrite E2 in H]; simpl in H; lra.
Qed.

Lemma tighten_step (acc new_limit : Limit) :
  let r := tighten MinMax_max acc new_limit in
  snd r = snd acc || snd new_limit
  /\ (snd acc = true -> fst r <= fst acc)
  /\ (snd new_limit = true -> fst r <= fst new_limit)
  /\ ((snd acc = true /\ fst r = fst acc)
      \/ (snd new_limit = true /\ fst r = fst new_limit)
      \/ (snd r = false)).
Proof.
  destruct acc as [l e], new_limit as [n ne]. unfold tighten. simpl.
  destruct ne, e; simpl;
    try (destruct (Qgt_bool l n) eqn:G; simpl;
         [apply Qgt_bool_iff in G | apply Qgt_bool_false_iff in G]);
    repeat split; try (intros; lra); try discriminate; auto.
Qed.

Lemma tighten_max_spec (limits : list Limit) :
  forall acc : Limit,
    let r := fold_left (tighten MinMax_max) limits acc in
    snd r = snd acc || existsb snd limits
    /\ (snd r = true ->
        (snd acc = true -> fst r <= fst acc)
        /\ (forall v, (v, true) ∈ limits -> fst r <= v)
        /\ ((snd acc = true /\ fst r = fst acc) \/ (fst r, true) ∈ limits)).
Proof.
  induction limits as [| new_limit limits IH]; intros acc; cbn [fold_left existsb].
  - cbv zeta. rewrite orb_false_r. split; [reflexivity |]. intros Hacc.
    split; [intros _; lra |]. split; [intros v Hv; inversion Hv | now left].
  - destruct (IH (tighten MinMax_max acc new_limit)) as [Hex Hrest].
    destruct (tighten_step acc new_limit) as (Hs1 & Hs2 & Hs3 & Hs4).
    cbv zeta in *.
    set (a := tighten MinMax_max acc new_limit) in *.
    set (r := fold_left (tighten MinMax_max) limits a) in *.
    split; [rewrite Hex, Hs1; now rewrite orb_assoc |].
    intros Hr. destruct (Hrest Hr) as (I1 & I2 & I3).
    split; [| split].
    + intros Hacc.
      assert (Ha : snd a = true) by (rewrite Hs1, Hacc; reflexivity).
      specialize (I1 Ha). specialize (Hs2 Hacc). lra.
    + intros v Hv. apply elem_of_cons in Hv as [Hv | Hv]; [| auto].
      assert (Hn : snd new_limit = true) by (rewrite <- Hv; reflexivity).
      assert (Ha : snd a = true) by (rewrite Hs1, Hn; apply orb_true_r).
      specialize (I1 Ha). specialize (Hs3 Hn). rewrite <- Hv in Hs3.
      simpl in Hs3. lra.
    + destruct I3 as [[Ha Hra] | Hin]; [| right; now right].
      rewrite Hra. destruct Hs4 as [[Hacc Hl] | [[Hn Hl] | Hfalse]].
      * left. auto.
      * right. rewrite Hl. destruct new_limit as [n ne]. simpl in *.
        subst ne. left.
      * congruence.
Qed.

(** [slewLimit] finds a limit exactly when one of the limits it consults
    exists, and then hands back the smallest of those that exist. *)
Lemma slewLimit_tightest (sta : Sta) (pin : Pin) (tr : TransRiseFall) :
  let r := slewLimit sta pin tr MinMax_max in
  snd r = existsb snd (consultedLimits sta pin MinMax_max)
  /\ (snd r = true ->
      (forall v, (v, true) ∈ consultedLimits sta pin MinMax_max -> fst r <= v)
      /\ (fst r, true) ∈ consultedLimits sta pin MinMax_max).
Proof.
  assert (Hfold : exists rest,
             consultedLimits sta pin MinMax_max
             = sdc_slewLimit_cell sta MinMax_max :: rest
             /\ slewLimit sta pin tr MinMax_max
                = fold_left (tighten MinMax_max) rest
                    (sdc_slewLimit_cell sta MinMax_max)).
  { unfold slewLimit, consultedLimits.
    destruct (sdc_slewLimit_cell sta MinMax_max) as [top_limit top_exists].
    destruct (isTopLevelPort sta pin); [eexists; split; reflexivity |].
    destruct (libertyPort sta pin); eexists; split; reflexivity. }
  destruct Hfold as (rest & -> & ->). cbv zeta.
  destruct (tighten_max_spec rest (sdc_slewLimit_cell sta MinMax_max))
    as [Hex Hrest].
  cbv zeta in Hex, Hrest. split; [exact Hex |].
  intros Hr. destruct (Hrest Hr) as (H1 & H2 & H3).
  destruct (sdc_slewLimit_cell sta MinMax_max) as [l e] eqn:El. simpl in *.
  split.
  - intros v Hv. apply elem_of_cons in Hv as [[= -> <-] | Hv]; auto.
  - destruct H3 as [[-> ->] | Hin]; [left | now right].
Qed.

(** ** Levelized vertices *)

Lemma collect_vertices (l acc : list Vertex) :
  fold_left (fun acc vertex => acc ++ [vertex]) l acc = acc ++ l.
Proof.
  revert acc. induction l as [| v l IH]; intros acc; simpl.
  - now rewrite app_nil_r.
  - rewrite IH, <- app_assoc. reflexivity.
Qed.

(** Once [ensureLevelDrvrVerticies] has run, the list is valid, and when it
    was not valid before, it holds every vertex of the graph, drivers and
    loads alike, each as often as the graph has it. *)
Lemma ensureLevelDrvrVerticies_all_vertices (sta : Sta) (st : Resizer) :
  level_drvr_verticies_valid_ st = false ->
  exists st',
    ensureLevelDrvrVerticies sta st = Some (tt, st')
    /\ level_drvr_verticies_valid_ st' = true
    /\ level_drvr_verticies_ st' ≡ₚ graph_vertices sta.
Proof.
  intros Hvalid. unfold ensureLevelDrvrVerticies, bind, gets, modify.
  rewrite Hvalid. simpl. eexists. split; [reflexivity |].
  split; [reflexivity |]. simpl.
  rewrite collect_vertices. simpl. unfold sort.
  apply merge_sort_Permutation.
Qed.

(** C5.  In the design [ex_design] the levelized list holds the vertices of
    the load pins [uA/A] and [uB/A] next to the one driver vertex: every
    vertex of the graph is pushed, driver or not.  The order is by level,
    then by path name. *)
Theorem level_drvr_verticies_hold_loads :
  exists st',
    ensureLevelDrvrVerticies ex_design ex_resizer = Some (tt, st')
    /\ level_drvr_verticies_ st'
       = [ex_vertex drvr 0; ex_vertex loadA 1; ex_vertex loadB 1]
    /\ isDriver ex_design (vertex_pin (ex_vertex loadA 1)) = false
    /\ isDriver ex_design (vertex_pin (ex_vertex loadB 1)) = false.
Proof.
  eexists. split; [vm_compute; reflexivity |].
  repeat split; reflexivity.
Qed.

(** ** Pruning at a junction *)

(** C6.  At the junction of [ex_design] two options survive the pruning, and
    the first dominates the second: required times with buffer 97 and 95,
    capacitances 3 and 4.  The index [qi] of the entry that is cleared
    lags behind the entry [q] that was found worse once an earlier entry
    is cleared, so the dominated option stays. *)
Theorem junction_keeps_dominated_option :
  exists q p,
    junctionSurvivors ex_design ex_junction BUF = [q; p]
    /\ dominates ex_design BUF q p = true
    /\ (bufferRequired ex_design BUF q == 97 /\ cap q == 3)
    /\ (bufferRequired ex_design BUF p == 95 /\ cap p == 4).
Proof.
  do 2 eexists. split; [vm_compute; reflexivity |].
  repeat split; vm_compute; reflexivity.
Qed.

(** ** Counting inserted buffers *)

(** The count of a junction option is the sum of the counts of its two
    branches. *)
Lemma rebufferTopDown_junction (sta : Sta) (buffer_cell : LibertyCell)
    (choice p q : RebufferOption) (net : Net) (st st1 st2 : Resizer)
    (insert_count1 insert_count2 : Z) :
  type choice = junction -> ref choice = Some p -> ref2 choice = Some q ->
  rebufferTopDown sta p net buffer_cell st = Some (insert_count1, st1) ->
  rebufferTopDown sta q net buffer_cell st1 = Some (insert_count2, st2) ->
  rebufferTopDown sta choice net buffer_cell st
  = Some ((insert_count1 + insert_count2)%Z, st2).
Proof.
  destruct choice as [ty c r lp loc o1 o2]. simpl.
  intros -> -> -> H1 H2. simpl. unfold bind. rewrite H1, H2. reflexivity.
Qed.

(** The count of a buffer option is 1, whatever happens below its [ref]. *)
Lemma rebufferTopDown_buffer (sta : Sta) (buffer_cell : LibertyCell)
    (choice : RebufferOption) (net : Net) (st st' : Resizer) (insert_count : Z) :
  type choice = buffer ->
  rebufferTopDown sta choice net buffer_cell st = Some (insert_count, st') ->
  insert_count = 1%Z.
Proof.
  destruct choice as [ty c r lp loc o1 o2]. simpl. intros ->. simpl.
  unfold bind.
  repeat match goal with
  | |- context [match ?m ?s with Some _ => _ | None => _ end] =>
      destruct (m s) as [[? ?] |]; [| discriminate]
  | |- context [let '(_, _) := ?x in _] => destruct x
  | |- context [match ?o with Some _ => _ | None => _ end] =>
      destruct o; [| discriminate]
  end; try discriminate.
  unfold ret. congruence.
Qed.

(** C2.  Rebuffering the driver of [ex_design] makes the two buffer
    instances [buffer1] and [buffer2], and adds 1 to the inserted buffer
    count: the count of a buffer option leaves out what the pass inserts
    below its [ref]. *)
Theorem rebuffer_counts_one_of_two_buffers :
  exists st',
    rebuffer ex_design drvr BUF ex_resizer = Some (tt, st')
    /\ inserted_buffer_count_ ex_resizer = 0%Z
    /\ inserted_buffer_count_ st' = 1%Z
    /\ size (instances st') = (size (instances ex_resizer) + 2)%nat
    /\ (inst_cell <$> instances st' !! "buffer1"%string) = Some "BUF"%string
    /\ (inst_cell <$> instances st' !! "buffer2"%string) = Some "BUF"%string
    /\ instances ex_resizer !! "buffer1"%string = None
    /\ instances ex_resizer !! "buffer2"%string = None.
Proof.
  eexists. split; [vm_compute; reflexivity |].
  repeat split; vm_compute; reflexivity.
Qed.

(** ** addWireAndBuffer *)

Section AddWireAndBuffer.

Variable sta : Sta.
Variable buffer_cell : LibertyCell.
Variables k_loc prev_loc : DefPt.

Abbreviation rt := (wireBufferRequired sta buffer_cell k_loc prev_loc).

(** The loop makes one wire option per member of [Z], in order, and keeps
    the first member whose buffered required time no later member exceeds. *)
Lemma addWireAndBuffer_loop_spec (Z : list RebufferOption) :
  forall Z1 best best_ref,
  exists best' best_ref',
    addWireAndBuffer_loop sta buffer_cell k_loc prev_loc Z Z1 best best_ref
    = (Z1 ++ (wireOption sta k_loc prev_loc <$> Z), best', best_ref')
    /\ ((best' = best /\ best_ref' = best_ref
         /\ forall p, p ∈ Z -> fuzzyGreater (rt p) best = false)
        \/ (exists p,
              p ∈ Z /\ best_ref' = Some p /\ best' = rt p
              /\ fuzzyGreater (rt p) best = true
              /\ forall q, q ∈ Z -> fuzzyGreater (rt q) (rt p) = false)).
Proof.
  induction Z as [| p Z' IH]; intros Z1 best best_ref; simpl.
  - exists best, best_ref. rewrite app_nil_r. split; [reflexivity |].
    left. repeat split. intros p Hp. inversion Hp.
  - change (bufferRequired sta buffer_cell (wireOption sta k_loc prev_loc p))
      with (rt p).
    destruct (fuzzyGreater (rt p) best) eqn:Hgt.
    + destruct (IH (Z1 ++ [wireOption sta k_loc prev_loc p]) (rt p) (Some p))
        as (best' & best_ref' & Heq & Hcase).
      exists best', best_ref'. rewrite Heq, <- app_assoc. split; [reflexivity |].
      right. destruct Hcase as [(-> & -> & Hall) | (p' & Hin & -> & -> & Hgt' & Hall)].
      * exists p. repeat split; [left | assumption |].
        intros q Hq. apply elem_of_cons in Hq as [-> | Hq];
          [apply fuzzyGreater_irrefl | auto].
      * exists p'. repeat split; [now right | |].
        -- eapply fuzzyGreater_trans; eassumption.
        -- intros q Hq. apply elem_of_cons in Hq as [-> | Hq];
             [now apply fuzzyGreater_asym | auto].
    + destruct (IH (Z1 ++ [wireOption sta k_loc prev_loc p]) best best_ref)
        as (best' & best_ref' & Heq & Hcase).
      exists best', best_ref'. rewrite Heq, <- app_assoc. split; [reflexivity |].
      destruct Hcase as [(-> & -> & Hall) | (p' & Hin & -> & -> & Hgt' & Hall)].
      * left. repeat split.
        intros q Hq. apply elem_of_cons in Hq as [-> | Hq]; auto.
      * right. exists p'. repeat split; [now right | assumption |].
        intros q Hq. apply elem_of_cons in Hq as [-> | Hq]; [| auto].
        destruct (fuzzyGreater (rt p) (rt p')) eqn:E; [| reflexivity].
        rewrite (fuzzyGreater_trans _ _ _ E Hgt') in Hgt. discriminate.
Qed.

(** Without a member whose buffered required time is above [-INF], only
    the wire options are made. *)
Lemma addWireAndBuffer_wires_only (Z : list RebufferOption) :
  (forall p, p ∈ Z -> fuzzyGreater (rt p) (- INF) = false) ->
  addWireAndBuffer sta Z k_loc prev_loc buffer_cell
  = (wireOption sta k_loc prev_loc <$> Z).
Proof.
  intros Hnone. unfold addWireAndBuffer.
  destruct (addWireAndBuffer_loop_spec Z [] (- INF) None)
    as (best' & best_ref' & -> & [(-> & -> & _) | (p & Hin & _ & _ & Hgt & _)]).
  - reflexivity.
  - rewrite (Hnone p Hin) in Hgt. discriminate.
Qed.

(** C1 (amended).  When some member of [Z] has a buffered required time
    above [-INF], [addWireAndBuffer] returns the wire options of the
    members of [Z], in order, followed by exactly one buffer option.  Its
    capacitance is the input capacitance of the buffer cell, its location
    the location of [prev], its [ref] a member [p] of [Z], and its required
    time is that of the wire option of [p] less the delay of the buffer
    loaded with the capacitance of that wire option; no member of [Z] has
    such a required time that is greater under the fuzzy comparator. *)
Theorem addWireAndBuffer_buffer_option (Z : list RebufferOption) :
  (exists p, p ∈ Z /\ fuzzyGreater (rt p) (- INF) = true) ->
  exists p,
    p ∈ Z
    /\ addWireAndBuffer sta Z k_loc prev_loc buffer_cell
       = (wireOption sta k_loc prev_loc <$> Z)
         ++ [mkRebufferOption buffer
               (bufferInputCapacitance sta buffer_cell)
               (required p - wire_delay sta k_loc prev_loc
                - bufferDelay sta buffer_cell (cap p + wire_cap sta k_loc prev_loc))
               None prev_loc (Some p) None]
    /\ (forall q, q ∈ Z ->
          fuzzyGreater
            (required q - wire_delay sta k_loc prev_loc
             - bufferDelay sta buffer_cell (cap q + wire_cap sta k_loc prev_loc))
            (required p - wire_delay sta k_loc prev_loc
             - bufferDelay sta buffer_cell (cap p + wire_cap sta k_loc prev_loc))
          = false)
    /\ (forall z, z ∈ (wireOption sta k_loc prev_loc <$> Z) -> type z = wire).
Proof.
  intros (p0 & Hin0 & Hgt0). unfold addWireAndBuffer.
  destruct (addWireAndBuffer_loop_spec Z [] (- INF) None)
    as (best' & best_ref' & -> & [(_ & _ & Hall) | (p & Hin & -> & -> & _ & Hall)]).
  - rewrite (Hall p0 Hin0) in Hgt0. discriminate.
  - exists p. split; [assumption |]. split; [reflexivity |].
    split; [exact Hall |].
    intros z Hz. apply list_elem_of_fmap in Hz as (q & -> & _). reflexivity.
Qed.

End AddWireAndBuffer.

(** C1 (as stated) fails.  For the one sink option of [uA/A], one unit away
    from [prev], the buffer option has required time 97: the wire delay 1
    is taken off first, and the buffer is loaded with the wire too.  The
    required time of the sink less the delay of the buffer loaded with the
    sink alone is 99. *)
Lemma addWireAndBuffer_required_counts_wire :
  exists z,
    addWireAndBuffer ex_design [ex_sink_option] (1, 0)%Z (0, 0)%Z BUF
    = [wireOption ex_design (1, 0)%Z (0, 0)%Z ex_sink_option; z]
    /\ type z = buffer
    /\ ref z = Some ex_sink_option
    /\ required z == 97
    /\ required ex_sink_option
       - bufferDelay ex_design BUF (cap ex_sink_option) == 99
    /\ ~ required z
         == required ex_sink_option
            - bufferDelay ex_design BUF (cap ex_sink_option).
Proof.
  eexists. split; [vm_compute; reflexivity |].
  repeat split; try (vm_compute; reflexivity).
  vm_compute. discriminate.
Qed.

Lemma addWireAndBuffer_buffer_option_witness :
  (exists p,
     p ∈ [ex_sink_option]
     /\ fuzzyGreater
          (wireBufferRequired ex_design BUF (1, 0)%Z (0, 0)%Z p) (- INF) = true)
  /\ exists p,
       p ∈ [ex_sink_option]
       /\ addWireAndBuffer ex_design [ex_sink_option] (1, 0)%Z (0, 0)%Z BUF
          = (wireOption ex_design (1, 0)%Z (0, 0)%Z <$> [ex_sink_option])
            ++ [mkRebufferOption buffer
                  (bufferInputCapacitance ex_design BUF)
                  (required p - wire_delay ex_design (1, 0)%Z (0, 0)%Z
                   - bufferDelay ex_design BUF
                       (cap p + wire_cap ex_design (1, 0)%Z (0, 0)%Z))
                  None (0, 0)%Z (Some p) None].
Proof.
  assert (H : exists p,
             p ∈ [ex_sink_option]
             /\ fuzzyGreater
                  (wireBufferRequired ex_design BUF (1, 0)%Z (0, 0)%Z p) (- INF)
                = true).
  { exists ex_sink_option. split; [left | vm_compute; reflexivity]. }
  split; [exact H |].
  destruct (addWireAndBuffer_buffer_option ex_design BUF (1, 0)%Z (0, 0)%Z
              [ex_sink_option] H) as (p & Hin & Heq & _).
  exists p. split; assumption.
Defined.

(** ** Rebuffering an unconstrained driver *)

(** C9.  When the required time of the driver pin is infinite, [rebuffer]
    leaves the resizer and its network as they are: nets, instances,
    connections and the counters are unchanged.  It returns whenever the
    pin has a net and the net a Steiner tree. *)
Theorem rebuffer_unconstrained (sta : Sta) (drvr_pin : Pin)
    (buffer_cell : LibertyCell) (st : Resizer) :
  fuzzyInf (pinRequired sta drvr_pin) = true ->
  (forall r st', rebuffer sta drvr_pin buffer_cell st = Some (r, st') -> st' = st)
  /\ (forall net,
        connections st !! drvr_pin = Some net ->
        makeSteinerTree sta net <> null_pt ->
        rebuffer sta drvr_pin buffer_cell st = Some (tt, st)).
Proof.
  intros Hinf. unfold rebuffer, bind, gets. split.
  - intros r st'. destruct (connections st !! drvr_pin) as [net |]; [| discriminate].
    destruct (makeSteinerTree sta net); [discriminate |].
    rewrite Hinf. simpl. unfold ret. congruence.
  - intros net -> Htree.
    destruct (makeSteinerTree sta net); [congruence |].
    rewrite Hinf. reflexivity.
Qed.

Lemma rebuffer_unconstrained_witness :
  fuzzyInf (pinRequired ex_unconstrained drvr) = true
  /\ rebuffer ex_unconstrained drvr BUF ex_resizer = Some (tt, ex_resizer).
Proof.
  assert (H : fuzzyInf (pinRequired ex_unconstrained drvr) = true)
    by (vm_compute; reflexivity).
  split; [exact H |].
  apply (proj2 (rebuffer_unconstrained ex_unconstrained drvr BUF ex_resizer H)
           "n1"%string).
  - vm_compute. reflexivity.
  - discriminate.
Defined.

(** ** Sink options *)

Lemma list_insert_None_sub {A} (l : list (option A)) (qi i : nat) (o : A) :
  <[qi := None]> l !! i = Some (Some o) -> l !! i = Some (Some o).
Proof.
  rewrite list_lookup_insert_Some.
  intros [(_ & H & _) | (_ & H)]; [discriminate | exact H].
Qed.

Lemma prune_inner_sub (sta : Sta) (buffer_cell : LibertyCell) (Tp Lp : Q)
    (js : list nat) :
  forall Z2 qi i o,
    prune_inner sta buffer_cell Tp Lp js Z2 qi !! i = Some (Some o) ->
    Z2 !! i = Some (Some o).
Proof.
  induction js as [| j js IH]; intros Z2 qi i o; simpl; [auto |].
  destruct (Z2 !! j) as [[q |] |]; try apply IH.
  intros H. apply IH in H.
  destruct (fuzzyLess _ Tp && fuzzyGreater _ Lp); [| exact H].
  eapply list_insert_None_sub, H.
Qed.

Lemma prune_outer_sub (sta : Sta) (buffer_cell : LibertyCell) (pis : list nat) :
  forall Z2 i o,
    prune_outer sta buffer_cell pis Z2 !! i = Some (Some o) ->
    Z2 !! i = Some (Some o).
Proof.
  induction pis as [| pi pis IH]; intros Z2 i o; simpl; [auto |].
  destruct (Z2 !! pi) as [[p |] |]; try apply IH.
  intros H. apply IH in H. eapply prune_inner_sub, H.
Qed.

(** The survivors of the pruning are among the options that went in. *)
Lemma prune_subset (sta : Sta) (buffer_cell : LibertyCell)
    (Z2 : list RebufferOption) (o : RebufferOption) :
  o ∈ prune sta buffer_cell Z2 -> o ∈ Z2.
Proof.
  unfold prune. rewrite list_elem_of_omap. intros (x & Hx & Hid).
  simpl in Hid. subst x.
  apply list_elem_of_lookup in Hx as [i Hi].
  apply prune_outer_sub in Hi. rewrite list_lookup_fmap in Hi.
  destruct (Z2 !! i) as [o' |] eqn:E; simpl in Hi; [| discriminate].
  injection Hi as ->. eapply list_elem_of_lookup_2, E.
Qed.

Lemma addWireAndBuffer_elem (sta : Sta) (Z : list RebufferOption)
    (k_loc prev_loc : DefPt) (buffer_cell : LibertyCell) (z : RebufferOption) :
  z ∈ addWireAndBuffer sta Z k_loc prev_loc buffer_cell ->
  exists p,
    p ∈ Z
    /\ (z = wireOption sta k_loc prev_loc p
        \/ exists best, z = bufferOption sta buffer_cell prev_loc best p).
Proof.
  unfold addWireAndBuffer.
  destruct (addWireAndBuffer_loop_spec sta buffer_cell k_loc prev_loc Z [] (- INF) None)
    as (best' & best_ref' & -> & Hcase).
  assert (Hwire : z ∈ (wireOption sta k_loc prev_loc <$> Z) ->
                  exists p, p ∈ Z /\ (z = wireOption sta k_loc prev_loc p
                    \/ exists best, z = bufferOption sta buffer_cell prev_loc best p)).
  { intros Hz. apply list_elem_of_fmap in Hz as (p & -> & Hp). eauto. }
  destruct Hcase as [(_ & -> & _) | (p & Hin & -> & _)]; simpl; [exact Hwire |].
  rewrite elem_of_app. intros [Hz | Hz]; [auto |].
  apply list_elem_of_singleton in Hz. eauto.
Qed.

Lemma junctions_elem (k_loc : DefPt) (Zl Zr : list RebufferOption)
    (z : RebufferOption) :
  z ∈ junctions k_loc Zl Zr ->
  exists p q,
    p ∈ Zl /\ q ∈ Zr
    /\ z = mkRebufferOption junction (cap p + cap q)
             (Qmin (required p) (required q)) None k_loc (Some p) (Some q).
Proof.
  unfold junctions. rewrite list_elem_of_bind. intros (p & Hz & Hp).
  apply list_elem_of_bind in Hz as (q & Hz & Hq).
  apply list_elem_of_singleton in Hz. eauto.
Qed.

(** C10.  Every sink option that an option of the bottom-up pass leads to
    carries the capacitance of its load pin: the larger of the rise and
    fall capacitances of the liberty port of the pin for [MinMax::max()],
    and 0 when the pin has no liberty port. *)
Theorem sink_option_capacitance (sta : Sta) (buffer_cell : LibertyCell)
    (k : SteinerPt) (prev_loc : DefPt) (z s : RebufferOption) :
  z ∈ rebufferBottomUp sta k prev_loc buffer_cell ->
  s ∈ sinkOptions z ->
  exists pin,
    type s = sink
    /\ loadPin s = Some pin
    /\ cap s = pinCapacitance sta pin
    /\ pinCapacitance sta pin
       = match libertyPort sta pin with
         | Some port =>
             Qmax (capacitance port rise MinMax_max)
                  (capacitance port fall MinMax_max)
         | None => 0
         end.
Proof.
  revert prev_loc z s.
  induction k as [| pin k_loc kl IHl kr IHr]; intros prev_loc z s; simpl.
  - intros Hz. inversion Hz.
  - destruct pin as [pin |].
    + destruct (isLoad sta pin); [| intros Hz; inversion Hz].
      intros Hz Hs. apply addWireAndBuffer_elem in Hz as (p & Hp & Hz).
      apply list_elem_of_singleton in Hp. subst p.
      assert (s = sinkOption sta pin k_loc) as ->.
      { destruct Hz as [-> | [best ->]]; simpl in Hs;
          apply list_elem_of_singleton in Hs; exact Hs. }
      exists pin. repeat split; reflexivity.
    + intros Hz Hs. apply addWireAndBuffer_elem in Hz as (p & Hp & Hz).
      apply prune_subset, junctions_elem in Hp as (pl & pr & Hpl & Hpr & ->).
      assert (Hs' : s ∈ sinkOptions pl ++ sinkOptions pr).
      { destruct Hz as [-> | [best ->]]; simpl in Hs;
          rewrite app_nil_r in Hs; exact Hs. }
      apply elem_of_app in Hs' as [Hs' | Hs']; eauto.
Qed.

Lemma sink_option_capacitance_witness :
  wireOption ex_design (0, 0)%Z (0, 0)%Z (sinkOption ex_design loadA (0, 0)%Z)
    ∈ rebufferBottomUp ex_design ex_sinkA (0, 0)%Z BUF
  /\ sinkOption ex_design loadA (0, 0)%Z
       ∈ sinkOptions
           (wireOption ex_design (0, 0)%Z (0, 0)%Z
              (sinkOption ex_design loadA (0, 0)%Z))
  /\ exists pin,
       type (sinkOption ex_design loadA (0, 0)%Z) = sink
       /\ loadPin (sinkOption ex_design loadA (0, 0)%Z) = Some pin
       /\ cap (sinkOption ex_design loadA (0, 0)%Z) = pinCapacitance ex_design pin
       /\ pinCapacitance ex_design pin
          = match libertyPort ex_design pin with
            | Some port =>
                Qmax (capacitance port rise MinMax_max)
                     (capacitance port fall MinMax_max)
            | None => 0
            end.
Proof.
  assert (Hz : wireOption ex_design (0, 0)%Z (0, 0)%Z
                 (sinkOption ex_design loadA (0, 0)%Z)
               ∈ rebufferBottomUp ex_design ex_sinkA (0, 0)%Z BUF).
  { vm_compute. left. }
  assert (Hs : sinkOption ex_design loadA (0, 0)%Z
               ∈ sinkOptions
                   (wireOption ex_design (0, 0)%Z (0, 0)%Z
                      (sinkOption ex_design loadA (0, 0)%Z))).
  { vm_compute. left. }
  split; [exact Hz |]. split; [exact Hs |].
  exact (sink_option_capacitance ex_design BUF ex_sinkA (0, 0)%Z _ _ Hz Hs).
Defined.

(** ** Comparison of floats *)

Lemma fgt_irrefl (a : spec_float) : fgt a a = false.
Proof.
  unfold fgt, SFltb. destruct a as [s | s | | s m e]; simpl; try reflexivity;
    destruct s; try reflexivity;
    rewrite Z.compare_refl, Pos.compare_cont_refl; reflexivity.
Qed.

Lemma fgt_trans (a b c : spec_float) :
  fgt a b = true -> fgt b c = true -> fgt a c = true.
Proof.
  unfold fgt, SFltb.
  destruct a as [sa | sa | | sa ma ea], b as [sb | sb | | sb mb eb],
    c as [sc | sc | | sc mc ec]; simpl;
    try destruct sa; try destruct sb; try destruct sc;
    intros H1 H2; try discriminate H1; try discriminate H2; try reflexivity.
  all: revert H1 H2; rewrite ?Pos.compare_cont_spec;
    destruct (Z.compare_spec eb ea) as [<- | Hba | Hba];
    destruct (Z.compare_spec ec eb) as [<- | Hcb | Hcb];
    intros H1 H2; try discriminate H1; try discriminate H2;
    try (rewrite (proj2 (Z.compare_lt_iff _ _)) by lia);
    try (rewrite (proj2 (Z.compare_gt_iff _ _)) by lia);
    try rewrite Z.compare_refl; try reflexivity.
  all: revert H1 H2; simpl;
    destruct (Pos.compare_spec mb ma) as [<- | Hm2 | Hm2];
    destruct (Pos.compare_spec mc mb) as [<- | Hm1 | Hm1];
    simpl; intros H1 H2; try discriminate H1; try discriminate H2;
    try (rewrite (proj2 (Pos.compare_lt_iff _ _)) by lia);
    try (rewrite (proj2 (Pos.compare_gt_iff _ _)) by lia);
    try rewrite Pos.compare_refl; simpl; reflexivity.
Qed.

Lemma fgt_asym (a b : spec_float) : fgt a b = true -> fgt b a = false.
Proof.
  intros Hab. destruct (fgt b a) eqn:Hba; [| reflexivity].
  rewrite <- (fgt_irrefl a). symmetry. eapply fgt_trans; eassumption.
Qed.

(** ** Resizing to the target slew *)

(** The loop keeps the first cell with the largest folded ratio among the
    cells whose folded ratio is above the starting value. *)
Lemma bestEquivCell_spec (sta : Sta) (load_cap : Q)
    (equiv_cells : list LibertyCell) :
  forall best_ratio best_cell,
  exists ratio' cell',
    bestEquivCell sta load_cap equiv_cells best_ratio best_cell = (ratio', cell')
    /\ (forall c, c ∈ equiv_cells ->
          fgt (foldedRatio (target_load sta c) load_cap) ratio' = false)
    /\ ((ratio' = best_ratio /\ cell' = best_cell)
        \/ (exists c,
              c ∈ equiv_cells /\ cell' = Some c
              /\ ratio' = foldedRatio (target_load sta c) load_cap
              /\ fgt ratio' best_ratio = true)).
Proof.
  induction equiv_cells as [| t cells IH]; intros best_ratio best_cell; simpl.
  - exists best_ratio, best_cell. split; [reflexivity |].
    split; [intros c Hc; inversion Hc | now left].
  - destruct (fgt (foldedRatio (target_load sta t) load_cap) best_ratio) eqn:Hgt.
    + destruct (IH (foldedRatio (target_load sta t) load_cap) (Some t))
        as (ratio' & cell' & -> & Hall & Hcase).
      exists ratio', cell'. split; [reflexivity |]. split.
      * intros c Hc. apply elem_of_cons in Hc as [-> | Hc]; [| auto].
        destruct Hcase as [[-> _] | (c & _ & _ & _ & Hlt)];
          [apply fgt_irrefl | now apply fgt_asym].
      * right. destruct Hcase as [[-> ->] | (c & Hc & -> & -> & Hlt)].
        -- exists t. repeat split; [left | assumption].
        -- exists c. repeat split; [now right |].
           eapply fgt_trans; eassumption.
    + destruct (IH best_ratio best_cell) as (ratio' & cell' & -> & Hall & Hcase).
      exists ratio', cell'. split; [reflexivity |]. split.
      * intros c Hc. apply elem_of_cons in Hc as [-> | Hc]; [| auto].
        destruct Hcase as [[-> _] | (c & _ & _ & _ & Hlt)]; [exact Hgt |].
        destruct (fgt (foldedRatio (target_load sta t) load_cap) ratio') eqn:E;
          [| reflexivity].
        rewrite <- Hgt. symmetry. eapply fgt_trans; eassumption.
      * destruct Hcase as [[-> ->] | (c & Hc & -> & -> & Hlt)]; [now left |].
        right. exists c. repeat split; [now right | assumption].
Qed.

(** C3 (amended).  When [resizeToTargetSlew1] replaces the cell of an
    instance, the new cell is (the LEF cell of) a member [best_cell] of the
    equivalence group of the old cell whose folded ratio of target load and
    load, as the code computes it in single precision, is above 0, and no
    member of the group has a computed folded ratio that is greater; so
    neither has the old cell when it belongs to its group. *)
Theorem resize_picks_largest_folded_ratio (sta : Sta) (inst : Instance)
    (st st' : Resizer) (data : InstanceData) (cell : LibertyCell) (output : Pin) :
  instances st !! inst = Some data ->
  findLibertyCell sta (inst_cell data) = Some cell ->
  singleOutputPin sta inst = Some output ->
  resizeToTargetSlew1 sta inst st = Some (tt, st') ->
  resize_count_ st' <> resize_count_ st ->
  exists equiv_cells best_cell new_cell,
    equivCells sta cell = Some equiv_cells
    /\ best_cell ∈ equiv_cells
    /\ (inst_cell <$> instances st' !! inst) = Some new_cell
    /\ (if isLefCell sta (inst_cell data)
        then lefCell sta best_cell = Some new_cell
        else new_cell = cell_name best_cell)
    /\ fgt (foldedRatio (target_load sta best_cell) (loadCap sta output)) fzero
       = true
    /\ (forall c, c ∈ equiv_cells ->
          fgt (foldedRatio (target_load sta c) (loadCap sta output))
            (foldedRatio (target_load sta best_cell) (loadCap sta output))
          = false)
    /\ (cell ∈ equiv_cells ->
        fgt (foldedRatio (target_load sta cell) (loadCap sta output))
          (foldedRatio (target_load sta best_cell) (loadCap sta output))
        = false).
Proof.
  intros Hdata Hcell Hout. unfold resizeToTargetSlew1, bind, gets.
  rewrite Hdata, Hcell, Hout.
  destruct (equivCells sta cell) as [equiv_cells |];
    [| unfold ret; intros [= <-] Hne; congruence].
  destruct (bestEquivCell_spec sta (loadCap sta output) equiv_cells fzero None)
    as (ratio' & cell' & Hbest & Hall & Hcase).
  rewrite Hbest. simpl.
  destruct Hcase as [[-> ->] | (best & Hin & -> & -> & Hpos)];
    [unfold ret; intros [= <-] Hne; congruence |].
  assert (Hnew : forall new_cell,
             (inst_cell <$>
                alter (fun d => {| inst_cell := new_cell;
                                   inst_location := inst_location d |})
                  inst (instances st) !! inst) = Some new_cell).
  { intros new_cell. rewrite lookup_alter_eq, Hdata. reflexivity. }
  destruct (negb (String.eqb (cell_name best) (cell_name cell)));
    [| unfold ret; intros [= <-] Hne; congruence].
  destruct (isLefCell sta (inst_cell data)) eqn:Hlef.
  - destruct (lefCell sta best) as [best_lef |] eqn:Hbl;
      [| unfold ret; intros [= <-] Hne; congruence].
    unfold replaceCell, incr_resize_count, modify. intros [= <-] _.
    exists equiv_cells, best, best_lef.
    repeat split; auto. apply Hnew.
  - unfold replaceCell, incr_resize_count, modify. intros [= <-] _.
    exists equiv_cells, best, (cell_name best).
    repeat split; auto. apply Hnew.
Qed.

(** C3 (as stated) fails.  The instance [u0] drives a load of 10; the target
    loads are 6 for [INV1], its cell, and 15 for [INV2].  The folded ratios
    are 3/5 and 2/3, so [u0] becomes an [INV2], and the distance of the
    ratio from 1 grows from 2/5 to 1/2. *)
Lemma resize_can_increase_deviation :
  resizeToTargetSlew1 ex_design "u0"%string ex_resizer = Some (tt, ex_resized)
  /\ (inst_cell <$> instances ex_resizer !! "u0"%string) = Some "INV1"%string
  /\ (inst_cell <$> instances ex_resized !! "u0"%string) = Some "INV2"%string
  /\ ratioDeviation (target_load ex_design INV1) (loadCap ex_design drvr) == 2 # 5
  /\ ratioDeviation (target_load ex_design INV2) (loadCap ex_design drvr) == 1 # 2
  /\ ~ ratioDeviation (target_load ex_design INV2) (loadCap ex_design drvr)
       <= ratioDeviation (target_load ex_design INV1) (loadCap ex_design drvr).
Proof.
  repeat split; try (vm_compute; reflexivity).
  vm_compute. intros H. apply H. reflexivity.
Qed.

Lemma resize_picks_largest_folded_ratio_witness :
  resizeToTargetSlew1 ex_design "u0"%string ex_resizer = Some (tt, ex_resized)
  /\ resize_count_ ex_resized <> resize_count_ ex_resizer
  /\ exists best_cell,
       best_cell ∈ [INV1; INV2]
       /\ (inst_cell <$> instances ex_resized !! "u0"%string)
          = Some (cell_name best_cell)
       /\ fgt (foldedRatio (target_load ex_design INV1) (loadCap ex_design drvr))
            (foldedRatio (target_load ex_design best_cell) (loadCap ex_design drvr))
          = false.
Proof.
  assert (Hrun : resizeToTargetSlew1 ex_design "u0"%string ex_resizer
                 = Some (tt, ex_resized)) by (vm_compute; reflexivity).
  assert (Hcount : resize_count_ ex_resized <> resize_count_ ex_resizer)
    by (vm_compute; discriminate).
  split; [exact Hrun |]. split; [exact Hcount |].
  destruct (resize_picks_largest_folded_ratio ex_design "u0"%string
              ex_resizer ex_resized (ex_inst "INV1"%string) INV1 drvr
              eq_refl eq_refl eq_refl Hrun Hcount)
    as (equiv_cells & best_cell & new_cell & Heq & Hin & Hnew & Hlef & _ & Hall & _).
  injection Heq as <-. simpl in Hlef. subst new_cell.
  exists best_cell. split; [exact Hin |]. split; [exact Hnew |].
  apply Hall. left.
Defined.

(** The rounding decides.  With the load 14680071 and the target loads
    16777224 and 12845062 the exact folded ratios are 7/8 and a little
    less; the code computes a float below 7/8 for the first, whose quotient
    and reciprocal are both rounded, and 7/8 for the second. *)
Lemma foldedRatio_rounds :
  foldedRatio 16777224 14680071 = S754_finite false 14680063 (-24)
  /\ foldedRatio 12845062 14680071 = S754_finite false 14680064 (-24)
  /\ fgt (foldedRatio 12845062 14680071) (foldedRatio 16777224 14680071) = true
  /\ 12845062 / 14680071 < 14680071 / 16777224.
Proof.
  repeat split; vm_compute; reflexivity.
Qed.

(** ** Target loads *)

Section FindTargetLoad.

Variable gate_model : GateTimingModel.
Variables in_slew cap_tol : float.

Abbreviation loop := (fun fuel => findTargetLoad_loop fuel gate_model in_slew cap_tol).

(** A round in which the slew does not exceed the target adds the step. *)
Lemma findTargetLoad_loop_add (fuel : nat) (load_cap cap_step : float) :
  fgt cap_step cap_tol = true ->
  fgt (float_of_Q (snd (gate_model 0 (Q_of_float load_cap)))) in_slew = false ->
  loop (S fuel) load_cap cap_step = loop fuel (fadd load_cap cap_step) cap_step.
Proof.
  intros Hstep Hslew. cbn [findTargetLoad_loop]. rewrite Hstep.
  destruct (gate_model 0 (Q_of_float load_cap)) as [arc_delay arc_slew].
  cbn [snd] in Hslew. rewrite Hslew. reflexivity.
Qed.



End FindTargetLoad.





(** Where the load absorbs the step.  With a slew equal to the load and
    the target slew 1/2, once the load is 2^-15 the sum of load and step
    is rounded back to the load: the slew stays below the target, the step
    of 1 pF is never halved and no number of rounds gives a result. *)
Lemma findTargetLoad_absorbs_step :
  fadd (S754_finite false 8388608 (-38)) cap_init = S754_finite false 8388608 (-38)
  /\ fgt cap_init cap_tol = true
  /\ fgt (float_of_Q (Q_of_float (S754_finite false 8388608 (-38))))
       (float_of_Q (1 # 2)) = false
  /\ forall fuel,
       findTargetLoad_loop fuel (linear_model 1) (float_of_Q (1 # 2)) cap_tol
         (S754_finite false 8388608 (-38)) cap_init = None.
Proof.
  split; [vm_compute; reflexivity |]. split; [vm_compute; reflexivity |].
  split; [vm_compute; reflexivity |].
  induction fuel as [| fuel IH]; [reflexivity |].
  rewrite findTargetLoad_loop_add; [| vm_compute; reflexivity | vm_compute; reflexivity].
  replace (fadd (S754_finite false 8388608 (-38)) cap_init)
    with (S754_finite false 8388608 (-38)) by (vm_compute; reflexivity).
  exact IH.
Qed.

(** ** Unique names *)

(** A set that holds [n] names with consecutive indices has at least [n]
    members. *)
Lemma indexed_names_size (prefix : string) (i : Z) (X : gset string) (n : nat) :
  (forall k, (k < n)%nat -> (prefix +:+ pretty (i + Z.of_nat k)%Z)%string ∈ X) ->
  (n <= size X)%nat.
Proof.
  intros Hin.
  set (f := fun k : nat => (prefix +:+ pretty (i + Z.of_nat k)%Z)%string).
  assert (Hdup : NoDup (f <$> seq 0 n)).
  { apply NoDup_fmap_2_strong; [| apply NoDup_seq].
    intros x y _ _ Hxy. unfold f in Hxy.
    apply (inj (String.app prefix)), (inj pretty) in Hxy. lia. }
  assert (Hlen : length (f <$> seq 0 n) = n)
    by (rewrite length_fmap; apply length_seq).
  rewrite <- Hlen, <- (size_list_to_set (C := gset string)) by exact Hdup.
  apply subseteq_size. intros x Hx.
  apply elem_of_list_to_set, list_elem_of_fmap in Hx as (k & -> & Hk).
  apply elem_of_seq in Hk. apply Hin. lia.
Qed.

Lemma makeUniqueNetName_loop_spec (fuel : nat) :
  forall st,
    match makeUniqueNetName_loop fuel st with
    | Some (name, st') =>
        (name ∉ nets st)
        /\ exists index',
             st' = set_unique_net_index index' st
             /\ (unique_net_index_ st < index')%Z
    | None =>
        forall k, (k < fuel)%nat ->
          ("net" +:+ pretty (unique_net_index_ st + Z.of_nat k)%Z)%string ∈ nets st
    end.
Proof.
  induction fuel as [| fuel IH]; intros st.
  - simpl. intros k Hk. lia.
  - cbn [makeUniqueNetName_loop]. unfold bind, gets, modify, findNet, ret. simpl.
    case_bool_decide as Hfound.
    + specialize (IH (set_unique_net_index (unique_net_index_ st + 1)%Z st)).
      destruct (makeUniqueNetName_loop fuel _) as [[name st'] |].
      * destruct IH as (Hfresh & index' & -> & Hlt). split; [exact Hfresh |].
        exists index'. split; [reflexivity | simpl in Hlt; lia].
      * intros [| k] Hk.
        -- rewrite Z.add_0_r. exact Hfound.
        -- specialize (IH k ltac:(lia)). simpl in IH.
           replace (unique_net_index_ st + Z.of_nat (S k))%Z
             with (unique_net_index_ st + 1 + Z.of_nat k)%Z by lia.
           exact IH.
    + split; [exact Hfound |]. eexists. split; [reflexivity | lia].
Qed.

(** [makeUniqueNetName] returns a name that no net of the top instance
    carries; only the index moves on. *)
Lemma makeUniqueNetName_fresh (st : Resizer) :
  exists name index',
    makeUniqueNetName st = Some (name, set_unique_net_index index' st)
    /\ (name ∉ nets st)
    /\ (unique_net_index_ st < index')%Z.
Proof.
  unfold makeUniqueNetName, bind, gets.
  pose proof (makeUniqueNetName_loop_spec (S (size (nets st))) st) as H.
  destruct (makeUniqueNetName_loop (S (size (nets st))) st) as [[name st'] |].
  - destruct H as (Hfresh & index' & -> & Hlt). eauto.
  - apply indexed_names_size in H. exfalso. exact (Nat.nle_succ_diag_l _ H).
Qed.

Lemma makeUniqueBufferName_loop_spec (fuel : nat) :
  forall st,
    match makeUniqueBufferName_loop fuel st with
    | Some (name, st') =>
        instances st !! name = None
        /\ exists index',
             st' = set_unique_buffer_index index' st
             /\ (unique_buffer_index_ st < index')%Z
    | None =>
        forall k, (k < fuel)%nat ->
          ("buffer" +:+ pretty (unique_buffer_index_ st + Z.of_nat k)%Z)%string
          ∈ dom (instances st)
    end.
Proof.
  induction fuel as [| fuel IH]; intros st.
  - simpl. intros k Hk. lia.
  - cbn [makeUniqueBufferName_loop].
    unfold bind, gets, modify, findInstance, ret. simpl.
    case_bool_decide as Hfound.
    + specialize (IH (set_unique_buffer_index (unique_buffer_index_ st + 1)%Z st)).
      destruct (makeUniqueBufferName_loop fuel _) as [[name st'] |].
      * destruct IH as (Hfresh & index' & -> & Hlt). split; [exact Hfresh |].
        exists index'. split; [reflexivity | simpl in Hlt; lia].
      * intros [| k] Hk.
        -- rewrite Z.add_0_r. apply elem_of_dom. exact Hfound.
        -- specialize (IH k ltac:(lia)). simpl in IH.
           replace (unique_buffer_index_ st + Z.of_nat (S k))%Z
             with (unique_buffer_index_ st + 1 + Z.of_nat k)%Z by lia.
           exact IH.
    + split; [now apply eq_None_not_Some |]. eexists. split; [reflexivity | lia].
Qed.

(** [makeUniqueBufferName] returns a name that no instance carries. *)
Lemma makeUniqueBufferName_fresh (st : Resizer) :
  exists name index',
    makeUniqueBufferName st = Some (name, set_unique_buffer_index index' st)
    /\ instances st !! name = None
    /\ (unique_buffer_index_ st < index')%Z.
Proof.
  unfold makeUniqueBufferName, bind, gets.
  pose proof (makeUniqueBufferName_loop_spec (S (size (instances st))) st) as H.
  destruct (makeUniqueBufferName_loop (S (size (instances st))) st)
    as [[name st'] |].
  - destruct H as (Hfresh & index' & -> & Hlt). eauto.
  - apply indexed_names_size in H. rewrite size_dom in H. exfalso.
    exact (Nat.nle_succ_diag_l _ H).
Qed.

(** * More properties of the code *)

(** ** Slew limits *)

(** X1.  When one of the limits that [slewLimit] consults for the pin
    exists, [hasMaxSlewViolation] reports a violation exactly when the slew
    of the rise or of the fall transition exceeds the smallest of the
    limits that exist. *)
Theorem hasMaxSlewViolation_with_limit (sta : Sta) (drvr_pin : Pin) :
  existsb snd (consultedLimits sta drvr_pin MinMax_max) = true ->
  (hasMaxSlewViolation sta drvr_pin = true <->
   exists tr limit,
     (limit, true) ∈ consultedLimits sta drvr_pin MinMax_max
     /\ (forall v, (v, true) ∈ consultedLimits sta drvr_pin MinMax_max -> limit <= v)
     /\ limit < graph_slew sta (pinDrvrVertex sta drvr_pin) tr).
Proof.
  intros Hex. rewrite hasMaxSlewViolation_spec. split.
  - intros [tr Hgt].
    destruct (slewLimit_tightest sta drvr_pin tr) as [Hsnd Hmin].
    cbv zeta in Hsnd, Hmin. rewrite Hex in Hsnd.
    destruct (Hmin Hsnd) as [Hle Hin].
    exists tr, (fst (slewLimit sta drvr_pin tr MinMax_max)). auto.
  - intros (tr & limit & Hin & Hle & Hgt). exists tr.
    destruct (slewLimit_tightest sta drvr_pin tr) as [Hsnd Hmin].
    cbv zeta in Hsnd, Hmin. rewrite Hex in Hsnd.
    destruct (Hmin Hsnd) as [Hle' Hin'].
    specialize (Hle' _ Hin). lra.
Qed.

Lemma hasMaxSlewViolation_with_limit_witness :
  existsb snd (consultedLimits ex_limited drvr MinMax_max) = true
  /\ hasMaxSlewViolation ex_limited drvr = true
  /\ exists tr limit,
       (limit, true) ∈ consultedLimits ex_limited drvr MinMax_max
       /\ (forall v, (v, true) ∈ consultedLimits ex_limited drvr MinMax_max ->
           limit <= v)
       /\ limit < graph_slew ex_limited (pinDrvrVertex ex_limited drvr) tr.
Proof.
  assert (Hex : existsb snd (consultedLimits ex_limited drvr MinMax_max) = true)
    by (vm_compute; reflexivity).
  assert (Hv : hasMaxSlewViolation ex_limited drvr = true)
    by (vm_compute; reflexivity).
  split; [exact Hex |]. split; [exact Hv |].
  exact (proj1 (hasMaxSlewViolation_with_limit ex_limited drvr Hex) Hv).
Defined.

Lemma tighten_absent (min_max : MinMax) (acc new_limit : Limit) :
  snd new_limit = false -> tighten min_max acc new_limit = acc.
Proof.
  destruct acc as [limit exists_], new_limit as [new_value new_exists].
  simpl. intros ->. reflexivity.
Qed.

(** Without a limit that exists, [slewLimit] hands back what the SDC
    answered for the design limit. *)
Lemma slewLimit_without_limit (sta : Sta) (pin : Pin) (tr : TransRiseFall) :
  existsb snd (consultedLimits sta pin MinMax_max) = false ->
  slewLimit sta pin tr MinMax_max = sdc_slewLimit_cell sta MinMax_max.
Proof.
  unfold slewLimit, consultedLimits.
  destruct (sdc_slewLimit_cell sta MinMax_max) as [top_limit top_exists].
  destruct (isTopLevelPort sta pin).
  - cbn [existsb]. rewrite !orb_false_iff. intros (_ & Hport & _).
    now rewrite tighten_absent.
  - destruct (libertyPort sta pin) as [port |]; cbn [app existsb];
      rewrite !orb_false_iff.
    + intros (_ & Hpin & Hport & _). now rewrite !tighten_absent.
    + intros (_ & Hpin & _). now rewrite tighten_absent.
Qed.

(** X28.  When none of the limits that [slewLimit] consults for the pin
    exists, [hasMaxSlewViolation] does not notice, since it never reads
    [exists]: it reports a violation exactly when the slew of the rise or
    of the fall transition exceeds the value that the SDC hands back for
    the absent design limit. *)
Theorem hasMaxSlewViolation_no_limit (sta : Sta) (drvr_pin : Pin) :
  existsb snd (consultedLimits sta drvr_pin MinMax_max) = false ->
  (hasMaxSlewViolation sta drvr_pin = true <->
   exists tr,
     fst (sdc_slewLimit_cell sta MinMax_max)
     < graph_slew sta (pinDrvrVertex sta drvr_pin) tr).
Proof.
  intros Hnone. rewrite hasMaxSlewViolation_spec.
  split; intros [tr H]; exists tr;
    [rewrite slewLimit_without_limit in H by exact Hnone
    | rewrite slewLimit_without_limit by exact Hnone]; exact H.
Qed.

Lemma hasMaxSlewViolation_no_limit_witness :
  existsb snd (consultedLimits ex_design drvr MinMax_max) = false
  /\ sdc_slewLimit_cell ex_design MinMax_max = (0, false)
  /\ hasMaxSlewViolation ex_design drvr = true.
Proof.
  assert (Hnone : existsb snd (consultedLimits ex_design drvr MinMax_max) = false)
    by (vm_compute; reflexivity).
  split; [exact Hnone |]. split; [reflexivity |].
  apply (hasMaxSlewViolation_no_limit ex_design drvr Hnone).
  exists rise. vm_compute. reflexivity.
Defined.

(** ** Single output pin *)

Lemma singleOutputPin_loop_spec (sta : Sta) (pins : list Pin) :
  forall output,
    singleOutputPin_loop sta pins output
    = match output, List.filter (isOutput sta) pins with
      | None, [pin] => Some pin
      | Some pin, [] => Some pin
      | _, _ => None
      end.
Proof.
  induction pins as [| pin pins IH]; intros output; simpl.
  - destruct output; reflexivity.
  - destruct (isOutput sta pin); [| apply IH].
    destruct output as [found |].
    + destruct (List.filter (isOutput sta) pins); reflexivity.
    + rewrite IH. destruct (List.filter (isOutput sta) pins); reflexivity.
Qed.

(** X2.  [singleOutputPin] returns a pin exactly when the instance has one
    output pin and no more, and then it is that pin; an instance without
    output pin or with several has none. *)
Theorem singleOutputPin_iff (sta : Sta) (inst : Instance) (pin : Pin) :
  singleOutputPin sta inst = Some pin
  <-> List.filter (isOutput sta) (instance_pins sta inst) = [pin].
Proof.
  unfold singleOutputPin. rewrite singleOutputPin_loop_spec.
  destruct (List.filter (isOutput sta) (instance_pins sta inst)) as [| p [| p' l]];
    split; intros H; try discriminate; congruence.
Qed.

(** ** What resizing leaves alone *)

Lemma resizeToTargetSlew1_effect (sta : Sta) (inst : Instance)
    (st st' : Resizer) :
  resizeToTargetSlew1 sta inst st = Some (tt, st') ->
  st' = st
  \/ (exists new_cell,
        st' = set_resize_count (resize_count_ st + 1)%Z
                (set_instances
                   (alter (fun d => {| inst_cell := new_cell;
                                       inst_location := inst_location d |})
                      inst (instances st)) st)
        /\ nets st' = nets st
        /\ connections st' = connections st
        /\ dom (instances st') = dom (instances st)
        /\ (forall other, other <> inst ->
              instances st' !! other = instances st !! other)
        /\ (inst_location <$> instances st' !! inst)
           = (inst_location <$> instances st !! inst)
        /\ (inst_cell <$> instances st' !! inst) = Some new_cell).
Proof.
  unfold resizeToTargetSlew1, bind, gets.
  destruct (instances st !! inst) as [data |] eqn:Hdata; [| discriminate].
  assert (Hreplaced : forall new_cell,
    let st2 := set_resize_count (resize_count_ st + 1)%Z
                 (set_instances
                    (alter (fun d => {| inst_cell := new_cell;
                                        inst_location := inst_location d |})
                       inst (instances st)) st) in
    nets st2 = nets st
    /\ connections st2 = connections st
    /\ dom (instances st2) = dom (instances st)
    /\ (forall other, other <> inst ->
          instances st2 !! other = instances st !! other)
    /\ (inst_location <$> instances st2 !! inst)
       = (inst_location <$> Some data)
    /\ (inst_cell <$> instances st2 !! inst) = Some new_cell).
  { intros new_cell. simpl. split; [reflexivity |]. split; [reflexivity |].
    split; [apply dom_alter_L |].
    split; [intros other Hne; now apply lookup_alter_ne |].
    rewrite lookup_alter_eq, Hdata. split; reflexivity. }
  destruct (findLibertyCell sta (inst_cell data)) as [cell |];
    [| unfold ret; intros [= <-]; now left].
  destruct (singleOutputPin sta inst) as [output |]; [| unfold ret; intros [= <-]; now left].
  destruct (equivCells sta cell) as [equiv_cells |]; [| unfold ret; intros [= <-]; now left].
  destruct (snd (bestEquivCell sta (loadCap sta output) equiv_cells fzero None))
    as [best_cell |]; [| unfold ret; intros [= <-]; now left].
  destruct (negb (String.eqb (cell_name best_cell) (cell_name cell)));
    [| unfold ret; intros [= <-]; now left].
  destruct (isLefCell sta (inst_cell data)).
  - destruct (lefCell sta best_cell) as [best_lef |]; [| unfold ret; intros [= <-]; now left].
    unfold replaceCell, incr_resize_count, modify. intros [= <-].
    right. exists best_lef. split; [reflexivity | exact (Hreplaced best_lef)].
  - unfold replaceCell, incr_resize_count, modify. intros [= <-].
    right. exists (cell_name best_cell).
    split; [reflexivity | exact (Hreplaced (cell_name best_cell))].
Qed.

(** X3.  [resizeToTargetSlew1] makes and removes no net, instance or
    connection: it changes nothing at all, or it gives the one instance
    another cell, at the same location, and adds 1 to the resize count. *)
Theorem resizeToTargetSlew1_frame (sta : Sta) (inst : Instance)
    (st st' : Resizer) :
  resizeToTargetSlew1 sta inst st = Some (tt, st') ->
  st' = st
  \/ (exists new_cell,
        st' = set_resize_count (resize_count_ st + 1)%Z
                (set_instances
                   (alter (fun d => {| inst_cell := new_cell;
                                       inst_location := inst_location d |})
                      inst (instances st)) st)
        /\ nets st' = nets st
        /\ connections st' = connections st
        /\ dom (instances st') = dom (instances st)
        /\ (forall other, other <> inst ->
              instances st' !! other = instances st !! other)
        /\ (inst_location <$> instances st' !! inst)
           = (inst_location <$> instances st !! inst)
        /\ (inst_cell <$> instances st' !! inst) = Some new_cell).
Proof. apply resizeToTargetSlew1_effect. Qed.

Lemma resizeToTargetSlew1_frame_witness :
  resizeToTargetSlew1 ex_design "u0"%string ex_resizer = Some (tt, ex_resized)
  /\ nets ex_resized = nets ex_resizer
  /\ connections ex_resized = connections ex_resizer
  /\ dom (instances ex_resized) = dom (instances ex_resizer).
Proof.
  assert (Hrun : resizeToTargetSlew1 ex_design "u0"%string ex_resizer
                 = Some (tt, ex_resized)) by (vm_compute; reflexivity).
  split; [exact Hrun |].
  destruct (resizeToTargetSlew1_frame ex_design "u0"%string ex_resizer
              ex_resized Hrun) as [-> | (c & _ & Hn & Hc & Hd & _)].
  - repeat split.
  - repeat split; assumption.
Defined.

(** ** Shape of the options of the bottom-up pass *)

Lemma junctions_nil_r (k_loc : DefPt) (Zl : list RebufferOption) :
  junctions k_loc Zl [] = [].
Proof.
  unfold junctions. induction Zl as [| p Zl IH]; [reflexivity |].
  exact IH.
Qed.

(** X4.  A Steiner point with a branch that yields no option yields no
    option itself, whatever the other branch yields: there is nothing to
    combine.  So a point with a single branch, the other being the null
    point, drops the options of its branch. *)
Theorem rebufferBottomUp_empty_branch (sta : Sta) (buffer_cell : LibertyCell)
    (k_loc prev_loc : DefPt) (k_left k_right : SteinerPt) :
  rebufferBottomUp sta k_left k_loc buffer_cell = []
  \/ rebufferBottomUp sta k_right k_loc buffer_cell = [] ->
  rebufferBottomUp sta (steiner_pt None k_loc k_left k_right) prev_loc buffer_cell
  = [].
Proof.
  intros H. cbn [rebufferBottomUp].
  assert (Hj : junctions k_loc
                 (rebufferBottomUp sta k_left k_loc buffer_cell)
                 (rebufferBottomUp sta k_right k_loc buffer_cell) = []).
  { destruct H as [-> | ->]; [reflexivity | apply junctions_nil_r]. }
  rewrite Hj. reflexivity.
Qed.

Lemma rebufferBottomUp_empty_branch_witness :
  rebufferBottomUp ex_design null_pt (0, 0)%Z BUF = []
  /\ rebufferBottomUp ex_design ex_sinkA (0, 0)%Z BUF <> []
  /\ rebufferBottomUp ex_design
       (steiner_pt None (0, 0)%Z ex_sinkA null_pt) (0, 0)%Z BUF = [].
Proof.
  split; [reflexivity |]. split; [vm_compute; discriminate |].
  apply (rebufferBottomUp_empty_branch ex_design BUF (0, 0)%Z (0, 0)%Z
           ex_sinkA null_pt).
  right. reflexivity.
Defined.

Lemma rebufferBottomUp_options (sta : Sta) (buffer_cell : LibertyCell)
    (k : SteinerPt) (prev_loc : DefPt) (z : RebufferOption) :
  z ∈ rebufferBottomUp sta k prev_loc buffer_cell ->
  (type z = wire \/ type z = buffer)
  /\ location z = prev_loc
  /\ wellFormed z = true.
Proof.
  revert prev_loc z.
  induction k as [| pin k_loc kl IHl kr IHr]; intros prev_loc z; simpl.
  - intros Hz. inversion Hz.
  - assert (Hstep : forall Z,
              (forall p, p ∈ Z -> wellFormed p = true) ->
              z ∈ addWireAndBuffer sta Z k_loc prev_loc buffer_cell ->
              (type z = wire \/ type z = buffer)
              /\ location z = prev_loc /\ wellFormed z = true).
    { intros Z HZ Hz. apply addWireAndBuffer_elem in Hz as (p & Hp & Hz).
      specialize (HZ p Hp).
      destruct Hz as [-> | [best ->]]; simpl; auto. }
    destruct pin as [pin |].
    + destruct (isLoad sta pin); [| intros Hz; inversion Hz].
      apply Hstep. intros p Hp. apply list_elem_of_singleton in Hp as ->.
      reflexivity.
    + apply Hstep. intros p Hp.
      apply prune_subset, junctions_elem in Hp as (pl & pr & Hpl & Hpr & ->).
      simpl. apply IHl in Hpl as (_ & _ & ->). apply IHr in Hpr as (_ & _ & ->).
      reflexivity.
Qed.

(** X5.  Every option the bottom-up pass hands to the point above is a
    wire or a buffer option located at that point, and no pointer that the
    top-down pass follows from it is null. *)
Theorem rebufferBottomUp_shape (sta : Sta) (buffer_cell : LibertyCell)
    (k : SteinerPt) (prev_loc : DefPt) (z : RebufferOption) :
  z ∈ rebufferBottomUp sta k prev_loc buffer_cell ->
  (type z = wire \/ type z = buffer)
  /\ location z = prev_loc
  /\ wellFormed z = true.
Proof. apply rebufferBottomUp_options. Qed.

Lemma rebufferBottomUp_shape_witness :
  wireOption ex_design (0, 0)%Z (0, 0)%Z (sinkOption ex_design loadA (0, 0)%Z)
    ∈ rebufferBottomUp ex_design ex_sinkA (0, 0)%Z BUF
  /\ wellFormed
       (wireOption ex_design (0, 0)%Z (0, 0)%Z
          (sinkOption ex_design loadA (0, 0)%Z)) = true.
Proof.
  assert (Hz : wireOption ex_design (0, 0)%Z (0, 0)%Z
                 (sinkOption ex_design loadA (0, 0)%Z)
               ∈ rebufferBottomUp ex_design ex_sinkA (0, 0)%Z BUF).
  { vm_compute. left. }
  split; [exact Hz |].
  exact (proj2 (proj2 (rebufferBottomUp_shape ex_design BUF ex_sinkA (0, 0)%Z
                         _ Hz))).
Defined.

(** ** The top-down pass *)

Lemma RebufferOption_ind' (P : RebufferOption -> Prop) :
  (forall ty c r lp loc o1 o2,
     match o1 with Some x => P x | None => True end ->
     match o2 with Some x => P x | None => True end ->
     P (mkRebufferOption ty c r lp loc o1 o2)) ->
  forall o, P o.
Proof.
  intros H. fix IH 1. intros [ty c r lp loc o1 o2]. apply H.
  - destruct o1 as [x |]; [apply IH | exact I].
  - destruct o2 as [x |]; [apply IH | exact I].
Qed.

Lemma topDownKeeps_trans (p q choice : RebufferOption) (n1 n2 : Z)
    (st st1 st2 : Resizer) :
  insertedBuffers choice = (insertedBuffers p + insertedBuffers q)%nat ->
  topDownKeeps p n1 st st1 -> topDownKeeps q n2 st1 st2 ->
  topDownKeeps choice (n1 + n2)%Z st st2.
Proof.
  unfold topDownKeeps. intros ->.
  intros (A1 & A2 & A3 & A4 & A5 & A6 & A7 & A8 & A9 & A10 & A11 & A12 & A13)
         (B1 & B2 & B3 & B4 & B5 & B6 & B7 & B8 & B9 & B10 & B11 & B12 & B13).
  repeat split; try congruence; try lia; try (etrans; eassumption); auto.
Qed.

Lemma rebufferTopDown_keeps (sta : Sta) (buffer_cell : LibertyCell) :
  forall choice net st n st',
    rebufferTopDown sta choice net buffer_cell st = Some (n, st') ->
    topDownKeeps choice n st st'.
Proof.
  induction choice as [ty c r lp loc o1 o2 IH1 IH2] using RebufferOption_ind'.
  intros net st n st'. destruct ty; cbn [rebufferTopDown type ref ref2 loadPin location].
  - (* sink *)
    destruct lp as [[load_inst load_port] |]; [| discriminate].
    unfold bind, gets, ret, disconnectPin, connectPin, modify.
    case_bool_decide; intros [= <- <-]; unfold topDownKeeps; simpl;
      repeat split; try reflexivity; try lia; try done.
    rewrite dom_insert_L, dom_delete_L. intros x Hx.
    destruct (decide (x = (load_inst, load_port))) as [-> | Hne].
    + apply elem_of_union_l, elem_of_singleton. reflexivity.
    + apply elem_of_union_r, elem_of_difference. split; [exact Hx |].
      rewrite elem_of_singleton. exact Hne.
  - (* junction *)
    destruct o1 as [p |]; [| discriminate]. destruct o2 as [q |]; [| discriminate].
    unfold bind.
    destruct (rebufferTopDown sta p net buffer_cell st) as [[n1 st1] |] eqn:E1;
      [| discriminate].
    destruct (rebufferTopDown sta q net buffer_cell st1) as [[n2 st2] |] eqn:E2;
      [| discriminate].
    unfold ret. intros [= <- <-].
    eapply topDownKeeps_trans; [reflexivity | eapply IH1, E1 | eapply IH2, E2].
  - (* wire *)
    destruct o1 as [p |]; [| discriminate]. intros H.
    apply IH1 in H. exact H.
  - (* buffer *)
    destruct (makeUniqueNetName_fresh st) as (net2 & i' & Hnet & Hfresh & Hi).
    unfold bind at 1. rewrite Hnet.
    destruct (makeUniqueBufferName_fresh (set_unique_net_index i' st))
      as (buf & j' & Hbuf & Hfreshb & Hj).
    unfold bind at 1. rewrite Hbuf. simpl in Hfreshb, Hj.
    unfold makeNet, makeInstance, connectPin, setLocation, makeNetParasitics,
      modify, ret, bind at 1 2 3 4 5.
    destruct (bufferPorts sta buffer_cell) as [input output].
    unfold bind at 1 2 3. destruct o1 as [p |]; [| discriminate].
    unfold bind at 1.
    match goal with
    | |- context [rebufferTopDown sta p net2 buffer_cell ?s] =>
        set (st_mid := s);
        destruct (rebufferTopDown sta p net2 buffer_cell st_mid)
          as [[n1 st1] |] eqn:E1; [| discriminate]
    end.
    unfold bind. intros [= <- <-].
    apply IH1 in E1. unfold topDownKeeps in E1 |- *. subst st_mid.
    cbn in E1 |- *.
    destruct E1 as (A1 & A2 & A3 & A4 & A5 & A6 & A7 & A8 & A9 & A10 & A11 & A12 & A13).
    assert (Hsn : size ({[net2]} ∪ nets st) = S (size (nets st))).
    { rewrite size_union by (apply disjoint_singleton_l; exact Hfresh).
      rewrite size_singleton. reflexivity. }
    assert (Hsi : forall d f,
               size (alter f buf (<[buf := d]> (instances st)))
               = S (size (instances st))).
    { intros d f. transitivity (size (<[buf := d]> (instances st)));
        [| now apply map_size_insert_None].
      rewrite <- !size_dom, dom_alter_L. reflexivity. }
    rewrite Hsn in A1. rewrite Hsi in A2.
    split; [lia |]. split; [lia |].
    split; [etrans; [apply union_subseteq_r | exact A3] |].
    split.
    { intros i d Hi'. apply A4.
      assert (buf <> i).
      { intros <-. pose proof (eq_trans (eq_sym Hi') Hfreshb) as X.
        discriminate X. }
      rewrite lookup_alter_ne, lookup_insert_ne by assumption. exact Hi'. }
    split.
    { etrans; [| exact A5].
      etrans; [apply dom_insert_subseteq |]. apply dom_insert_subseteq. }
    repeat split; try congruence; try lia.
Qed.

Lemma rebufferTopDown_returns (sta : Sta) (buffer_cell : LibertyCell) :
  forall choice,
    wellFormed choice = true ->
    forall net st,
    exists n st', rebufferTopDown sta choice net buffer_cell st = Some (n, st').
Proof.
  induction choice as [ty c r lp loc o1 o2 IH1 IH2] using RebufferOption_ind'.
  intros Hwf net st.
  destruct ty; cbn [rebufferTopDown type ref ref2 loadPin location];
    cbn [wellFormed] in Hwf.
  - (* sink *)
    destruct lp as [load_pin |]; [| vm_compute in Hwf; discriminate].
    unfold bind, gets, ret, disconnectPin, connectPin, modify.
    clear Hwf. destruct (bool_decide _); simpl; eauto.
  - (* junction *)
    destruct o1 as [p |]; [| discriminate]. destruct o2 as [q |];
      [| now rewrite andb_false_r in Hwf].
    apply andb_true_iff in Hwf as [Hp Hq].
    destruct (IH1 Hp net st) as (n1 & st1 & E1).
    destruct (IH2 Hq net st1) as (n2 & st2 & E2).
    unfold bind. rewrite E1, E2. unfold ret. eauto.
  - (* wire *)
    destruct o1 as [p |]; [| discriminate]. apply IH1. exact Hwf.
  - (* buffer *)
    destruct o1 as [p |]; [| discriminate].
    destruct (makeUniqueNetName_fresh st) as (net2 & i' & Hnet & _).
    unfold bind at 1. rewrite Hnet.
    destruct (makeUniqueBufferName_fresh (set_unique_net_index i' st))
      as (buf & j' & Hbuf & _).
    unfold bind at 1. rewrite Hbuf.
    unfold makeNet, makeInstance, connectPin, setLocation, makeNetParasitics,
      modify, ret, bind at 1 2 3 4 5.
    destruct (bufferPorts sta buffer_cell) as [input output].
    unfold bind at 1 2 3. unfold bind at 1.
    match goal with
    | |- context [rebufferTopDown sta p net2 buffer_cell ?s] =>
        destruct (IH1 Hwf net2 s) as (n1 & st1 & E1); rewrite E1
    end.
    unfold bind. eauto.
Qed.

(** X6.  The top-down pass returns for every option that the bottom-up
    pass makes, on whatever net and in whatever state of the network it is
    started: it meets no null pointer and finds a free name for every net
    and buffer it makes. *)
Theorem rebufferTopDown_total_on_bottomUp (sta : Sta) (buffer_cell : LibertyCell)
    (k : SteinerPt) (prev_loc : DefPt) (z : RebufferOption) (net : Net)
    (st : Resizer) :
  z ∈ rebufferBottomUp sta k prev_loc buffer_cell ->
  exists n st', rebufferTopDown sta z net buffer_cell st = Some (n, st').
Proof.
  intros Hz. apply rebufferTopDown_returns.
  now apply rebufferBottomUp_options in Hz as (_ & _ & Hwf).
Qed.

Lemma rebufferTopDown_total_on_bottomUp_witness :
  wireOption ex_design (0, 0)%Z (0, 0)%Z (sinkOption ex_design loadA (0, 0)%Z)
    ∈ rebufferBottomUp ex_design ex_sinkA (0, 0)%Z BUF
  /\ exists n st',
       rebufferTopDown ex_design
         (wireOption ex_design (0, 0)%Z (0, 0)%Z
            (sinkOption ex_design loadA (0, 0)%Z))
         "n1"%string BUF ex_resizer = Some (n, st').
Proof.
  assert (Hz : wireOption ex_design (0, 0)%Z (0, 0)%Z
                 (sinkOption ex_design loadA (0, 0)%Z)
               ∈ rebufferBottomUp ex_design ex_sinkA (0, 0)%Z BUF).
  { vm_compute. left. }
  split; [exact Hz |].
  exact (rebufferTopDown_total_on_bottomUp ex_design BUF ex_sinkA (0, 0)%Z _
           "n1"%string ex_resizer Hz).
Defined.

(** X7.  A walk of the top-down pass makes one net and one instance for
    every buffer option on its way and no other; the count it returns is
    positive exactly when it made one, and never more than it made. *)
Theorem rebufferTopDown_makes_buffers (sta : Sta) (buffer_cell : LibertyCell)
    (choice : RebufferOption) (net : Net) (st st' : Resizer) (n : Z) :
  rebufferTopDown sta choice net buffer_cell st = Some (n, st') ->
  size (instances st') = (size (instances st) + insertedBuffers choice)%nat
  /\ size (nets st') = (size (nets st) + insertedBuffers choice)%nat
  /\ (0 <= n <= Z.of_nat (insertedBuffers choice))%Z
  /\ (n = 0%Z <-> insertedBuffers choice = 0%nat).
Proof.
  intros H. apply rebufferTopDown_keeps in H.
  destruct H as (A1 & A2 & _ & _ & _ & A6 & A7 & _). auto.
Qed.

(** X8.  The top-down pass removes nothing: every net stays, every
    instance keeps its cell and its location, every pin that was connected
    is connected afterwards, and the counters of the passes and the
    levelized list are as before. *)
Theorem rebufferTopDown_keeps_netlist (sta : Sta) (buffer_cell : LibertyCell)
    (choice : RebufferOption) (net : Net) (st st' : Resizer) (n : Z) :
  rebufferTopDown sta choice net buffer_cell st = Some (n, st') ->
  nets st ⊆ nets st'
  /\ (forall i d, instances st !! i = Some d -> instances st' !! i = Some d)
  /\ dom (connections st) ⊆ dom (connections st')
  /\ resize_count_ st' = resize_count_ st
  /\ inserted_buffer_count_ st' = inserted_buffer_count_ st
  /\ rebuffer_net_count_ st' = rebuffer_net_count_ st
  /\ level_drvr_verticies_ st' = level_drvr_verticies_ st.
Proof.
  intros H. apply rebufferTopDown_keeps in H.
  destruct H as (_ & _ & A3 & A4 & A5 & _ & _ & A8 & A9 & A10 & A11 & _).
  auto 10.
Qed.

Lemma rebufferTopDown_makes_buffers_witness :
  exists n st',
    rebufferTopDown ex_design
      (bufferOption ex_design BUF (0, 0)%Z 97
         (sinkOption ex_design loadA (0, 0)%Z))
      "n1"%string BUF ex_resizer = Some (n, st')
    /\ size (instances st') = (size (instances ex_resizer) + 1)%nat
    /\ size (nets st') = (size (nets ex_resizer) + 1)%nat
    /\ n = 1%Z.
Proof.
  destruct (rebufferTopDown ex_design
              (bufferOption ex_design BUF (0, 0)%Z 97
                 (sinkOption ex_design loadA (0, 0)%Z))
              "n1"%string BUF ex_resizer) as [[n st'] |] eqn:E;
    [| vm_compute in E; discriminate].
  exists n, st'. split; [reflexivity |].
  destruct (rebufferTopDown_makes_buffers _ _ _ _ _ _ _ E) as (H1 & H2 & H3 & H4).
  simpl in H1, H2, H3, H4. repeat split; try assumption. lia.
Defined.

Lemma rebufferTopDown_keeps_netlist_witness :
  exists n st',
    rebufferTopDown ex_design
      (bufferOption ex_design BUF (0, 0)%Z 97
         (sinkOption ex_design loadA (0, 0)%Z))
      "n1"%string BUF ex_resizer = Some (n, st')
    /\ nets ex_resizer ⊆ nets st'
    /\ dom (connections ex_resizer) ⊆ dom (connections st')
    /\ inserted_buffer_count_ st' = inserted_buffer_count_ ex_resizer.
Proof.
  destruct (rebufferTopDown ex_design
              (bufferOption ex_design BUF (0, 0)%Z 97
                 (sinkOption ex_design loadA (0, 0)%Z))
              "n1"%string BUF ex_resizer) as [[n st'] |] eqn:E;
    [| vm_compute in E; discriminate].
  exists n, st'. split; [reflexivity |].
  destruct (rebufferTopDown_keeps_netlist _ _ _ _ _ _ _ E)
    as (H1 & _ & H3 & _ & H5 & _).
  auto.
Defined.

(** ** Counters of rebuffering *)

Lemma rebuffer_counts (sta : Sta) (drvr_pin : Pin) (buffer_cell : LibertyCell)
    (st st' : Resizer) :
  rebuffer sta drvr_pin buffer_cell st = Some (tt, st') ->
  exists made : nat,
    size (instances st') = (size (instances st) + made)%nat
    /\ size (nets st') = (size (nets st) + made)%nat
    /\ (inserted_buffer_count_ st <= inserted_buffer_count_ st'
        <= inserted_buffer_count_ st + Z.of_nat made)%Z
    /\ (inserted_buffer_count_ st' = inserted_buffer_count_ st <-> made = 0%nat)
    /\ rebuffer_net_count_ st'
       = (rebuffer_net_count_ st + (if decide (made = 0%nat) then 0 else 1))%Z
    /\ resize_count_ st' = resize_count_ st
    /\ nets st ⊆ nets st'
    /\ (forall i d, instances st !! i = Some d -> instances st' !! i = Some d)
    /\ dom (connections st) ⊆ dom (connections st')
    /\ level_drvr_verticies_ st' = level_drvr_verticies_ st.
Proof.
  assert (Hsame : exists made : nat,
            size (instances st) = (size (instances st) + made)%nat
            /\ size (nets st) = (size (nets st) + made)%nat
            /\ (inserted_buffer_count_ st <= inserted_buffer_count_ st
                <= inserted_buffer_count_ st + Z.of_nat made)%Z
            /\ (inserted_buffer_count_ st = inserted_buffer_count_ st
                <-> made = 0%nat)
            /\ rebuffer_net_count_ st
               = (rebuffer_net_count_ st
                  + (if decide (made = 0%nat) then 0 else 1))%Z
            /\ resize_count_ st = resize_count_ st
            /\ nets st ⊆ nets st
            /\ (forall i d, instances st !! i = Some d -> instances st !! i = Some d)
            /\ dom (connections st) ⊆ dom (connections st)
            /\ level_drvr_verticies_ st = level_drvr_verticies_ st).
  { exists 0%nat. simpl. repeat split; try lia; auto. }
  unfold rebuffer, bind, gets.
  destruct (connections st !! drvr_pin) as [net |]; [| discriminate].
  destruct (makeSteinerTree sta net) as [| ? drvr_loc drvr_left ?]; [discriminate |].
  destruct (negb (fuzzyInf (pinRequired sta drvr_pin)));
    [| unfold ret; intros [= <-]; exact Hsame].
  destruct (rebufferBottomUp sta drvr_left drvr_loc buffer_cell) as [| z Z];
    [unfold ret; intros [= <-]; exact Hsame |].
  destruct (if isTopLevelPort sta drvr_pin
            then Some (snd (bufferPorts sta buffer_cell))
            else libertyPort sta drvr_pin) as [drvr_port |]; [| discriminate].
  destruct (rebuffer_best sta drvr_port (z :: Z) (- INF) None) as [best |];
    [| unfold ret; intros [= <-]; exact Hsame].
  destruct (rebufferTopDown sta best net buffer_cell st) as [[n st1] |] eqn:E;
    [| discriminate].
  apply rebufferTopDown_keeps in E.
  destruct E as (A1 & A2 & A3 & A4 & A5 & A6 & A7 & A8 & A9 & A10 & A11 & A12 & A13).
  intros Hrun. exists (insertedBuffers best).
  destruct (0 <? n)%Z eqn:Hn.
  - apply Z.ltb_lt in Hn. unfold modify in Hrun. simpl in Hrun.
    injection Hrun as <-. simpl.
    assert (insertedBuffers best <> 0%nat) by (intros H0; apply A7 in H0; lia).
    destruct (decide (insertedBuffers best = 0%nat)); [contradiction |].
    rewrite A9, A10. repeat split; auto; try lia.
  - apply Z.ltb_ge in Hn. unfold ret in Hrun. injection Hrun as <-.
    assert (Hn0 : n = 0%Z) by lia. apply A7 in Hn0.
    destruct (decide (insertedBuffers best = 0%nat)); [| contradiction].
    rewrite A9, A10. repeat split; auto; try lia.
Qed.

(** X9.  Rebuffering a driver makes as many nets as buffer instances and
    removes nothing: every net stays, every instance stays as it is, and
    every pin that was connected is connected afterwards.  The inserted
    buffer count never goes down and grows by at most the number of
    instances made; it grows, and the rebuffered net count grows by 1,
    exactly when an instance was made. *)
Theorem rebuffer_counters (sta : Sta) (drvr_pin : Pin)
    (buffer_cell : LibertyCell) (st st' : Resizer) :
  rebuffer sta drvr_pin buffer_cell st = Some (tt, st') ->
  exists made : nat,
    size (instances st') = (size (instances st) + made)%nat
    /\ size (nets st') = (size (nets st) + made)%nat
    /\ (inserted_buffer_count_ st <= inserted_buffer_count_ st'
        <= inserted_buffer_count_ st + Z.of_nat made)%Z
    /\ (inserted_buffer_count_ st' = inserted_buffer_count_ st <-> made = 0%nat)
    /\ rebuffer_net_count_ st'
       = (rebuffer_net_count_ st + (if decide (made = 0%nat) then 0 else 1))%Z
    /\ resize_count_ st' = resize_count_ st
    /\ nets st ⊆ nets st'
    /\ (forall i d, instances st !! i = Some d -> instances st' !! i = Some d)
    /\ dom (connections st) ⊆ dom (connections st').
Proof.
  intros H. destruct (rebuffer_counts _ _ _ _ _ H)
    as (made & H1 & H2 & H3 & H4 & H5 & H6 & H7 & H8 & H9 & _).
  exists made. do 8 (split; [assumption |]). assumption.
Qed.

Lemma rebuffer_counters_witness :
  exists st',
    rebuffer ex_design drvr BUF ex_resizer = Some (tt, st')
    /\ nets ex_resizer ⊆ nets st'
    /\ exists made : nat,
         size (instances st') = (size (instances ex_resizer) + made)%nat
         /\ (inserted_buffer_count_ ex_resizer <= inserted_buffer_count_ st'
             <= inserted_buffer_count_ ex_resizer + Z.of_nat made)%Z.
Proof.
  destruct (rebuffer ex_design drvr BUF ex_resizer) as [[[] st'] |] eqn:E;
    [| vm_compute in E; discriminate].
  exists st'. split; [reflexivity |].
  destruct (rebuffer_counters _ _ _ _ _ E)
    as (made & H1 & _ & H3 & _ & _ & _ & H7 & _).
  split; [exact H7 |]. exists made. auto.
Defined.

(** ** Unique names *)

Lemma makeUniqueNetName_loop_first (fuel : nat) :
  forall st name st',
    makeUniqueNetName_loop fuel st = Some (name, st') ->
    exists k,
      (unique_net_index_ st <= k)%Z
      /\ name = ("net" +:+ pretty k)%string
      /\ st' = set_unique_net_index (k + 1)%Z st
      /\ (forall j, (unique_net_index_ st <= j < k)%Z ->
            ("net" +:+ pretty j)%string ∈ nets st).
Proof.
  induction fuel as [| fuel IH]; intros st name st'; [discriminate |].
  cbn [makeUniqueNetName_loop]. unfold bind, gets, modify, findNet, ret. simpl.
  case_bool_decide as Hfound.
  - intros H. apply IH in H as (k & Hk & -> & -> & Hlow). simpl in Hk, Hlow.
    exists k. split; [lia |]. split; [reflexivity |]. split; [reflexivity |].
    intros j Hj. destruct (decide (j = unique_net_index_ st)) as [-> | Hne];
      [exact Hfound | apply Hlow; lia].
  - intros [= <- <-]. exists (unique_net_index_ st).
    split; [lia |]. split; [reflexivity |]. split; [reflexivity |].
    intros j Hj. lia.
Qed.

(** The first free index is no further from the start than there are
    names. *)
Lemma first_free_index_bound (prefix : string) (i k : Z) (X : gset string) :
  (i <= k)%Z ->
  (forall j, (i <= j < k)%Z -> (prefix +:+ pretty j)%string ∈ X) ->
  (k <= i + Z.of_nat (size X))%Z.
Proof.
  intros Hik Hlow.
  assert (H : (Z.to_nat (k - i) <= size X)%nat).
  { apply (indexed_names_size prefix i). intros n Hn. apply Hlow. lia. }
  lia.
Qed.

(** X10.  As long as the unique net index, an [int], cannot reach
    [INT_MAX], because index and number of nets together stay below it,
    [makeUniqueNetName] returns the name [net<k>] for the first index [k],
    from the unique net index on, whose name no net of the top instance
    carries, and leaves the index at [k + 1], which is an [int] still;
    nothing else of the resizer changes. *)
Theorem makeUniqueNetName_first_free (st : Resizer) :
  (unique_net_index_ st + Z.of_nat (size (nets st)) < INT_MAX)%Z ->
  exists k,
    makeUniqueNetName st
    = Some (("net" +:+ pretty k)%string, set_unique_net_index (k + 1)%Z st)
    /\ (unique_net_index_ st <= k)%Z
    /\ (k + 1 <= INT_MAX)%Z
    /\ (("net" +:+ pretty k)%string ∉ nets st)
    /\ (forall j, (unique_net_index_ st <= j < k)%Z ->
          ("net" +:+ pretty j)%string ∈ nets st).
Proof.
  intros Hmax.
  destruct (makeUniqueNetName_fresh st) as (name & i' & Hrun & Hfresh & _).
  pose proof Hrun as Hloop. unfold makeUniqueNetName, bind, gets in Hloop.
  apply makeUniqueNetName_loop_first in Hloop as (k & Hk & -> & Hst & Hlow).
  pose proof (first_free_index_bound "net" _ k (nets st) Hk Hlow) as Hbound.
  exists k. rewrite Hrun, Hst.
  split; [reflexivity |]. split; [exact Hk |].
  split; [pose proof (Z.le_lt_trans _ _ _ Hbound Hmax); lia |]. auto.
Qed.

Lemma makeUniqueNetName_first_free_witness :
  (unique_net_index_ ex_resizer + Z.of_nat (size (nets ex_resizer)) < INT_MAX)%Z
  /\ exists k,
       makeUniqueNetName ex_resizer
       = Some (("net" +:+ pretty k)%string,
               set_unique_net_index (k + 1)%Z ex_resizer)
       /\ (k + 1 <= INT_MAX)%Z.
Proof.
  assert (Hmax : (unique_net_index_ ex_resizer
                  + Z.of_nat (size (nets ex_resizer)) < INT_MAX)%Z)
    by (vm_compute; reflexivity).
  split; [exact Hmax |].
  destruct (makeUniqueNetName_first_free ex_resizer Hmax)
    as (k & Hrun & _ & Hk & _).
  exists k. split; [exact Hrun | exact Hk].
Defined.

Lemma makeUniqueBufferName_loop_first (fuel : nat) :
  forall st name st',
    makeUniqueBufferName_loop fuel st = Some (name, st') ->
    exists k,
      (unique_buffer_index_ st <= k)%Z
      /\ name = ("buffer" +:+ pretty k)%string
      /\ st' = set_unique_buffer_index (k + 1)%Z st
      /\ (forall j, (unique_buffer_index_ st <= j < k)%Z ->
            is_Some (instances st !! ("buffer" +:+ pretty j)%string)).
Proof.
  induction fuel as [| fuel IH]; intros st name st'; [discriminate |].
  cbn [makeUniqueBufferName_loop].
  unfold bind, gets, modify, findInstance, ret. simpl.
  case_bool_decide as Hfound.
  - intros H. apply IH in H as (k & Hk & -> & -> & Hlow). simpl in Hk, Hlow.
    exists k. split; [lia |]. split; [reflexivity |]. split; [reflexivity |].
    intros j Hj. destruct (decide (j = unique_buffer_index_ st)) as [-> | Hne];
      [exact Hfound | apply Hlow; lia].
  - intros [= <- <-]. exists (unique_buffer_index_ st).
    split; [lia |]. split; [reflexivity |]. split; [reflexivity |].
    intros j Hj. lia.
Qed.

(** X11.  As long as the unique buffer index, an [int], cannot reach
    [INT_MAX], because index and number of instances together stay below
    it, [makeUniqueBufferName] returns the name [buffer<k>] for the first
    index [k], from the unique buffer index on, whose name no instance
    carries, and leaves the index at [k + 1], which is an [int] still. *)
Theorem makeUniqueBufferName_first_free (st : Resizer) :
  (unique_buffer_index_ st + Z.of_nat (size (instances st)) < INT_MAX)%Z ->
  exists k,
    makeUniqueBufferName st
    = Some (("buffer" +:+ pretty k)%string, set_unique_buffer_index (k + 1)%Z st)
    /\ (unique_buffer_index_ st <= k)%Z
    /\ (k + 1 <= INT_MAX)%Z
    /\ instances st !! ("buffer" +:+ pretty k)%string = None
    /\ (forall j, (unique_buffer_index_ st <= j < k)%Z ->
          is_Some (instances st !! ("buffer" +:+ pretty j)%string)).
Proof.
  intros Hmax.
  destruct (makeUniqueBufferName_fresh st) as (name & i' & Hrun & Hfresh & _).
  pose proof Hrun as Hloop. unfold makeUniqueBufferName, bind, gets in Hloop.
  apply makeUniqueBufferName_loop_first in Hloop as (k & Hk & -> & Hst & Hlow).
  assert (Hbound : (k <= unique_buffer_index_ st
                         + Z.of_nat (size (dom (instances st))))%Z).
  { apply (first_free_index_bound "buffer"); [exact Hk |].
    intros j Hj. apply elem_of_dom, Hlow, Hj. }
  rewrite size_dom in Hbound.
  exists k. rewrite Hrun, Hst.
  split; [reflexivity |]. split; [exact Hk |].
  split; [pose proof (Z.le_lt_trans _ _ _ Hbound Hmax); lia |]. auto.
Qed.

Lemma makeUniqueBufferName_first_free_witness :
  (unique_buffer_index_ ex_resizer
   + Z.of_nat (size (instances ex_resizer)) < INT_MAX)%Z
  /\ exists k,
       makeUniqueBufferName ex_resizer
       = Some (("buffer" +:+ pretty k)%string,
               set_unique_buffer_index (k + 1)%Z ex_resizer)
       /\ (k + 1 <= INT_MAX)%Z.
Proof.
  assert (Hmax : (unique_buffer_index_ ex_resizer
                  + Z.of_nat (size (instances ex_resizer)) < INT_MAX)%Z)
    by (vm_compute; reflexivity).
  split; [exact Hmax |].
  destruct (makeUniqueBufferName_first_free ex_resizer Hmax)
    as (k & Hrun & _ & Hk & _).
  exists k. split; [exact Hrun | exact Hk].
Defined.

(** ** The passes *)

Lemma elem_of_rev {A} (x : A) (l : list A) : x ∈ rev l <-> x ∈ l.
Proof. rewrite !list_elem_of_In. symmetry. apply in_rev. Qed.

Lemma rebufferKeeps_refl (st : Resizer) : rebufferKeeps st st.
Proof. exists 0%nat. repeat split; auto; lia. Qed.

Lemma rebufferKeeps_trans (st st1 st2 : Resizer) :
  rebufferKeeps st st1 -> rebufferKeeps st1 st2 -> rebufferKeeps st st2.
Proof.
  intros (m1 & A1 & A2 & A3 & A4 & A5 & A6 & A7 & A8 & A9)
         (m2 & B1 & B2 & B3 & B4 & B5 & B6 & B7 & B8 & B9).
  exists (m1 + m2)%nat.
  repeat split; try congruence; try lia; try (etrans; eassumption); auto.
Qed.

Lemma rebuffer_keeps (sta : Sta) (drvr_pin : Pin) (buffer_cell : LibertyCell)
    (st st' : Resizer) :
  rebuffer sta drvr_pin buffer_cell st = Some (tt, st') -> rebufferKeeps st st'.
Proof.
  intros H. apply rebuffer_counts in H
    as (made & H1 & H2 & H3 & H4 & H5 & H6 & H7 & H8 & H9 & H10).
  exists made. repeat split; auto; try lia.
  - rewrite H5. destruct (decide (made = 0%nat)); lia.
  - rewrite H5. destruct (decide (made = 0%nat)) as [Hm | Hm]; [lia |].
    assert (inserted_buffer_count_ st' <> inserted_buffer_count_ st)
      by (intros He; apply H4 in He; contradiction).
    lia.
Qed.

Lemma rebuffer_loop_keeps (sta_of : Resizer -> Sta)
    (repair_max_cap repair_max_slew : bool) (buffer_cell : LibertyCell)
    (vertices : list Vertex) :
  forall st st',
    rebuffer_loop sta_of repair_max_cap repair_max_slew buffer_cell vertices st
    = Some (tt, st') ->
    rebufferKeeps st st'.
Proof.
  induction vertices as [| vertex vertices IH]; intros st st'.
  - intros [= <-]. apply rebufferKeeps_refl.
  - cbn [rebuffer_loop]. unfold bind at 1. unfold gets at 1. unfold bind at 1.
    set (step := if negb (isClock (sta_of st) vertex) then _ else _).
    destruct (step st) as [[[] st1] |] eqn:Hstep; [| discriminate].
    intros Hrest. apply IH in Hrest.
    eapply rebufferKeeps_trans; [| exact Hrest].
    subst step. destruct (negb (isClock (sta_of st) vertex)).
    + destruct (_ || _).
      * eapply rebuffer_keeps, Hstep.
      * injection Hstep as <-. apply rebufferKeeps_refl.
    + injection Hstep as <-. apply rebufferKeeps_refl.
Qed.

Lemma rebuffer_loop_skips (sta_of : Resizer -> Sta)
    (repair_max_cap repair_max_slew : bool) (buffer_cell : LibertyCell)
    (st : Resizer) (vertices : list Vertex) :
  (forall vertex, vertex ∈ vertices ->
     isClock (sta_of st) vertex = true
     \/ (repair_max_cap && hasMaxCapViolation (sta_of st) (vertex_pin vertex))
        || (repair_max_slew && hasMaxSlewViolation (sta_of st) (vertex_pin vertex))
        = false) ->
  rebuffer_loop sta_of repair_max_cap repair_max_slew buffer_cell vertices st
  = Some (tt, st).
Proof.
  induction vertices as [| vertex vertices IH]; intros Hskip; [reflexivity |].
  cbn [rebuffer_loop]. unfold bind at 1. unfold gets at 1. unfold bind at 1.
  assert (Hstep : (if negb (isClock (sta_of st) vertex) then
                     if (repair_max_cap
                         && hasMaxCapViolation (sta_of st) (vertex_pin vertex))
                        || (repair_max_slew
                            && hasMaxSlewViolation (sta_of st) (vertex_pin vertex))
                     then rebuffer (sta_of st) (vertex_pin vertex) buffer_cell
                     else ret tt
                   else ret tt) st = Some (tt, st)).
  { destruct (Hskip vertex ltac:(left)) as [-> | ->]; [reflexivity |].
    destruct (negb (isClock (sta_of st) vertex)); reflexivity. }
  rewrite Hstep. apply IH. intros v Hv. apply Hskip. now right.
Qed.

(** X12.  The rebuffer pass leaves the resizer as it is when every vertex
    of the levelized list is on the clock network or has no violation of
    a kind that is to be repaired; so it does when neither max capacitance
    nor max slew is to be repaired. *)
Theorem rebuffer_pass_skips (sta_of : Resizer -> Sta)
    (repair_max_cap repair_max_slew : bool) (buffer_cell : LibertyCell)
    (st : Resizer) :
  (forall vertex, vertex ∈ level_drvr_verticies_ st ->
     isClock (sta_of st) vertex = true
     \/ (repair_max_cap && hasMaxCapViolation (sta_of st) (vertex_pin vertex))
        || (repair_max_slew && hasMaxSlewViolation (sta_of st) (vertex_pin vertex))
        = false) ->
  rebuffer_pass sta_of repair_max_cap repair_max_slew buffer_cell st
  = Some (tt, st).
Proof.
  intros Hskip. unfold rebuffer_pass, bind, gets.
  apply rebuffer_loop_skips. intros v Hv. apply Hskip.
  exact (proj1 (elem_of_rev _ _) Hv).
Qed.

Lemma rebuffer_pass_skips_witness :
  rebuffer_pass (fun _ => ex_design) true false BUF
    (set_level_drvr_verticies (graph_vertices ex_design) ex_resizer)
  = Some (tt, set_level_drvr_verticies (graph_vertices ex_design) ex_resizer).
Proof.
  apply (rebuffer_pass_skips (fun _ => ex_design) true false BUF).
  intros vertex Hv. right. simpl in Hv.
  repeat (apply elem_of_cons in Hv as [-> | Hv]; [vm_compute; reflexivity |]).
  inversion Hv.
Defined.

Lemma resizeKeeps_refl (st : Resizer) : resizeKeeps 0 st st.
Proof. unfold resizeKeeps. repeat split; auto; lia. Qed.

Lemma resizeKeeps_trans (n1 n2 : nat) (st st1 st2 : Resizer) :
  resizeKeeps n1 st st1 -> resizeKeeps n2 st1 st2 ->
  resizeKeeps (n1 + n2) st st2.
Proof.
  unfold resizeKeeps.
  intros (A1 & A2 & A3 & A4 & A5 & A6 & A7 & A8)
         (B1 & B2 & B3 & B4 & B5 & B6 & B7 & B8).
  repeat split; try congruence; try lia.
Qed.

Lemma resizeToTargetSlew1_keeps (sta : Sta) (inst : Instance) (st st' : Resizer) :
  resizeToTargetSlew1 sta inst st = Some (tt, st') -> resizeKeeps 1 st st'.
Proof.
  intros H. apply resizeToTargetSlew1_effect in H
    as [-> | (new_cell & -> & H1 & H2 & H3 & H4 & H5 & H6)].
  - unfold resizeKeeps. repeat split; auto; lia.
  - unfold resizeKeeps. split; [exact H1 |]. split; [exact H2 |].
    split; [exact H3 |]. split.
    + intros i. destruct (decide (i = inst)) as [-> | Hne];
        [exact H5 | now rewrite H4].
    + simpl. repeat split; lia.
Qed.

Lemma resizeToTargetSlew_loop_keeps (sta_of : Resizer -> Sta)
    (vertices : list Vertex) :
  forall st st',
    resizeToTargetSlew_loop sta_of vertices st = Some (tt, st') ->
    resizeKeeps (length vertices) st st'.
Proof.
  induction vertices as [| vertex vertices IH]; intros st st'.
  - intros [= <-]. apply resizeKeeps_refl.
  - cbn [resizeToTargetSlew_loop]. unfold bind at 1. unfold gets at 1.
    unfold bind at 1.
    destruct (resizeToTargetSlew1 (sta_of st) (fst (vertex_pin vertex)) st)
      as [[[] st1] |] eqn:Hstep; [| discriminate].
    intros Hrest. apply IH in Hrest. apply resizeToTargetSlew1_keeps in Hstep.
    exact (resizeKeeps_trans 1 (length vertices) _ _ _ Hstep Hrest).
Qed.

(** The instances that the loop gives another cell: for each at least
    one vertex whose pin it carries, no more of them than vertices, and
    the resize count counts them. *)
Lemma resizeToTargetSlew_loop_replaces (sta_of : Resizer -> Sta)
    (vertices : list Vertex) :
  forall st st',
    resizeToTargetSlew_loop sta_of vertices st = Some (tt, st') ->
    exists replaced : list Instance,
      (length replaced <= length vertices)%nat
      /\ (forall inst, inst ∈ replaced ->
            exists vertex, vertex ∈ vertices /\ inst = fst (vertex_pin vertex))
      /\ resize_count_ st' = (resize_count_ st + Z.of_nat (length replaced))%Z
      /\ (forall inst, inst ∉ replaced ->
            instances st' !! inst = instances st !! inst).
Proof.
  induction vertices as [| vertex vertices IH]; intros st st'.
  - intros [= <-]. exists []. split; [reflexivity |]. split.
    + intros inst Hin. inversion Hin.
    + split; [simpl; lia | reflexivity].
  - cbn [resizeToTargetSlew_loop]. unfold bind at 1. unfold gets at 1.
    unfold bind at 1.
    destruct (resizeToTargetSlew1 (sta_of st) (fst (vertex_pin vertex)) st)
      as [[[] st1] |] eqn:Hstep; [| discriminate].
    intros Hrest. apply IH in Hrest as (replaced & Hlen & Hsrc & Hcount & Hsame).
    apply resizeToTargetSlew1_effect in Hstep
      as [-> | (new_cell & Hst1 & _ & _ & _ & Hother & _ & _)].
    + exists replaced. split; [simpl; lia |]. split; [| auto].
      intros inst Hin. destruct (Hsrc inst Hin) as (v & Hv & ->).
      exists v. split; [now right | reflexivity].
    + exists (fst (vertex_pin vertex) :: replaced).
      split; [simpl; lia |]. split; [| split].
      * intros inst Hin. apply elem_of_cons in Hin as [-> | Hin].
        -- exists vertex. split; [left | reflexivity].
        -- destruct (Hsrc inst Hin) as (v & Hv & ->).
           exists v. split; [now right | reflexivity].
      * rewrite Hcount, Hst1. cbn [length resize_count_ set_resize_count]. lia.
      * intros inst Hin. apply not_elem_of_cons in Hin as [Hne Hin].
        rewrite (Hsame inst Hin). apply Hother, Hne.
Qed.

(** X13.  The resize pass changes no net and no connection, makes and
    removes no instance and moves none.  The instances it gives another
    cell are instances of pins of vertices of the levelized list, no more
    of them than the list has vertices; the resize count grows by their
    number, and every other instance is as it was. *)
Theorem resizeToTargetSlew_frame (sta_of : Resizer -> Sta) (st st' : Resizer) :
  resizeToTargetSlew sta_of st = Some (tt, st') ->
  nets st' = nets st
  /\ connections st' = connections st
  /\ dom (instances st') = dom (instances st)
  /\ (forall i, (inst_location <$> instances st' !! i)
              = (inst_location <$> instances st !! i))
  /\ (resize_count_ st <= resize_count_ st'
      <= resize_count_ st + Z.of_nat (length (level_drvr_verticies_ st)))%Z
  /\ inserted_buffer_count_ st' = inserted_buffer_count_ st
  /\ rebuffer_net_count_ st' = rebuffer_net_count_ st
  /\ exists replaced : list Instance,
       (length replaced <= length (level_drvr_verticies_ st))%nat
       /\ (forall inst, inst ∈ replaced ->
             exists vertex,
               vertex ∈ level_drvr_verticies_ st
               /\ inst = fst (vertex_pin vertex))
       /\ resize_count_ st'
          = (resize_count_ st + Z.of_nat (length replaced))%Z
       /\ (forall inst, inst ∉ replaced ->
             instances st' !! inst = instances st !! inst).
Proof.
  unfold resizeToTargetSlew, bind, gets. intros H.
  pose proof (resizeToTargetSlew_loop_replaces _ _ _ _ H)
    as (replaced & Hlen & Hsrc & Hcount & Hsame).
  apply resizeToTargetSlew_loop_keeps in H. rewrite length_rev in H, Hlen.
  destruct H as (A1 & A2 & A3 & A4 & A5 & A6 & A7 & A8).
  do 7 (split; [assumption |]).
  exists replaced. split; [exact Hlen |]. split; [| auto].
  intros inst Hin. destruct (Hsrc inst Hin) as (v & Hv & ->).
  exists v. split; [now apply elem_of_rev | reflexivity].
Qed.

Lemma resizeToTargetSlew_frame_witness :
  exists st',
    resizeToTargetSlew (fun _ => ex_design)
      (set_level_drvr_verticies (graph_vertices ex_design) ex_resizer)
    = Some (tt, st')
    /\ nets st' = nets ex_resizer
    /\ connections st' = connections ex_resizer
    /\ (resize_count_ st' <= 3)%Z.
Proof.
  destruct (resizeToTargetSlew (fun _ => ex_design)
              (set_level_drvr_verticies (graph_vertices ex_design) ex_resizer))
    as [[[] st'] |] eqn:E; [| vm_compute in E; discriminate].
  exists st'. split; [reflexivity |].
  destruct (resizeToTargetSlew_frame _ _ _ E) as (H1 & H2 & _ & _ & H5 & _).
  simpl in H1, H2, H5. repeat split; try assumption. lia.
Defined.

Lemma init_effect (sta_of : Resizer -> Sta) (st : Resizer) :
  exists st0,
    init sta_of st = Some (tt, st0)
    /\ nets st0 = nets st
    /\ instances st0 = instances st
    /\ connections st0 = connections st
    /\ resize_count_ st0 = 0%Z
    /\ inserted_buffer_count_ st0 = 0%Z
    /\ rebuffer_net_count_ st0 = 0%Z
    /\ level_drvr_verticies_valid_ st0 = true.
Proof.
  unfold init, ensureLevelDrvrVerticies, bind, gets, modify, ret.
  destruct (level_drvr_verticies_valid_ st) eqn:Hvalid; simpl;
    eexists; (split; [reflexivity |]); simpl; repeat split; auto.
Qed.

Lemma resize_effect (sta_of : Resizer -> Sta)
    (resize_ repair_max_cap repair_max_slew : bool) (buffer_cell : LibertyCell)
    (st st' : Resizer) (report : list string) :
  resize sta_of resize_ repair_max_cap repair_max_slew buffer_cell st
  = Some (report, st') ->
  exists st0 st1,
    init sta_of st = Some (tt, st0)
    /\ (if resize_
        then resizeKeeps (length (level_drvr_verticies_ st0)) st0 st1
        else st1 = st0)
    /\ (if repair_max_cap || repair_max_slew
        then rebufferKeeps st1 st'
        else st' = st1)
    /\ report
       = (if resize_
          then ["Resized " +:+ pretty (resize_count_ st1) +:+ " instances."
                +:+ newline]%string
          else [])
         ++ (if repair_max_cap || repair_max_slew
             then ["Inserted " +:+ pretty (inserted_buffer_count_ st')
                   +:+ " buffers in " +:+ pretty (rebuffer_net_count_ st')
                   +:+ " nets." +:+ newline]%string
             else []).
Proof.
  destruct (init_effect sta_of st) as (st0 & Hinit & _).
  unfold resize. unfold bind at 1. rewrite Hinit. unfold bind at 1.
  intros H. exists st0.
  assert (Hfirst : exists st1 report1,
            (if resize_
             then resizeToTargetSlew sta_of;;
                  count <- gets resize_count_;;
                  ret ["Resized " +:+ pretty count +:+ " instances."
                       +:+ newline]%string
             else ret []) st0 = Some (report1, st1)
            /\ (if resize_
                then resizeKeeps (length (level_drvr_verticies_ st0)) st0 st1
                else st1 = st0)
            /\ report1
               = (if resize_
                  then ["Resized " +:+ pretty (resize_count_ st1)
                        +:+ " instances." +:+ newline]%string
                  else [])).
  { destruct resize_.
    - unfold bind at 1 in H. unfold bind at 1.
      destruct (resizeToTargetSlew sta_of st0) as [[[] st1] |] eqn:E;
        [| discriminate].
      exists st1. eexists. split; [reflexivity |]. split; [| reflexivity].
      unfold resizeToTargetSlew, bind, gets in E.
      apply resizeToTargetSlew_loop_keeps in E. now rewrite length_rev in E.
    - exists st0, []. auto. }
  destruct Hfirst as (st1 & report1 & Hrun1 & Hkeep1 & ->).
  rewrite Hrun1 in H. exists st1. split; [reflexivity |]. split; [exact Hkeep1 |].
  unfold bind at 1 in H.
  destruct (repair_max_cap || repair_max_slew).
  - unfold bind at 1 in H.
    destruct (rebuffer_pass sta_of repair_max_cap repair_max_slew buffer_cell st1)
      as [[[] st2] |] eqn:E; [| discriminate].
    unfold bind, gets, ret in H. injection H as <- <-.
    split; [| reflexivity].
    unfold rebuffer_pass, bind, gets in E. eapply rebuffer_loop_keeps, E.
  - unfold ret in H. injection H as <- <-. auto.
Qed.

(** X14.  The lines [resize] prints show the counters it leaves: the
    resize count in "Resized N instances." when resizing was asked for,
    the inserted buffer count and the rebuffered net count in "Inserted B
    buffers in M nets." when a repair was asked for, and no line
    otherwise. *)
Theorem resize_reports_counters (sta_of : Resizer -> Sta)
    (resize_ repair_max_cap repair_max_slew : bool) (buffer_cell : LibertyCell)
    (st st' : Resizer) (report : list string) :
  resize sta_of resize_ repair_max_cap repair_max_slew buffer_cell st
  = Some (report, st') ->
  report
  = (if resize_
     then ["Resized " +:+ pretty (resize_count_ st') +:+ " instances."
           +:+ newline]%string
     else [])
    ++ (if repair_max_cap || repair_max_slew
        then ["Inserted " +:+ pretty (inserted_buffer_count_ st')
              +:+ " buffers in " +:+ pretty (rebuffer_net_count_ st')
              +:+ " nets." +:+ newline]%string
        else []).
Proof.
  intros H. apply resize_effect in H as (st0 & st1 & _ & _ & Hreb & ->).
  assert (Hcount : resize_count_ st' = resize_count_ st1).
  { destruct (repair_max_cap || repair_max_slew); [| now subst].
    destruct Hreb as (made & _ & _ & _ & _ & Hr & _). exact Hr. }
  rewrite Hcount. reflexivity.
Qed.

Lemma resize_reports_counters_witness :
  exists st',
    resize (fun _ => ex_design) true true false BUF ex_resizer
    = Some (["Resized 1 instances." +:+ newline;
             "Inserted 0 buffers in 0 nets." +:+ newline]%string, st')
    /\ resize_count_ st' = 1%Z
    /\ inserted_buffer_count_ st' = 0%Z.
Proof.
  destruct (resize (fun _ => ex_design) true true false BUF ex_resizer)
    as [[report st'] |] eqn:E; [| vm_compute in E; discriminate].
  pose proof (resize_reports_counters _ _ _ _ _ _ _ _ E) as Hrep.
  assert (Hc : resize_count_ st' = 1%Z /\ inserted_buffer_count_ st' = 0%Z
               /\ rebuffer_net_count_ st' = 0%Z).
  { vm_compute in E. injection E as _ <-. repeat split. }
  destruct Hc as (H1 & H2 & H3). rewrite H1, H2, H3 in Hrep.
  exists st'. rewrite Hrep. repeat split; assumption.
Defined.

(** X15.  After [resize] the rebuffered net count is at most the inserted
    buffer count, which is at most the number of instances that were
    made; no count is negative, the resize count is at most the length of
    the levelized list, and no net or instance is removed. *)
Theorem resize_counter_bounds (sta_of : Resizer -> Sta)
    (resize_ repair_max_cap repair_max_slew : bool) (buffer_cell : LibertyCell)
    (st st' : Resizer) (report : list string) :
  resize sta_of resize_ repair_max_cap repair_max_slew buffer_cell st
  = Some (report, st') ->
  (0 <= rebuffer_net_count_ st' <= inserted_buffer_count_ st')%Z
  /\ (Z.of_nat (size (instances st)) + inserted_buffer_count_ st'
      <= Z.of_nat (size (instances st')))%Z
  /\ (0 <= resize_count_ st' <= Z.of_nat (length (level_drvr_verticies_ st')))%Z
  /\ nets st ⊆ nets st'
  /\ dom (instances st) ⊆ dom (instances st').
Proof.
  intros H. apply resize_effect in H as (st0 & st1 & Hinit & Hres & Hreb & _).
  destruct (init_effect sta_of st) as (st0' & Hinit' & I1 & I2 & I3 & I4 & I5 & I6 & _).
  rewrite Hinit in Hinit'. injection Hinit' as <-.
  assert (Hr : resizeKeeps (length (level_drvr_verticies_ st0)) st0 st1).
  { destruct resize_; [exact Hres | subst st1].
    unfold resizeKeeps. repeat split; auto; lia. }
  assert (Hb : rebufferKeeps st1 st').
  { destruct (repair_max_cap || repair_max_slew); [exact Hreb | subst st'].
    apply rebufferKeeps_refl. }
  destruct Hr as (A1 & A2 & A3 & A4 & A5 & A6 & A7 & A8).
  destruct Hb as (made & B1 & B2 & B3 & B4 & B5 & B6 & B7 & B8 & B9).
  assert (Hsize : size (instances st1) = size (instances st)).
  { rewrite <- !size_dom, A3, I2. reflexivity. }
  repeat split; try lia.
  - rewrite B6, A8. lia.
  - rewrite <- I1, <- A1. exact B7.
  - rewrite <- I2, <- A3. intros i Hi. apply elem_of_dom in Hi as [d Hd].
    apply elem_of_dom. exists d. now apply B8.
Qed.

Lemma resize_counter_bounds_witness :
  exists report st',
    resize (fun _ => ex_design) false true false BUF ex_resizer
    = Some (report, st')
    /\ (0 <= rebuffer_net_count_ st' <= inserted_buffer_count_ st')%Z
    /\ nets ex_resizer ⊆ nets st'.
Proof.
  destruct (resize (fun _ => ex_design) false true false BUF ex_resizer)
    as [[report st'] |] eqn:E; [| vm_compute in E; discriminate].
  exists report, st'. split; [reflexivity |].
  destruct (resize_counter_bounds _ _ _ _ _ _ _ _ E) as (H1 & _ & _ & H4 & _).
  auto.
Defined.

(** ** Command line *)

Lemma findCmdLineArg_loop_spec (args : list string) (arg_index : Z) :
  forall a : Z,
    (a <= arg_index)%Z ->
    findCmdLineArg_loop args arg_index a
    = List.filter is_arg args !! Z.to_nat (arg_index - a).
Proof.
  induction args as [| arg args IH]; intros a Ha; simpl; [reflexivity |].
  unfold is_arg at 1. destruct (negb (is_flag arg)).
  - destruct (Z.eqb_spec a arg_index) as [-> | Hne].
    + now rewrite Z.sub_diag.
    + rewrite IH by lia.
      replace (Z.to_nat (arg_index - a)) with (S (Z.to_nat (arg_index - (a + 1)))) by lia.
      reflexivity.
  - apply IH, Ha.
Qed.

Lemma findCmdLineArg_loop_none (args : list string) (arg_index : Z) :
  forall a : Z, (arg_index < a)%Z -> findCmdLineArg_loop args arg_index a = None.
Proof.
  induction args as [| arg args IH]; intros a Ha; simpl; [reflexivity |].
  destruct (negb (is_flag arg)); [| apply IH, Ha].
  destruct (Z.eqb_spec a arg_index); [lia | apply IH; lia].
Qed.

(** X16.  [findCmdLineArg] returns the argument with index [arg_index]
    among the arguments behind the program name that do not start with
    [-], counted from 0, and nothing when there are not that many or the
    index is negative; a flag is never returned. *)
Theorem findCmdLineArg_nth (argv : list string) (arg_index : Z) :
  findCmdLineArg argv arg_index
  = if (arg_index <? 0)%Z then None
    else List.filter is_arg (tail argv) !! Z.to_nat arg_index.
Proof.
  unfold findCmdLineArg. destruct (Z.ltb_spec arg_index 0).
  - apply findCmdLineArg_loop_none; assumption.
  - rewrite findCmdLineArg_loop_spec by assumption. now rewrite Z.sub_0_r.
Qed.

(** ** Start-up *)

Lemma find_last_of_None (s : string) (c : Ascii.ascii) :
  ~ In c (list_ascii_of_string s) -> find_last_of s c = None.
Proof.
  induction s as [| a s IH]; simpl; [reflexivity |].
  intros H. rewrite IH by tauto.
  destruct (Ascii.eqb_spec a c) as [-> | _]; [tauto | reflexivity].
Qed.

Lemma find_last_of_app (s1 s2 : string) (c : Ascii.ascii) :
  ~ In c (list_ascii_of_string s2) ->
  find_last_of (s1 ++ String c s2) c = Some (String.length s1).
Proof.
  intros H. induction s1 as [| a s1 IH]; simpl.
  - rewrite (find_last_of_None _ _ H). now rewrite Ascii.eqb_refl.
  - now rewrite IH.
Qed.

Lemma erase_app (s1 s2 : string) : erase (s1 ++ s2) (String.length s1) = s1.
Proof.
  unfold erase. induction s1 as [| a s1 IH]; simpl.
  - now destruct s2.
  - now rewrite IH.
Qed.

(** X17.  Where [initFlute] looks for the tables.  For a path without a
    slash it tries [..] alone; for [d2/name] it tries [.] and then [..];
    for [dir/d2/name] it tries [dir], two levels above the program, and
    then [..].  It settles for the first directory that can be read and
    gives up when none can. *)
Theorem initFlute_directories (readFluteInits : string -> bool)
    (dir d2 name : string) :
  no_slash d2 -> no_slash name ->
  initFlute readFluteInits name = List.find readFluteInits [".."%string]
  /\ initFlute readFluteInits (d2 ++ "/" ++ name)
     = List.find readFluteInits ["."%string; ".."%string]
  /\ initFlute readFluteInits (dir ++ "/" ++ d2 ++ "/" ++ name)
     = List.find readFluteInits [dir; ".."%string].
Proof.
  unfold no_slash. intros Hd2 Hname. unfold initFlute. repeat split.
  - rewrite (find_last_of_None _ _ Hname). reflexivity.
  - change (d2 ++ "/" ++ name)%string with (d2 ++ String "/"%char name)%string.
    rewrite (find_last_of_app _ _ _ Hname), erase_app.
    rewrite (find_last_of_None _ _ Hd2). reflexivity.
  - change (dir ++ "/" ++ d2 ++ "/" ++ name)%string
      with (dir ++ String "/"%char (d2 ++ String "/"%char name))%string.
    replace (dir ++ String "/"%char (d2 ++ String "/"%char name))%string
      with ((dir ++ String "/"%char d2) ++ String "/"%char name)%string.
    2:{ clear. induction dir as [| a dir IH]; [reflexivity |].
        change (String a ((dir ++ String "/"%char d2) ++ String "/"%char name)
                = String a (dir ++ String "/"%char (d2 ++ String "/"%char name)))%string.
        now rewrite IH. }
    rewrite (find_last_of_app _ _ _ Hname), erase_app.
    rewrite (find_last_of_app _ _ _ Hd2), erase_app.
    reflexivity.
Qed.

Lemma initFlute_directories_witness :
  initFlute (fun d => String.eqb d "/opt/resizer") "/opt/resizer/bin/resizer"
  = Some "/opt/resizer"%string.
Proof.
  destruct (initFlute_directories (fun d => String.eqb d "/opt/resizer")
              "/opt/resizer" "bin" "resizer") as (_ & _ & H).
  - unfold no_slash; simpl; intuition discriminate.
  - unfold no_slash; simpl; intuition discriminate.
  - exact H.
Defined.

(** ** Gate delays and required times *)

Lemma Qmax_cases (a b : Q) : Qmax a b = a \/ Qmax a b = b.
Proof.
  unfold Qmax, GenericMinMax.gmax. destruct (a ?= b); auto.
Qed.

Lemma fold_Qmax_spec (ds : list Q) :
  forall init : Q,
    init <= fold_left Qmax ds init
    /\ (forall d, d ∈ ds -> d <= fold_left Qmax ds init)
    /\ (fold_left Qmax ds init = init \/ fold_left Qmax ds init ∈ ds).
Proof.
  induction ds as [| d ds IH]; intros init.
  - split; [apply Qle_refl |]. split; [| left; reflexivity]. intros d Hd. inversion Hd.
  - change (fold_left Qmax (d :: ds) init) with (fold_left Qmax ds (Qmax init d)).
    destruct (IH (Qmax init d)) as (Hle & Hall & Hin).
    pose proof (Q.le_max_l init d) as Hl. pose proof (Q.le_max_r init d) as Hr.
    split; [eapply Qle_trans; eassumption |]. split.
    + intros d' Hd'. apply elem_of_cons in Hd' as [-> | Hd'];
        [eapply Qle_trans; eassumption | auto].
    + destruct Hin as [Hin | Hin]; [| right; apply elem_of_cons; now right].
      destruct (Qmax_cases init d) as [E | E].
      * left. exact (eq_trans Hin E).
      * right. rewrite Hin, E. apply elem_of_cons. now left.
Qed.

Lemma gateDelay_fold (sta : Sta) (out_port : LibertyPort) (load_cap : Q) :
  gateDelay sta out_port load_cap
  = fold_left Qmax (arcDelays sta out_port load_cap) (- INF).
Proof.
  unfold gateDelay, arcDelays. generalize (- INF).
  induction (timingArcSets (libertyCell out_port)) as [| arc_set sets IH];
    intros init; simpl; [reflexivity |].
  rewrite fold_left_app, IH. f_equal.
  destruct (String.eqb _ _); [| reflexivity].
  clear. revert init.
  induction (arcs arc_set) as [| arc l IH]; intros init; simpl; [reflexivity |].
  rewrite <- IH. f_equal.
  now destruct (arc_delay_calc_gateDelay _ _ _ _ _).
Qed.

(** X18.  [gateDelay] is never below [-INF] and never below the delay of
    a timing arc into the output port, each arc taken at the target slew
    of its input transition; it is [-INF] or the delay of one of these
    arcs, so [-INF] when the cell has no arc into the port. *)
Theorem gateDelay_max (sta : Sta) (out_port : LibertyPort) (load_cap : Q) :
  let delay := gateDelay sta out_port load_cap in
  - INF <= delay
  /\ (forall d, d ∈ arcDelays sta out_port load_cap -> d <= delay)
  /\ (delay = - INF \/ delay ∈ arcDelays sta out_port load_cap).
Proof.
  cbv zeta. rewrite gateDelay_fold. apply fold_Qmax_spec.
Qed.

Lemma Qlt_bool_compat (a a' b b' : Q) :
  a == a' -> b == b' -> Qlt_bool a b = Qlt_bool a' b'.
Proof.
  intros Ha Hb.
  destruct (Qlt_bool a b) eqn:E1, (Qlt_bool a' b') eqn:E2; try reflexivity.
  - apply Qlt_bool_iff in E1. apply Qlt_bool_false_iff in E2. lra.
  - apply Qlt_bool_iff in E2. apply Qlt_bool_false_iff in E1. lra.
Qed.

Lemma Qeq_bool_sym (a b : Q) : Qeq_bool a b = Qeq_bool b a.
Proof.
  destruct (Qeq_bool a b) eqn:E1, (Qeq_bool b a) eqn:E2; try reflexivity.
  - apply Qeq_bool_iff in E1. apply Qeq_bool_neq in E2. symmetry in E1. tauto.
  - apply Qeq_bool_iff in E2. apply Qeq_bool_neq in E1. symmetry in E2. tauto.
Qed.

Lemma fuzzyEqual_sym (a b : Q) : fuzzyEqual a b = fuzzyEqual b a.
Proof.
  unfold fuzzyEqual. rewrite (Qeq_bool_sym b a).
  destruct (Qeq_bool a b) eqn:Eab; [reflexivity |].
  destruct (Qeq_bool a 0) eqn:Ea, (Qeq_bool b 0) eqn:Eb; try reflexivity.
  - apply Qeq_bool_iff in Ea, Eb. apply Qeq_bool_neq in Eab.
    exfalso. apply Eab. now rewrite Ea, Eb.
  - apply Qlt_bool_compat.
    + rewrite <- (Qabs_opp (a - b)). apply Qabs_wd. ring.
    + rewrite Q.max_comm. reflexivity.
Qed.

Lemma fuzzyLess_greater (a b : Q) : fuzzyLess a b = fuzzyGreater b a.
Proof.
  unfold fuzzyLess, fuzzyGreater. rewrite (fuzzyEqual_sym a b). reflexivity.
Qed.

(** [fuzzyGreater_mm] for either extreme is a strict order. *)
Lemma fuzzyGreater_mm_trans (min_max : MinMax) (a b c : Q) :
  fuzzyGreater_mm a b min_max = true -> fuzzyGreater_mm b c min_max = true ->
  fuzzyGreater_mm a c min_max = true.
Proof.
  destruct min_max; simpl.
  - rewrite !fuzzyLess_greater. intros H1 H2. eapply fuzzyGreater_trans; eassumption.
  - apply fuzzyGreater_trans.
Qed.

Lemma fuzzyGreater_mm_irrefl (min_max : MinMax) (a : Q) :
  fuzzyGreater_mm a a min_max = false.
Proof.
  destruct min_max; simpl; [rewrite fuzzyLess_greater |]; apply fuzzyGreater_irrefl.
Qed.

(** A loop that takes every value that beats, under a strict order, the
    best one so far ends with a value that no value of the list beats. *)
Lemma fold_best_spec {A} (better : Q -> Q -> bool) (key : A -> Q) (use : A -> bool) :
  (forall a, better a a = false) ->
  (forall a b c, better a b = true -> better b c = true -> better a c = true) ->
  forall (l : list A) (init : Q),
    let r := fold_left
               (fun best x => if use x && better (key x) best then key x else best)
               l init in
    (r = init \/ exists x, x ∈ l /\ use x = true /\ r = key x)
    /\ (r = init \/ better r init = true)
    /\ (forall x, x ∈ l -> use x = true -> better (key x) r = false).
Proof.
  intros Hirr Htrans. induction l as [| x l IH]; intros init; simpl.
  - split; [now left |]. split; [now left |]. intros x Hx. inversion Hx.
  - set (init' := if use x && better (key x) init then key x else init).
    destruct (IH init') as (Hin & Hinit & Hall).
    set (r := fold_left _ l init') in *.
    assert (Hno : forall a b, better a b = true -> better b a = false).
    { intros a b Hab. destruct (better b a) eqn:Hba; [| reflexivity].
      rewrite <- (Hirr a). symmetry. eapply Htrans; eassumption. }
    destruct (use x && better (key x) init) eqn:Htake.
    + apply andb_true_iff in Htake as [Hu Hb]. subst init'.
      split; [| split].
      * right. destruct Hin as [-> | (y & Hy & Huy & ->)].
        -- exists x. split; [apply elem_of_cons; now left | auto].
        -- exists y. split; [apply elem_of_cons; now right | auto].
      * right. destruct Hinit as [-> | Hr]; [exact Hb |].
        eapply Htrans; eassumption.
      * intros y Hy Huy. apply elem_of_cons in Hy as [-> | Hy]; [| auto].
        destruct Hinit as [-> | Hr]; [apply Hirr | apply Hno, Hr].
    + subst init'. split; [| split].
      * destruct Hin as [-> | (y & Hy & Huy & ->)]; [now left |].
        right. exists y. split; [apply elem_of_cons; now right | auto].
      * exact Hinit.
      * intros y Hy Huy. apply elem_of_cons in Hy as [-> | Hy]; [| auto].
        rewrite Huy in Htake. simpl in Htake.
        destruct Hinit as [-> | Hr]; [exact Htake |].
        destruct (better (key x) r) eqn:Hyr; [| reflexivity].
        rewrite <- Htake. symmetry. eapply Htrans; eassumption.
Qed.

(** X19.  [vertexRequired] returns the required time of one of the paths
    of the vertex for [min_max], and the initial value of the opposite
    extreme ([INF] for [MinMax::max()]) when it finds none to take; no
    path of the vertex for [min_max] has a required time that beats the
    result under the fuzzy comparator. *)
Theorem vertexRequired_extreme (sta : Sta) (vertex : Vertex) (min_max : MinMax) :
  let req := vertexRequired sta vertex min_max in
  (req = initValue (opposite min_max)
   \/ exists path, path ∈ vertex_paths sta vertex
        /\ path_minMax path = min_max /\ req = path_required path)
  /\ (forall path, path ∈ vertex_paths sta vertex ->
        path_minMax path = min_max ->
        fuzzyGreater_mm (path_required path) req (opposite min_max) = false).
Proof.
  cbv zeta. unfold vertexRequired.
  destruct (fold_best_spec
              (fun a b => fuzzyGreater_mm a b (opposite min_max)) path_required
              (fun path => MinMax_eqb (path_minMax path) min_max)
              (fuzzyGreater_mm_irrefl _)
              (fuzzyGreater_mm_trans _)
              (vertex_paths sta vertex) (initValue (opposite min_max)))
    as (Hin & _ & Hall).
  assert (Heqb : forall a b, MinMax_eqb a b = true <-> a = b).
  { intros [] []; simpl; split; congruence. }
  split.
  - destruct Hin as [Hin | (path & Hp & Hu & Hr)]; [now left |].
    right. exists path. rewrite <- Heqb. auto.
  - intros path Hp Hmm. apply Hall; [exact Hp | now apply Heqb].
Qed.

(** ** The choice of the driver and the pruning *)

Lemma rebuffer_best_spec (sta : Sta) (drvr_port : LibertyPort)
    (Z : list RebufferOption) :
  forall Tbest best,
    (rebuffer_best sta drvr_port Z Tbest best = best
     /\ forall p, p ∈ Z -> fuzzyGreater (driverRequired sta drvr_port p) Tbest = false)
    \/ (exists p,
          rebuffer_best sta drvr_port Z Tbest best = Some p /\ p ∈ Z
          /\ fuzzyGreater (driverRequired sta drvr_port p) Tbest = true
          /\ forall q, q ∈ Z ->
               fuzzyGreater (driverRequired sta drvr_port q)
                 (driverRequired sta drvr_port p) = false).
Proof.
  induction Z as [| p Z IH]; intros Tbest best; simpl.
  - left. split; [reflexivity |]. intros p Hp. inversion Hp.
  - change (required p - gateDelay sta drvr_port (cap p))
      with (driverRequired sta drvr_port p).
    destruct (fuzzyGreater (driverRequired sta drvr_port p) Tbest) eqn:Hgt.
    + right.
      destruct (IH (driverRequired sta drvr_port p) (Some p))
        as [[-> Hall] | (p' & -> & Hin & Hgt' & Hall)].
      * exists p. split; [reflexivity |]. split; [apply elem_of_cons; now left |].
        split; [exact Hgt |].
        intros q Hq. apply elem_of_cons in Hq as [-> | Hq];
          [apply fuzzyGreater_irrefl | auto].
      * exists p'. split; [reflexivity |]. split; [apply elem_of_cons; now right |].
        split; [eapply fuzzyGreater_trans; eassumption |].
        intros q Hq. apply elem_of_cons in Hq as [-> | Hq];
          [now apply fuzzyGreater_asym | auto].
    + destruct (IH Tbest best) as [[-> Hall] | (p' & -> & Hin & Hgt' & Hall)].
      * left. split; [reflexivity |].
        intros q Hq. apply elem_of_cons in Hq as [-> | Hq]; auto.
      * right. exists p'. split; [reflexivity |].
        split; [apply elem_of_cons; now right |]. split; [exact Hgt' |].
        intros q Hq. apply elem_of_cons in Hq as [-> | Hq]; [| auto].
        destruct (fuzzyGreater (driverRequired sta drvr_port p)
                    (driverRequired sta drvr_port p')) eqn:E; [| reflexivity].
        rewrite (fuzzyGreater_trans _ _ _ E Hgt') in Hgt. discriminate.
Qed.

(** X21.  The option that [rebuffer] hands to the top-down pass is one of
    the options of the bottom-up pass whose required time at the driver
    is above [-INF] under the fuzzy comparator, and no option has a
    required time at the driver that is greater than its; without such an
    option none is chosen. *)
Theorem rebuffer_best_maximal (sta : Sta) (drvr_port : LibertyPort)
    (Z : list RebufferOption) :
  (rebuffer_best sta drvr_port Z (- INF) None = None
   /\ forall p, p ∈ Z ->
        fuzzyGreater (driverRequired sta drvr_port p) (- INF) = false)
  \/ (exists p,
        rebuffer_best sta drvr_port Z (- INF) None = Some p /\ p ∈ Z
        /\ fuzzyGreater (driverRequired sta drvr_port p) (- INF) = true
        /\ forall q, q ∈ Z ->
             fuzzyGreater (driverRequired sta drvr_port q)
               (driverRequired sta drvr_port p) = false).
Proof. apply rebuffer_best_spec. Qed.

(** *** Pruning *)

Lemma live_app (l1 l2 : list (option RebufferOption)) :
  live (l1 ++ l2) = live l1 ++ live l2.
Proof. apply omap_app. Qed.

Lemma live_clear (l : list (option RebufferOption)) (i : nat) :
  (length (live l) <= S (length (live (<[i := None]> l))))%nat.
Proof.
  revert i. induction l as [| e l IH]; intros i; [simpl; lia |].
  destruct i as [| i].
  - destruct e; simpl; lia.
  - specialize (IH i). destruct e; simpl in *; lia.
Qed.

Lemma prune_inner_live (sta : Sta) (buffer_cell : LibertyCell) (Tp Lp : Q)
    (n : nat) :
  forall (j : nat) (Z2 : list (option RebufferOption)) (qi : nat),
    (qi <= j)%nat -> (j + n)%nat = length Z2 ->
    (length (live (take j Z2))
     + length (List.filter (fun q => negb (worse sta buffer_cell Tp Lp q))
                 (live (drop j Z2)))
     <= length (live (prune_inner sta buffer_cell Tp Lp (seq j n) Z2 qi)))%nat.
Proof.
  induction n as [| n IH]; intros j Z2 qi Hqi Hlen.
  - simpl. rewrite take_ge, drop_ge by lia. simpl. lia.
  - destruct (lookup_lt_is_Some_2 Z2 j) as [e He]; [lia |].
    cbn [seq prune_inner]. rewrite He.
    rewrite (drop_S _ _ _ He).
    destruct e as [q |].
    + fold (worse sta buffer_cell Tp Lp q).
      destruct (worse sta buffer_cell Tp Lp q) eqn:Hw.
      * etrans; [| apply IH; [lia | rewrite length_insert; lia]].
        rewrite drop_insert_lt by lia.
        cbn [live omap id]. simpl. rewrite Hw. simpl.
        apply Nat.add_le_mono_r.
        destruct (decide (qi = j)) as [-> | Hne].
        -- erewrite take_S_r by (apply list_lookup_insert_eq; lia).
           rewrite take_insert_ge by lia. rewrite live_app. simpl.
           rewrite app_nil_r. lia.
        -- erewrite take_S_r by (rewrite list_lookup_insert_ne by lia; exact He).
           rewrite take_insert_lt by lia. rewrite live_app, length_app. simpl.
           pose proof (live_clear (take j Z2) qi). lia.
      * etrans; [| apply IH; [lia | lia]].
        rewrite (take_S_r _ _ _ He), live_app, length_app.
        cbn [live omap id]. simpl. rewrite Hw. simpl. lia.
    + etrans; [| apply IH; [lia | lia]].
      rewrite (take_S_r _ _ _ He), live_app, length_app. simpl. lia.
Qed.

Lemma worse_irrefl (sta : Sta) (buffer_cell : LibertyCell) (p : RebufferOption) :
  worse sta buffer_cell (bufferRequired sta buffer_cell p) (cap p) p = false.
Proof.
  unfold worse. rewrite fuzzyLess_greater, fuzzyGreater_irrefl. reflexivity.
Qed.

Lemma prune_outer_live (sta : Sta) (buffer_cell : LibertyCell) (pis : list nat) :
  forall Z2 : list (option RebufferOption),
    live Z2 <> [] -> live (prune_outer sta buffer_cell pis Z2) <> [].
Proof.
  induction pis as [| i pis IH]; intros Z2 Hlive; simpl; [exact Hlive |].
  destruct (Z2 !! i) as [[p |] |] eqn:Hi; try (apply IH, Hlive).
  apply IH.
  pose proof (prune_inner_live sta buffer_cell (bufferRequired sta buffer_cell p)
                (cap p) (length Z2) 0 Z2 0 (le_n 0) eq_refl) as H.
  rewrite take_0, drop_0 in H. simpl in H.
  assert (Hp : p ∈ List.filter
                 (fun q => negb (worse sta buffer_cell
                                   (bufferRequired sta buffer_cell p) (cap p) q))
                 (live Z2)).
  { apply list_elem_of_In, filter_In. split.
    - apply list_elem_of_In, list_elem_of_omap. exists (Some p).
      split; [eapply list_elem_of_lookup_2, Hi | reflexivity].
    - now rewrite worse_irrefl. }
  intros Hnil. rewrite Hnil in H. simpl in H.
  destruct (List.filter _ (live Z2)); [inversion Hp | simpl in H; lia].
Qed.

Lemma live_Some (Z2 : list RebufferOption) : live (Some <$> Z2) = Z2.
Proof.
  unfold live. induction Z2 as [| p Z2 IH]; [reflexivity |].
  change (p :: omap id (Some <$> Z2) = p :: Z2). now rewrite IH.
Qed.

Lemma prune_nonempty (sta : Sta) (buffer_cell : LibertyCell)
    (Z2 : list RebufferOption) :
  Z2 <> [] -> prune sta buffer_cell Z2 <> [].
Proof.
  intros HZ.
  apply (prune_outer_live sta buffer_cell (seq 0 (length (Some <$> Z2)))
           (Some <$> Z2)).
  rewrite live_Some. exact HZ.
Qed.

Lemma prune_inner_id (sta : Sta) (buffer_cell : LibertyCell) (Tp Lp : Q)
    (js : list nat) :
  forall (Z2 : list (option RebufferOption)) (qi : nat),
    (forall q, Some q ∈ Z2 -> worse sta buffer_cell Tp Lp q = false) ->
    prune_inner sta buffer_cell Tp Lp js Z2 qi = Z2.
Proof.
  induction js as [| j js IH]; intros Z2 qi Hall; simpl; [reflexivity |].
  destruct (Z2 !! j) as [[q |] |] eqn:Hj; try (apply IH, Hall).
  fold (worse sta buffer_cell Tp Lp q).
  rewrite (Hall q) by (eapply list_elem_of_lookup_2, Hj).
  apply IH, Hall.
Qed.

Lemma prune_outer_id (sta : Sta) (buffer_cell : LibertyCell) (pis : list nat) :
  forall Z2 : list (option RebufferOption),
    (forall p q, Some p ∈ Z2 -> Some q ∈ Z2 ->
       worse sta buffer_cell (bufferRequired sta buffer_cell p) (cap p) q = false) ->
    prune_outer sta buffer_cell pis Z2 = Z2.
Proof.
  induction pis as [| i pis IH]; intros Z2 Hall; simpl; [reflexivity |].
  destruct (Z2 !! i) as [[p |] |] eqn:Hi; try (apply IH, Hall).
  rewrite prune_inner_id; [apply IH, Hall |].
  intros q Hq. apply Hall; [eapply list_elem_of_lookup_2, Hi | exact Hq].
Qed.

Lemma worse_dominates (sta : Sta) (buffer_cell : LibertyCell) (p q : RebufferOption) :
  worse sta buffer_cell (bufferRequired sta buffer_cell p) (cap p) q
  = dominates sta buffer_cell p q.
Proof.
  unfold worse, dominates. now rewrite !fuzzyLess_greater.
Qed.

(** X23.  When no option dominates another, the pruning returns the
    options as they are, in their order. *)
Theorem prune_keeps_undominated (sta : Sta) (buffer_cell : LibertyCell)
    (Z2 : list RebufferOption) :
  (forall p q, p ∈ Z2 -> q ∈ Z2 -> dominates sta buffer_cell p q = false) ->
  prune sta buffer_cell Z2 = Z2.
Proof.
  intros Hall. unfold prune. rewrite prune_outer_id; [apply (live_Some Z2) |].
  intros p q Hp Hq. rewrite worse_dominates.
  apply list_elem_of_fmap in Hp as (p' & [= <-] & Hp).
  apply list_elem_of_fmap in Hq as (q' & [= <-] & Hq).
  auto.
Qed.

(** X22.  The pruning never clears every option: of a non-empty list at
    least one option survives, and every survivor is one of the options
    that went in. *)
Theorem prune_leaves_an_option (sta : Sta) (buffer_cell : LibertyCell)
    (Z2 : list RebufferOption) :
  Z2 <> [] ->
  prune sta buffer_cell Z2 <> []
  /\ forall o, o ∈ prune sta buffer_cell Z2 -> o ∈ Z2.
Proof.
  intros HZ. split; [now apply prune_nonempty | apply prune_subset].
Qed.

Lemma addWireAndBuffer_nil_iff (sta : Sta) (Z : list RebufferOption)
    (k_loc prev_loc : DefPt) (buffer_cell : LibertyCell) :
  addWireAndBuffer sta Z k_loc prev_loc buffer_cell = [] <-> Z = [].
Proof.
  split; [| now intros ->].
  unfold addWireAndBuffer.
  destruct (addWireAndBuffer_loop_spec sta buffer_cell k_loc prev_loc Z [] (- INF) None)
    as (best' & best_ref' & -> & _).
  destruct Z as [| p Z]; [reflexivity |].
  destruct best_ref'; discriminate.
Qed.

Lemma junctions_nil_iff (k_loc : DefPt) (Zl Zr : list RebufferOption) :
  junctions k_loc Zl Zr = [] <-> Zl = [] \/ Zr = [].
Proof.
  split.
  - destruct Zl as [| p Zl]; [now left |]. destruct Zr as [| q Zr]; [now right |].
    discriminate.
  - intros [-> | ->]; [reflexivity | apply junctions_nil_r].
Qed.

(** X24.  The bottom-up pass yields an option for a Steiner point exactly
    when every branch below the point ends in a load pin: when no
    descendant is the null point and every pin met is a load. *)
Theorem rebufferBottomUp_yields_iff (sta : Sta) (buffer_cell : LibertyCell)
    (k : SteinerPt) (prev_loc : DefPt) :
  rebufferBottomUp sta k prev_loc buffer_cell <> [] <-> reachesLoads sta k = true.
Proof.
  revert prev_loc.
  induction k as [| pin k_loc kl IHl kr IHr]; intros prev_loc; simpl.
  - split; [congruence | discriminate].
  - destruct pin as [pin |].
    + destruct (isLoad sta pin); [| split; [congruence | discriminate]].
      rewrite addWireAndBuffer_nil_iff. split; [reflexivity | discriminate].
    + rewrite addWireAndBuffer_nil_iff, andb_true_iff, <- (IHl k_loc), <- (IHr k_loc).
      split.
      * intros H. split; intros E; apply H; rewrite E;
          [reflexivity | now rewrite junctions_nil_r].
      * intros [Hl Hr] E. 
        destruct (junctions k_loc _ _) eqn:Ej.
        -- apply junctions_nil_iff in Ej. tauto.
        -- revert E. apply prune_nonempty. discriminate.
Qed.

Lemma prune_leaves_an_option_witness :
  prune ex_design BUF
    [sinkOption ex_design loadB (0, 0)%Z;
     mkRebufferOption sink 20 50 None (0, 0)%Z None None] <> []
  /\ forall o,
       o ∈ prune ex_design BUF
             [sinkOption ex_design loadB (0, 0)%Z;
              mkRebufferOption sink 20 50 None (0, 0)%Z None None] ->
       o ∈ [sinkOption ex_design loadB (0, 0)%Z;
            mkRebufferOption sink 20 50 None (0, 0)%Z None None].
Proof.
  apply (prune_leaves_an_option ex_design BUF). discriminate.
Defined.

Lemma prune_keeps_undominated_witness :
  prune ex_design BUF
    [sinkOption ex_design loadA (0, 0)%Z; sinkOption ex_design loadB (0, 0)%Z]
  = [sinkOption ex_design loadA (0, 0)%Z; sinkOption ex_design loadB (0, 0)%Z].
Proof.
  apply (prune_keeps_undominated ex_design BUF).
  intros p q Hp Hq.
  apply elem_of_cons in Hp as [-> | Hp];
    [| apply list_elem_of_singleton in Hp as ->];
    (apply elem_of_cons in Hq as [-> | Hq];
       [| apply list_elem_of_singleton in Hq as ->]);
    vm_compute; reflexivity.
Defined.

(** ** Order of the levelized list *)

Lemma stringLess_false (a b : string) :
  stringLess b a = false <-> String.leb a b = true.
Proof.
  unfold stringLess, String.ltb, String.leb.
  rewrite (String.compare_antisym a b).
  destruct (String.compare b a); simpl; split; congruence.
Qed.

Lemma VertexLevelLess_false (sta : Sta) (vertex1 vertex2 : Vertex) :
  VertexLevelLess sta vertex2 vertex1 = false <-> levelOrdered sta vertex1 vertex2.
Proof.
  unfold VertexLevelLess, levelOrdered.
  rewrite orb_false_iff, andb_false_iff, Z.ltb_ge, Z.eqb_neq, stringLess_false.
  split.
  - intros [Hle [Hne | Hs]]; [left; lia |].
    destruct (Z.eq_dec (level vertex1) (level vertex2)); [right; auto | left; lia].
  - intros [Hlt | [Heq Hs]]; [split; [lia | left; lia] | split; [lia | now right]].
Qed.

Lemma VertexLevelLess_asym (sta : Sta) (vertex1 vertex2 : Vertex) :
  VertexLevelLess sta vertex1 vertex2 = true ->
  VertexLevelLess sta vertex2 vertex1 = false.
Proof.
  unfold VertexLevelLess.
  rewrite orb_true_iff, andb_true_iff, Z.ltb_lt, Z.eqb_eq.
  rewrite orb_false_iff, andb_false_iff, Z.ltb_ge, Z.eqb_neq.
  intros [Hlt | [Heq Hs]]; [split; [lia | left; lia] |].
  split; [lia |]. right.
  unfold stringLess, String.ltb in *.
  rewrite (String.compare_antisym (pathName sta (vertex_pin vertex2))).
  destruct (String.compare (pathName sta (vertex_pin vertex1)) _);
    simpl in *; congruence.
Qed.

Lemma levelOrdered_trans (sta : Sta) (v1 v2 v3 : Vertex) :
  levelOrdered sta v1 v2 -> levelOrdered sta v2 v3 -> levelOrdered sta v1 v3.
Proof.
  unfold levelOrdered.
  intros [H12 | [H12 Hs12]] [H23 | [H23 Hs23]]; try (left; lia).
  right. split; [lia |].
  apply Is_true_true. apply Is_true_true in Hs12, Hs23.
  exact (transitivity (R := String.le) Hs12 Hs23).
Qed.

Section MergeSort.

Variable less : Vertex -> Vertex -> bool.
Hypothesis less_asym : forall v1 v2, less v1 v2 = true -> less v2 v1 = false.

Abbreviation R := (fun v1 v2 : Vertex => less v1 v2 = true).
Abbreviation dec := (fun v1 v2 : Vertex => decide (less v1 v2 = true)).
Abbreviation notAfter := (fun v1 v2 : Vertex => less v2 v1 = false).

Lemma HdRel_list_merge_less (x : Vertex) (l1 l2 : list Vertex) :
  HdRel notAfter x l1 -> HdRel notAfter x l2 ->
  HdRel notAfter x (@list_merge _ R dec l1 l2).
Proof.
  destruct 1 as [| x1 l1 H1], 1 as [| x2 l2 H2];
    rewrite ?list_merge_cons; simpl; repeat case_decide; auto.
Qed.

Lemma Sorted_list_merge_less (l1 l2 : list Vertex) :
  Sorted notAfter l1 -> Sorted notAfter l2 ->
  Sorted notAfter (@list_merge _ R dec l1 l2).
Proof.
  intros Hl1. revert l2. induction Hl1 as [| x1 l1 Hs1 IH1 Hd1];
    induction 1 as [| x2 l2 Hs2 IH2 Hd2]; rewrite ?list_merge_cons; simpl.
  - constructor.
  - now constructor.
  - now constructor.
  - case_decide as Hless.
    + constructor; [apply IH1; now constructor |].
      apply HdRel_list_merge_less; [exact Hd1 |].
      constructor. now apply less_asym.
    + constructor; [exact IH2 |].
      apply HdRel_list_merge_less; [| exact Hd2].
      constructor. now destruct (less x1 x2).
Qed.

Lemma Sorted_merge_list_to_stack_less (st : list (option (list Vertex)))
    (l : list Vertex) :
  merge_stack_Sorted notAfter st -> Sorted notAfter l ->
  merge_stack_Sorted notAfter (@merge_list_to_stack _ R dec st l).
Proof.
  intros Hst. revert l.
  induction Hst as [| st Hst IH | l' st Hl' Hst IH]; intros l Hl; simpl.
  - repeat constructor; assumption.
  - repeat constructor; assumption.
  - constructor. apply IH. now apply Sorted_list_merge_less.
Qed.

Lemma Sorted_merge_stack_less (st : list (option (list Vertex))) :
  merge_stack_Sorted notAfter st -> Sorted notAfter (@merge_stack _ R dec st).
Proof.
  induction 1; simpl; auto using Sorted_list_merge_less.
Qed.

Lemma Sorted_merge_sort_aux_less (st : list (option (list Vertex)))
    (l : list Vertex) :
  merge_stack_Sorted notAfter st ->
  Sorted notAfter (@merge_sort_aux _ R dec st l).
Proof.
  revert st. induction l as [| x l IH]; intros st Hst; simpl.
  - now apply Sorted_merge_stack_less.
  - apply IH, Sorted_merge_list_to_stack_less; [exact Hst |].
    repeat constructor.
Qed.

(** Sorting with a comparison that never puts two values both ways leaves
    no value in front of one that the comparison puts before it. *)
Lemma sort_Sorted (l : list Vertex) : Sorted notAfter (sort less l).
Proof.
  unfold sort, merge_sort. apply Sorted_merge_sort_aux_less. constructor.
Qed.

End MergeSort.

Lemma StronglySorted_lookup {A} (R : A -> A -> Prop) (l : list A) :
  StronglySorted R l ->
  forall i j x y, (i < j)%nat -> l !! i = Some x -> l !! j = Some y -> R x y.
Proof.
  induction 1 as [| a l Hl IH Hall]; intros i j x y Hij Hi Hj.
  - discriminate.
  - destruct j as [| j]; [lia |]. simpl in Hj. destruct i as [| i].
    + injection Hi as ->. rewrite Forall_forall in Hall.
      apply Hall. eapply list_elem_of_lookup_2, Hj.
    + simpl in Hi. apply (IH i j); [lia | assumption | assumption].
Qed.

(** X25.  When the levelized list is not valid,
    [ensureLevelDrvrVerticies] fills it with the vertices of the graph, each
    as often as the graph has it, in level order: of two entries the
    earlier has the lower level, or the same level and a path name that
    is not the greater one. *)
Theorem ensureLevelDrvrVerticies_sorted (sta : Sta) (st : Resizer) :
  level_drvr_verticies_valid_ st = false ->
  exists st',
    ensureLevelDrvrVerticies sta st = Some (tt, st')
    /\ level_drvr_verticies_ st' ≡ₚ graph_vertices sta
    /\ forall i j vertex1 vertex2,
         (i < j)%nat ->
         level_drvr_verticies_ st' !! i = Some vertex1 ->
         level_drvr_verticies_ st' !! j = Some vertex2 ->
         levelOrdered sta vertex1 vertex2.
Proof.
  intros Hvalid. unfold ensureLevelDrvrVerticies, bind, gets, modify.
  rewrite Hvalid. simpl. eexists. split; [reflexivity |]. simpl.
  rewrite collect_vertices. simpl.
  split; [apply merge_sort_Permutation |].
  apply StronglySorted_lookup.
  apply Sorted.Sorted_StronglySorted.
  - intros v1 v2 v3. apply levelOrdered_trans.
  - pose proof (sort_Sorted _ (VertexLevelLess_asym sta) (graph_vertices sta)) as H.
    induction H as [| v l Hs IH Hd]; constructor; [exact IH |].
    destruct Hd; constructor. now apply VertexLevelLess_false.
Qed.

Lemma ensureLevelDrvrVerticies_sorted_witness :
  exists st',
    ensureLevelDrvrVerticies ex_design ex_resizer = Some (tt, st')
    /\ level_drvr_verticies_ st' ≡ₚ graph_vertices ex_design
    /\ forall i j vertex1 vertex2,
         (i < j)%nat ->
         level_drvr_verticies_ st' !! i = Some vertex1 ->
         level_drvr_verticies_ st' !! j = Some vertex2 ->
         levelOrdered ex_design vertex1 vertex2.
Proof.
  apply (ensureLevelDrvrVerticies_sorted ex_design ex_resizer). reflexivity.
Defined.

(** ** Target loads of a library *)

Lemma findTargetLoads_arcs_app (sta : Sta) (fuel : nat) (cell : LibertyCell)
    (arcs1 arcs2 : list TimingArc) :
  forall target_load_sum arc_count,
    findTargetLoads_arcs sta fuel cell (arcs1 ++ arcs2) target_load_sum arc_count
    = match findTargetLoads_arcs sta fuel cell arcs1 target_load_sum arc_count with
      | Some (target_load_sum, arc_count) =>
          findTargetLoads_arcs sta fuel cell arcs2 target_load_sum arc_count
      | None => None
      end.
Proof.
  induction arcs1 as [| arc arcs1 IH]; intros s n; simpl; [reflexivity |].
  destruct (findTargetLoad fuel cell arc _); [apply IH | reflexivity].
Qed.

(** The two loops run over the counted arcs of the cell. *)
Lemma findTargetLoads_sets_flat (sta : Sta) (fuel : nat)
    (skipped : TimingArcSet -> bool) (cell : LibertyCell)
    (arc_sets : list TimingArcSet) :
  forall target_load_sum arc_count,
    findTargetLoads_sets sta fuel skipped cell arc_sets target_load_sum arc_count
    = findTargetLoads_arcs sta fuel cell
        (arc_set ← arc_sets; if skipped arc_set then [] else arcs arc_set)
        target_load_sum arc_count.
Proof.
  induction arc_sets as [| arc_set arc_sets IH]; intros s n; [reflexivity |].
  cbn [mbind list_bind findTargetLoads_sets]. fold (@mbind list _).
  destruct (skipped arc_set); cbn [negb app]; [apply IH |].
  rewrite findTargetLoads_arcs_app.
  destruct (findTargetLoads_arcs sta fuel cell (arcs arc_set) s n) as [[s1 n1] |];
    [apply IH | reflexivity].
Qed.

(** When the search of every arc returns, so does the loop; it counts the
    arcs. *)
Lemma findTargetLoads_arcs_returns (sta : Sta) (fuel : nat) (cell : LibertyCell)
    (arcs : list TimingArc) :
  (forall arc, arc ∈ arcs ->
     is_Some (findTargetLoad fuel cell arc (tgt_slews_ sta (fromTrans arc)))) ->
  forall target_load_sum arc_count,
  exists target_load_sum',
    findTargetLoads_arcs sta fuel cell arcs target_load_sum arc_count
    = Some (target_load_sum', (arc_count + Z.of_nat (length arcs))%Z)
    /\ (arcs = [] -> target_load_sum' = target_load_sum).
Proof.
  induction arcs as [| arc arcs IH]; intros Hall s n.
  - exists s. simpl. rewrite Z.add_0_r. auto.
  - destruct (Hall arc) as [l Hl]; [left |].
    cbn [findTargetLoads_arcs]. rewrite Hl.
    destruct (IH (fun a Ha => Hall a (list_elem_of_further _ _ _ Ha))
                (fadd s l) (n + 1)%Z) as (s' & -> & _).
    exists s'. split; [| discriminate].
    do 2 f_equal. cbn [length]. lia.
Qed.

Lemma findTargetLoads_cell_returns (sta : Sta) (fuel : nat)
    (skipped : TimingArcSet -> bool) (cell : LibertyCell) :
  (forall arc, arc ∈ countedArcs skipped cell ->
     is_Some (findTargetLoad fuel cell arc (tgt_slews_ sta (fromTrans arc)))) ->
  exists target_load,
    findTargetLoads_cell sta fuel skipped cell = Some target_load
    /\ (countedArcs skipped cell = [] -> target_load = fzero).
Proof.
  intros Hall. unfold findTargetLoads_cell.
  rewrite findTargetLoads_sets_flat. fold (countedArcs skipped cell).
  destruct (findTargetLoads_arcs_returns sta fuel cell _ Hall fzero 0%Z)
    as (s & -> & Hnil).
  eexists. split; [reflexivity |].
  intros E. rewrite E. reflexivity.
Qed.

Lemma findTargetLoads_map (sta : Sta) (fuel : nat)
    (skipped : TimingArcSet -> bool) (library : list LibertyCell) :
  (forall cell arc, cell ∈ library -> arc ∈ countedArcs skipped cell ->
     is_Some (findTargetLoad fuel cell arc (tgt_slews_ sta (fromTrans arc)))) ->
  forall m0 : gmap string float,
  exists target_load_map,
    findTargetLoads sta fuel skipped library m0 = Some target_load_map
    /\ (forall name, is_Some (m0 !! name) -> is_Some (target_load_map !! name))
    /\ (forall cell, cell ∈ library -> is_Some (target_load_map !! cell_name cell))
    /\ (forall name, is_Some (target_load_map !! name) ->
          is_Some (m0 !! name)
          \/ exists cell, cell ∈ library /\ cell_name cell = name)
    /\ (forall name,
          (forall cell, cell ∈ library -> cell_name cell = name ->
             countedArcs skipped cell = []) ->
          (forall t, m0 !! name = Some t -> t = fzero) ->
          forall t, target_load_map !! name = Some t -> t = fzero).
Proof.
  induction library as [| cell library IH]; intros Hall m0.
  - exists m0. split; [reflexivity |]. split; [auto |]. split.
    + intros cell Hc. inversion Hc.
    + split; [auto |]. intros name _ Hm0. exact Hm0.
  - cbn [findTargetLoads].
    destruct (findTargetLoads_cell_returns sta fuel skipped cell)
      as (t & -> & Hzero).
    { intros arc Harc. apply (Hall cell arc); [left | exact Harc]. }
    destruct (IH (fun c a Hc Ha => Hall c a (list_elem_of_further _ _ _ Hc) Ha)
                (<[cell_name cell := t]> m0))
      as (m & -> & Hkeep & Hin & Hdom & Hnone).
    exists m. split; [reflexivity |]. split; [| split; [| split]].
    + intros name Hname. apply Hkeep. rewrite lookup_insert_is_Some.
      destruct (decide (cell_name cell = name)); auto.
    + intros c Hc. apply elem_of_cons in Hc as [-> | Hc]; [| auto].
      apply Hkeep. rewrite lookup_insert_is_Some. now left.
    + intros name Hname. destruct (Hdom name Hname) as [Hm | (c & Hc & Hn)].
      * apply lookup_insert_is_Some in Hm as [E | [_ Hm]].
        -- right. exists cell. split; [left | exact E].
        -- now left.
      * right. exists c. split; [now right | exact Hn].
    + intros name Hcells Hm0. apply Hnone.
      * intros c Hc. apply Hcells. now right.
      * intros t'. rewrite lookup_insert_Some.
        intros [[E <-] | [_ H]]; [| eauto].
        apply Hzero, (Hcells cell); [left | exact E].
Qed.

(** X26.  When the search for the target load of every counted arc of the
    library returns, [findTargetLoads] returns; the map then holds an
    entry for every cell of the library and for no other name, and the
    entry of a name whose cells have no counted arc is 0. *)
Theorem findTargetLoads_returns (sta : Sta) (fuel : nat)
    (skipped : TimingArcSet -> bool) (library : list LibertyCell) :
  (forall cell arc, cell ∈ library -> arc ∈ countedArcs skipped cell ->
     is_Some (findTargetLoad fuel cell arc (tgt_slews_ sta (fromTrans arc)))) ->
  exists target_load_map,
    findTargetLoads sta fuel skipped library ∅ = Some target_load_map
    /\ (forall cell, cell ∈ library -> is_Some (target_load_map !! cell_name cell))
    /\ (forall name, is_Some (target_load_map !! name) ->
          exists cell, cell ∈ library /\ cell_name cell = name)
    /\ (forall name,
          (forall cell, cell ∈ library -> cell_name cell = name ->
             countedArcs skipped cell = []) ->
          forall t, target_load_map !! name = Some t -> t = fzero).
Proof.
  intros Hall.
  destruct (findTargetLoads_map sta fuel skipped library Hall ∅)
    as (m & Hrun & _ & Hin & Hdom & Hnone).
  exists m. split; [exact Hrun |]. split; [exact Hin |]. split.
  - intros name Hname. destruct (Hdom name Hname) as [Hm | H]; [| exact H].
    rewrite lookup_empty in Hm. destruct Hm as [? Hm]. discriminate.
  - intros name Hcells. apply Hnone; [exact Hcells |].
    intros t. rewrite lookup_empty. discriminate.
Qed.

Lemma findTargetLoads_returns_witness :
  exists target_load_map,
    findTargetLoads ex_design 11 (fun _ => false) [INV1; LOAD] ∅
    = Some target_load_map
    /\ is_Some (target_load_map !! cell_name INV1)
    /\ forall t, target_load_map !! cell_name LOAD = Some t -> t = fzero.
Proof.
  destruct (findTargetLoads_returns ex_design 11 (fun _ => false) [INV1; LOAD])
    as (m & Hrun & Hin & _ & Hnone).
  - intros cell arc Hcell Harc.
    apply elem_of_cons in Hcell as [-> | Hcell].
    + apply elem_of_cons in Harc as [-> | Harc];
        [vm_compute; eexists; reflexivity |].
      apply list_elem_of_singleton in Harc as ->. vm_compute. eexists. reflexivity.
    + apply list_elem_of_singleton in Hcell as ->. inversion Harc.
  - exists m. split; [exact Hrun |]. split; [apply Hin; left |].
    apply Hnone. intros cell Hcell Hname.
    apply elem_of_cons in Hcell as [-> | Hcell]; [discriminate Hname |].
    apply list_elem_of_singleton in Hcell as ->. reflexivity.
Defined.

(** ** Bounds on the options of the bottom-up pass *)

Lemma addWireAndBuffer_elem_required (sta : Sta) (Z : list RebufferOption)
    (k_loc prev_loc : DefPt) (buffer_cell : LibertyCell) (z : RebufferOption) :
  z ∈ addWireAndBuffer sta Z k_loc prev_loc buffer_cell ->
  exists p,
    p ∈ Z
    /\ (z = wireOption sta k_loc prev_loc p
        \/ z = bufferOption sta buffer_cell prev_loc
                 (wireBufferRequired sta buffer_cell k_loc prev_loc p) p).
Proof.
  unfold addWireAndBuffer.
  destruct (addWireAndBuffer_loop_spec sta buffer_cell k_loc prev_loc Z [] (- INF) None)
    as (best' & best_ref' & -> & Hcase).
  assert (Hwire : z ∈ (wireOption sta k_loc prev_loc <$> Z) ->
                  exists p, p ∈ Z /\ (z = wireOption sta k_loc prev_loc p
                    \/ z = bufferOption sta buffer_cell prev_loc
                             (wireBufferRequired sta buffer_cell k_loc prev_loc p) p)).
  { intros Hz. apply list_elem_of_fmap in Hz as (p & -> & Hp). eauto. }
  destruct Hcase as [(_ & -> & _) | (p & Hin & -> & -> & _)]; simpl; [exact Hwire |].
  rewrite elem_of_app. intros [Hz | Hz]; [auto |].
  apply list_elem_of_singleton in Hz. eauto.
Qed.

Lemma wire_length_dbu_nonneg (k_loc prev_loc : DefPt) :
  (0 <= wire_length_dbu k_loc prev_loc)%Z.
Proof. unfold wire_length_dbu. lia. Qed.

Lemma rebufferBottomUp_bounds (sta : Sta) (buffer_cell : LibertyCell)
    (k : SteinerPt) :
  physical sta buffer_cell ->
  forall (prev_loc : DefPt) (z : RebufferOption),
    z ∈ rebufferBottomUp sta k prev_loc buffer_cell ->
    0 <= cap z
    /\ forall s, s ∈ sinkOptions z -> required z <= required s.
Proof.
  intros (Hpin & Hbuf & Hwc & Hwr & Hdbu & Hdelay).
  assert (Hwcap : forall k_loc prev_loc, 0 <= wire_cap sta k_loc prev_loc).
  { intros k_loc prev_loc. unfold wire_cap. apply Qmult_le_0_compat; [| exact Hwc].
    apply Hdbu, wire_length_dbu_nonneg. }
  assert (Hwdelay : forall k_loc prev_loc, 0 <= wire_delay sta k_loc prev_loc).
  { intros k_loc prev_loc. unfold wire_delay.
    apply Qmult_le_0_compat; [| apply Hwcap].
    unfold wire_res. apply Qmult_le_0_compat; [| exact Hwr].
    apply Hdbu, wire_length_dbu_nonneg. }
  induction k as [| pin k_loc kl IHl kr IHr]; intros prev_loc z; simpl.
  - intros Hz. inversion Hz.
  - assert (Hstep : forall Z,
              (forall p, p ∈ Z ->
                 0 <= cap p /\ forall s, s ∈ sinkOptions p -> required p <= required s) ->
              z ∈ addWireAndBuffer sta Z k_loc prev_loc buffer_cell ->
              0 <= cap z
              /\ forall s, s ∈ sinkOptions z -> required z <= required s).
    { intros Z HZ Hz.
      apply addWireAndBuffer_elem_required in Hz as (p & Hp & Hz).
      destruct (HZ p Hp) as [Hcap Hreq].
      pose proof (Hwcap k_loc prev_loc) as Hc.
      pose proof (Hwdelay k_loc prev_loc) as Hd.
      destruct Hz as [-> | ->].
      - split.
        + unfold wireOption. cbn [cap]. lra.
        + intros s Hs. unfold wireOption in Hs |- *. cbn [sinkOptions required] in Hs |- *.
          rewrite app_nil_r in Hs. specialize (Hreq s Hs). lra.
      - split.
        + exact Hbuf.
        + intros s Hs. unfold bufferOption in Hs |- *.
          cbn [sinkOptions required] in Hs |- *.
          rewrite app_nil_r in Hs. specialize (Hreq s Hs).
          unfold wireBufferRequired, bufferRequired, wireOption. cbn [required cap].
          assert (0 <= bufferDelay sta buffer_cell (cap p + wire_cap sta k_loc prev_loc))
            by (apply Hdelay; lra).
          lra. }
    destruct pin as [pin |].
    + destruct (isLoad sta pin); [| intros Hz; inversion Hz].
      apply Hstep. intros p Hp. apply list_elem_of_singleton in Hp as ->.
      unfold sinkOption. cbn [cap required sinkOptions]. split; [apply Hpin |].
      intros s Hs. apply list_elem_of_singleton in Hs as ->. apply Qle_refl.
    + apply Hstep. intros p Hp.
      apply prune_subset, junctions_elem in Hp as (pl & pr & Hpl & Hpr & ->).
      apply IHl in Hpl as [Hcl Hrl]. apply IHr in Hpr as [Hcr Hrr].
      cbn [cap required sinkOptions]. split; [lra |].
      intros s Hs. apply elem_of_app in Hs as [Hs | Hs].
      * specialize (Hrl s Hs). pose proof (Q.le_min_l (required pl) (required pr)). lra.
      * specialize (Hrr s Hs). pose proof (Q.le_min_r (required pl) (required pr)). lra.
Qed.

(** X27.  When pin and buffer capacitances, the wire parasitics and the
    delays of the buffer are not negative, every option of the bottom-up
    pass has a capacitance that is not negative and a required time that
    is no later than the required time of any load pin it drives. *)
Theorem rebufferBottomUp_required_bound (sta : Sta) (buffer_cell : LibertyCell)
    (k : SteinerPt) (prev_loc : DefPt) (z : RebufferOption) :
  physical sta buffer_cell ->
  z ∈ rebufferBottomUp sta k prev_loc buffer_cell ->
  0 <= cap z
  /\ forall s, s ∈ sinkOptions z -> required z <= required s.
Proof.
  intros Hphys. now apply rebufferBottomUp_bounds.
Qed.

Lemma rebufferBottomUp_required_bound_witness :
  exists z,
    z ∈ rebufferBottomUp ex_design ex_junction (0, 0)%Z BUF
    /\ 0 <= cap z
    /\ forall s, s ∈ sinkOptions z -> required z <= required s.
Proof.
  assert (Hphys : physical ex_design BUF).
  {
    unfold physical. repeat split.
    - intros pin. unfold pinCapacitance. simpl.
      destruct (pin_eqb pin drvr); [vm_compute; discriminate |].
      destruct (pin_eqb pin loadA); [vm_compute; discriminate |].
      destruct (pin_eqb pin loadB); vm_compute; discriminate.
    - vm_compute. discriminate.
    - vm_compute. discriminate.
    - vm_compute. discriminate.
    - intros dbu Hdbu. change (0 <= inject_Z dbu). change 0 with (inject_Z 0).
      now rewrite <- Zle_Qle.
    - intros load_cap Hcap.
      change (bufferDelay ex_design BUF load_cap)
        with (Qmax (Qmax (- INF) (1 * load_cap)) (1 * load_cap)).
      pose proof (Q.le_max_r (Qmax (- INF) (1 * load_cap)) (1 * load_cap)). lra. }
  destruct (rebufferBottomUp ex_design ex_junction (0, 0)%Z BUF) as [| z l] eqn:E;
    [vm_compute in E; discriminate |].
  exists z. split; [left |].
  apply (rebufferBottomUp_required_bound ex_design BUF ex_junction (0, 0)%Z z
           Hphys).
  rewrite E. left.
Defined.
